(** * pypsrp: the typed value model and the WinRM message-encryption framer

    A shallow embedding of [pypsrp/encryption.py] and [pypsrp/dotnet.py].
    Python [bytes] are lists of [Byte.byte], Python [str] values are
    [string]s whose characters stand for code points below 256, Python
    [int]s are [Z], dictionaries whose iteration order matters are
    association lists in insertion order, the other dictionaries are
    [gmap]s, and a raised exception is the [Raise] case of [result]. *)

From Stdlib Require Import ZArith List Bool Lia.
From Stdlib.Strings Require Import Ascii String Byte.
From stdpp Require Import base gmap strings list sorting.
Import ListNotations.
Local Open Scope Z_scope.

(** ** Exceptions and results *)

Inductive exn : Type :=
| KeyError (key : string)
| IndexError
| ValueError (msg : string)
| TypeError (msg : string)
| StructError
| WinRMError (msg : string)
| ContextError (msg : string).

Inductive result (A : Type) : Type :=
| Ok (a : A)
| Raise (e : exn).
Arguments Ok {A} a.
Arguments Raise {A} e.

Definition bind {A B : Type} (r : result A) (k : A -> result B) : result B :=
  match r with
  | Ok a => k a
  | Raise e => Raise e
  end.

#[global] Instance result_ret : MRet result := fun _ a => Ok a.
#[global] Instance result_bind : MBind result := fun _ _ k r => bind r k.

Definition bytes : Type := list byte.

#[global] Instance byte_eq_decision : EqDecision byte := Byte.byte_eq_dec.

(** ** The built-in sequence operations the two modules use

    One definition serves [bytes] and (through its character list) [str]. *)

Section Sequences.
Context {A : Type} `{EqDecision A}.

(** [s.startswith(pat)] *)
Fixpoint startswith (pat s : list A) : bool :=
  match pat, s with
  | [], _ => true
  | _ :: _, [] => false
  | p :: pat', c :: s' => bool_decide (p = c) && startswith pat' s'
  end.

(** [s.endswith(pat)] *)
Definition endswith (pat s : list A) : bool :=
  startswith (rev pat) (rev s).

(** [pat in s] *)
Fixpoint contains (pat s : list A) : bool :=
  startswith pat s ||
  match s with
  | [] => false
  | _ :: s' => contains pat s'
  end.

(** [s.split(sep)] for a non-empty [sep] (Python rejects the empty one; both
    modules only pass literals): the text is scanned from the left, [cur]
    holds the current part reversed, and [skip] counts the elements of a
    separator just matched that are still to be passed over. *)
Fixpoint split_from (sep : list A) (skip : nat) (cur s : list A)
  : list (list A) :=
  match s with
  | [] => [rev cur]
  | c :: s' =>
      match skip with
      | S k => split_from sep k cur s'
      | O =>
          if startswith sep s
          then rev cur :: split_from sep (Nat.pred (length sep)) [] s'
          else split_from sep O (c :: cur) s'
      end
  end.

Definition split (sep s : list A) : list (list A) :=
  split_from sep O [] s.

(** [s.replace(old, new)] for a non-empty [old]: every occurrence found by
    the same left-to-right scan is replaced. *)
Fixpoint replace_from (old new : list A) (skip : nat) (s : list A) : list A :=
  match s with
  | [] => []
  | c :: s' =>
      match skip with
      | S k => replace_from old new k s'
      | O =>
          if startswith old s
          then new ++ replace_from old new (Nat.pred (length old)) s'
          else c :: replace_from old new O s'
      end
  end.

Definition replace (old new s : list A) : list A :=
  replace_from old new O s.

(** [s.strip()] with the whitespace test of the sequence type *)
Fixpoint lstrip (space : A -> bool) (s : list A) : list A :=
  match s with
  | [] => []
  | c :: s' => if space c then lstrip space s' else s
  end.

Definition rstrip (space : A -> bool) (s : list A) : list A :=
  rev (lstrip space (rev s)).

Definition strip (space : A -> bool) (s : list A) : list A :=
  rstrip space (lstrip space s).

(** [s[lo:hi]] with Python's treatment of negative and oversized indices *)
Definition clamp_index (len i : Z) : Z :=
  if i <? 0 then Z.max 0 (i + len) else Z.min i len.

Definition slice (s : list A) (lo hi : Z) : list A :=
  let len := Z.of_nat (length s) in
  let lo' := clamp_index len lo in
  let hi' := clamp_index len hi in
  firstn (Z.to_nat (hi' - lo')) (skipn (Z.to_nat lo') s).

(** [s[lo:]] *)
Definition slice_from (s : list A) (lo : Z) : list A :=
  skipn (Z.to_nat (clamp_index (Z.of_nat (length s)) lo)) s.

(** [s[:hi]] *)
Definition slice_to (s : list A) (hi : Z) : list A :=
  firstn (Z.to_nat (clamp_index (Z.of_nat (length s)) hi)) s.

(** [list(filter(None, parts))] on a list of sequences: the empty ones go *)
Definition filter_nonempty (parts : list (list A)) : list (list A) :=
  List.filter (fun p => match p with [] => false | _ :: _ => true end) parts.

End Sequences.

(** [range(start, stop, step)] for a positive step *)
Definition range (start stop step : Z) : list Z :=
  map (fun k => start + Z.of_nat k * step)
      (seq 0 (Z.to_nat ((stop - start + step - 1) / step))).

(** ** [bytes] and [str] primitives *)

Definition byte_code (b : byte) : Z := Z.of_N (Byte.to_N b).

(** the bytes [bytes.strip()] removes: space, tab, LF, VT, FF, CR *)
Definition isspace_byte (b : byte) : bool :=
  let n := byte_code b in ((9 <=? n) && (n <=? 13)) || (n =? 32).

Definition ascii_code (c : ascii) : Z := Z.of_N (N_of_ascii c).

(** the characters below 256 that [str.strip()] removes *)
Definition isspace_char (c : ascii) : bool :=
  let n := ascii_code c in
  ((9 <=? n) && (n <=? 13)) || ((28 <=? n) && (n <=? 32))
  || (n =? 133) || (n =? 160).

Definition str_split (sep s : string) : list string :=
  map string_of_list_ascii
      (split (list_ascii_of_string sep) (list_ascii_of_string s)).

Definition str_strip (s : string) : string :=
  string_of_list_ascii (strip isspace_char (list_ascii_of_string s)).

Definition str_contains (pat s : string) : bool :=
  contains (list_ascii_of_string pat) (list_ascii_of_string s).

(** [sep.join(parts)] *)
Definition str_join (sep : string) (parts : list string) : string :=
  String.concat sep parts.

(** Modelled from the spec: [to_bytes] of [pypsrp._utils] is not among the
    sources; the framer only applies it to ASCII text, which it turns into
    the bytes of the same codes. *)
Definition to_bytes (s : string) : bytes := list_byte_of_string s.

(** [str(n)] for an integer: decimal digits, most significant first, with a
    minus sign for a negative number. [str_digits] is run with one unit of
    fuel per binary digit, which is more than the decimal digits need. *)
Definition digit_char (d : Z) : ascii :=
  match d with
  | 0 => "0" | 1 => "1" | 2 => "2" | 3 => "3" | 4 => "4"
  | 5 => "5" | 6 => "6" | 7 => "7" | 8 => "8" | _ => "9"
  end%char.

Fixpoint str_digits (fuel : nat) (n : Z) (acc : string) : string :=
  match fuel with
  | O => acc
  | S f =>
      let acc' := String (digit_char (n mod 10)) acc in
      if n / 10 =? 0 then acc' else str_digits f (n / 10) acc'
  end.

Definition str_nonneg (n : Z) : string :=
  str_digits (S (Z.to_nat (Z.log2 n))) n EmptyString.

Definition str_int (z : Z) : string :=
  if z <? 0 then String "-"%char (str_nonneg (- z)) else str_nonneg z.

(** [int(b)] for [bytes]: surrounding whitespace is dropped, one sign is
    allowed, then decimal digits, where single underscores may separate
    digits. Anything else is a [ValueError] (whose text, in Python, goes on
    to quote the literal). *)
Definition digit_value (b : byte) : option Z :=
  let n := byte_code b in
  if (48 <=? n) && (n <=? 57) then Some (n - 48) else None.

Fixpoint int_digits (s : bytes) (acc : Z) (after_digit : bool) : option Z :=
  match s with
  | [] => if after_digit then Some acc else None
  | c :: s' =>
      match digit_value c with
      | Some d => int_digits s' (10 * acc + d) true
      | None =>
          if bool_decide (c = "_"%byte) && after_digit
          then int_digits s' acc false
          else None
      end
  end.

Definition int_of_bytes (b : bytes) : result Z :=
  let s := strip isspace_byte b in
  let r :=
    match s with
    | c :: s' =>
        if bool_decide (c = "-"%byte) then option_map Z.opp (int_digits s' 0 false)
        else if bool_decide (c = "+"%byte) then int_digits s' 0 false
        else int_digits s 0 false
    | [] => None
    end in
  match r with
  | Some z => Ok z
  | None => Raise (ValueError "invalid literal for int() with base 10")
  end.

(** [struct.pack("<i", n)] and [struct.unpack("<i", b)[0]]: a signed 32-bit
    integer in four little-endian bytes; out of range, or not four bytes, is
    a [struct.error]. *)
Definition byte_of_Z (z : Z) : byte :=
  match Byte.of_N (Z.to_N (z mod 256)) with
  | Some b => b
  | None => "000"%byte
  end.

Definition struct_pack_i (n : Z) : result bytes :=
  if (- 2 ^ 31 <=? n) && (n <? 2 ^ 31)
  then
    let u := n mod 2 ^ 32 in
    Ok [byte_of_Z u; byte_of_Z (Z.shiftr u 8);
        byte_of_Z (Z.shiftr u 16); byte_of_Z (Z.shiftr u 24)]
  else Raise StructError.

Definition struct_unpack_i (b : bytes) : result Z :=
  match b with
  | [b0; b1; b2; b3] =>
      let u := byte_code b0 + Z.shiftl (byte_code b1) 8
               + Z.shiftl (byte_code b2) 16 + Z.shiftl (byte_code b3) 24 in
      Ok (if u <? 2 ^ 31 then u else u - 2 ^ 32)
  | _ => Raise StructError
  end.


(** ** A matcher for the one kind of regular expression the framer uses:
    a sequence of single or starred character tests, with [$] *)

Inductive atom : Type :=
| Dot                  (* [.]: any character but a newline *)
| Lit (c : ascii)      (* a literal character *)
| WordOrDigit.         (* the class [[\w\d]] *)

Inductive item : Type :=
| One (a : atom)
| Star (a : atom)
| Eol.                 (* [$]: the end, or before a final newline *)

(** [\w] on code points below 256: letters, digits (also the superscript
    digits and the vulgar fractions, which count as numeric) and [_] *)
Definition isword_char (c : ascii) : bool :=
  let n := ascii_code c in
  ((48 <=? n) && (n <=? 57)) || ((65 <=? n) && (n <=? 90)) || (n =? 95)
  || ((97 <=? n) && (n <=? 122))
  || (n =? 170) || (n =? 178) || (n =? 179) || (n =? 181) || (n =? 185)
  || (n =? 186) || ((188 <=? n) && (n <=? 190))
  || ((192 <=? n) && (n <=? 214)) || ((216 <=? n) && (n <=? 246))
  || ((248 <=? n) && (n <=? 255)).

Definition atom_matches (a : atom) (c : ascii) : bool :=
  match a with
  | Dot => negb (bool_decide (c = "010"%char))
  | Lit l => bool_decide (c = l)
  | WordOrDigit => isword_char c
  end.

(** a starred test followed by the rest of the expression [k] *)
Fixpoint star (a : atom) (k : list ascii -> bool) (s : list ascii) : bool :=
  k s ||
  match s with
  | c :: s' => atom_matches a c && star a k s'
  | [] => false
  end.

Fixpoint match_items (items : list item) (s : list ascii) : bool :=
  match items with
  | [] => true
  | One a :: rest =>
      match s with
      | c :: s' => atom_matches a c && match_items rest s'
      | [] => false
      end
  | Star a :: rest => star a (match_items rest) s
  | Eol :: rest =>
      match s with
      | [] => match_items rest s
      | [c] => bool_decide (c = "010"%char) && match_items rest s
      | _ => false
      end
  end.

(** [re.match(items, s)]: anchored at the start, as [re.match] is *)
Definition re_match (items : list item) (s : string) : bool :=
  match_items items (list_ascii_of_string s).

(** ** The security contexts of the registry (external collaborators)

    A context is looked up by host name in [auth.contexts]. The GSS-API
    kind wraps to a header and the ciphertext; the TLS kind wraps to the
    ciphertext alone and knows the negotiated cipher suite. Their calls are
    opaque and may raise. *)

Record GSSContext : Type := {
  gss_wrap : bytes -> result (bytes * bytes);
  gss_unwrap : bytes -> bytes -> result bytes
}.

Record TLSContext : Type := {
  tls_wrap : bytes -> result bytes;
  tls_unwrap : bytes -> result bytes;
  get_cipher_name : string
}.

Inductive Context : Type :=
| GSS (c : GSSContext)
| TLS (c : TLSContext).

(** [self.auth.contexts[hostname]] *)
Definition contexts_getitem (contexts : gmap string Context) (hostname : string)
  : result Context :=
  match contexts !! hostname with
  | Some c => Ok c
  | None => Raise (KeyError hostname)
  end.

(** A context of the other kind has neither the methods nor the result
    shape the caller expects; Python raises there. *)
Definition wrong_context {A : Type} : result A :=
  Raise (TypeError "security context of the wrong kind").

(** ** [pypsrp/encryption.py] *)

Module WinRMEncryption.

Definition SIXTEEN_KB : Z := 16384.
Definition MIME_BOUNDARY : string := "--Encrypted Boundary".
Definition CREDSSP : string := "application/HTTP-CredSSP-session-encrypted".
Definition SPNEGO : string := "application/HTTP-SPNEGO-session-encrypted".

(** the hash lengths [_credssp_trailer] knows *)
Definition hash_lengths : gmap string Z :=
  <["MD5" := 16]> (<["SHA" := 20]> (<["SHA256" := 32]> (<["SHA384" := 48]> ∅))).

(** [r'^.*-GCM-[\w\d]*$'] *)
Definition GCM_PATTERN : list item :=
  [Star Dot; One (Lit "-"); One (Lit "G"); One (Lit "C"); One (Lit "M");
   One (Lit "-"); Star WordOrDigit; Eol].

Definition _credssp_trailer (msg_len : Z) (cipher_suite : string) : Z :=
  if re_match GCM_PATTERN cipher_suite
  then 16
  else
    let hash_algorithm := List.last (str_split "-" cipher_suite) EmptyString in
    let hash_length := default 0 (hash_lengths !! hash_algorithm) in
    let pre_pad_length := msg_len + hash_length in
    let padding_length :=
      if str_contains "RC4" cipher_suite then 0
      else if str_contains "DES" cipher_suite || str_contains "3DES" cipher_suite
      then 8 - pre_pad_length mod 8
      else 16 - pre_pad_length mod 16 in
    (pre_pad_length + padding_length) - msg_len.

Definition _wrap_spnego (auth : gmap string Context) (data : bytes)
  (hostname : string) : result bytes :=
  context ← contexts_getitem auth hostname;
  match context with
  | GSS context =>
      hw ← gss_wrap context data;
      let '(header, wrapped_data) := hw in
      packed ← struct_pack_i (Z.of_nat (length header));
      Ok (packed ++ header ++ wrapped_data)
  | TLS _ => wrong_context
  end.

Definition _wrap_credssp (auth : gmap string Context) (data : bytes)
  (hostname : string) : result bytes :=
  context ← contexts_getitem auth hostname;
  match context with
  | TLS context =>
      wrapped_data ← tls_wrap context data;
      let cipher_negotiated := get_cipher_name context in
      let trailer_length :=
        _credssp_trailer (Z.of_nat (length data)) cipher_negotiated in
      packed ← struct_pack_i trailer_length;
      Ok (packed ++ wrapped_data)
  | GSS _ => wrong_context
  end.

Definition _unwrap_spnego (auth : gmap string Context) (data : bytes)
  (hostname : string) : result bytes :=
  context ← contexts_getitem auth hostname;
  match context with
  | GSS context =>
      header_length ← struct_unpack_i (slice_to data 4);
      let header := slice data 4 (4 + header_length) in
      let wrapped_data := slice_from data (4 + header_length) in
      gss_unwrap context header wrapped_data
  | TLS _ => wrong_context
  end.

Definition _unwrap_credssp (auth : gmap string Context) (data : bytes)
  (hostname : string) : result bytes :=
  context ← contexts_getitem auth hostname;
  match context with
  | TLS context =>
      let wrapped_data := slice_from data 4 in
      tls_unwrap context wrapped_data
  | GSS _ => wrong_context
  end.

(** The object: [__init__] stores the two functions of the mechanism. *)
Record t : Type := {
  auth : gmap string Context;
  protocol : string;
  _wrap : bytes -> string -> result bytes;
  _unwrap : bytes -> string -> result bytes
}.

Definition __init__ (auth : gmap string Context) (protocol : string) : t :=
  if bool_decide (protocol = SPNEGO)
  then {| auth := auth; protocol := protocol;
          _wrap := _wrap_spnego auth; _unwrap := _unwrap_spnego auth |}
  else {| auth := auth; protocol := protocol;
          _wrap := _wrap_credssp auth; _unwrap := _unwrap_credssp auth |}.

(** the text before the wrapped data of one part *)
Definition part_head (protocol msg_length : string) : string :=
  str_join (String "013" (String "010" EmptyString))
    [MIME_BOUNDARY;
     String "009" "Content-Type: " +:+ protocol;
     String "009" "OriginalContent: type=application/soap+xml;charset=UTF-8;Length="
       +:+ msg_length;
     MIME_BOUNDARY;
     String "009" "Content-Type: application/octet-stream";
     EmptyString].

Definition _wrap_message (self : t) (message : bytes) (hostname : string)
  : result bytes :=
  let msg_length := str_int (Z.of_nat (length message)) in
  wrapped_data ← _wrap self message hostname;
  let payload := part_head (protocol self) msg_length in
  Ok (to_bytes payload ++ wrapped_data).

(** the loop of [wrap_message] over the chunks *)
Fixpoint wrap_chunks (self : t) (chunks : list bytes) (hostname : string)
  (encrypted_msg : bytes) : result bytes :=
  match chunks with
  | [] => Ok encrypted_msg
  | chunk :: chunks' =>
      encrypted_chunk ← _wrap_message self chunk hostname;
      wrap_chunks self chunks' hostname (encrypted_msg ++ encrypted_chunk)
  end.

Definition END_BOUNDARY : bytes :=
  to_bytes (MIME_BOUNDARY +:+ String "-" (String "-" (String "013" (String "010" EmptyString)))).

Definition wrap_message (self : t) (message : bytes) (hostname : string)
  : result (string * bytes) :=
  if bool_decide (protocol self = CREDSSP)
     && (Z.of_nat (length message) >? SIXTEEN_KB)
  then
    let content_type := "multipart/x-multi-encrypted"%string in
    let chunks :=
      map (fun i => slice message i (i + SIXTEEN_KB))
          (range 0 (Z.of_nat (length message)) SIXTEEN_KB) in
    encrypted_msg ← wrap_chunks self chunks hostname [];
    Ok (content_type, encrypted_msg ++ END_BOUNDARY)
  else
    let content_type := "multipart/encrypted"%string in
    encrypted_msg ← _wrap_message self message hostname;
    Ok (content_type, encrypted_msg ++ END_BOUNDARY).

Definition PART_BOUNDARY : bytes :=
  to_bytes (MIME_BOUNDARY +:+ String "013" (String "010" EmptyString)).

Definition OCTET_STREAM : bytes :=
  to_bytes (String "009" "Content-Type: application/octet-stream"
            +:+ String "013" (String "010" EmptyString)).

(** the [WinRMError] of the length check (the specification's
    DecryptionLengthMismatch), with the text the source formats *)
Definition length_mismatch (actual_length expected_length : Z) : exn :=
  WinRMError ("The encrypted length from the server does not match the expected length, decryption failed, actual: "
              +:+ str_int actual_length +:+ " != expected: "
              +:+ str_int expected_length).

(** [expected_length] of a part header *)
Definition expected_length_of (header : bytes) : result Z :=
  match nth_error (split (to_bytes "Length=") header) 1 with
  | Some field => int_of_bytes field
  | None => Raise IndexError
  end.

(** [wrapped_data] of a part payload: the end boundary goes if it is there,
    then the octet-stream marker is replaced by nothing *)
Definition wrapped_data_of (payload : bytes) : bytes :=
  let payload :=
    if endswith END_BOUNDARY payload
    then slice_to payload (Z.of_nat (length payload) - 24)
    else payload in
  replace OCTET_STREAM [] payload.

(** the loop of [unwrap_message]: [parts] is what is left from index [i] on,
    two parts are taken at a time *)
Fixpoint unwrap_parts (self : t) (parts : list bytes) (hostname : string)
  (message : bytes) : result bytes :=
  match parts with
  | [] => Ok message
  | [_] => Raise IndexError
  | part_i :: payload :: parts' =>
      let header := strip isspace_byte part_i in
      expected_length ← expected_length_of header;
      let wrapped_data := wrapped_data_of payload in
      unwrapped_data ← _unwrap self wrapped_data hostname;
      let actual_length := Z.of_nat (length unwrapped_data) in
      if negb (actual_length =? expected_length)
      then Raise (length_mismatch actual_length expected_length)
      else unwrap_parts self parts' hostname (message ++ unwrapped_data)
  end.

Definition unwrap_message (self : t) (message : bytes) (hostname : string)
  : result bytes :=
  let parts := split PART_BOUNDARY message in
  let parts := filter_nonempty parts in
  unwrap_parts self parts hostname [].

End WinRMEncryption.

(** ** Dictionaries whose order is observed: the items in insertion order *)

Section Dict.
Context {K V : Type} `{EqDecision K}.

(** [d[k] = v]: an existing key keeps its place *)
Fixpoint dict_setitem (d : list (K * V)) (k : K) (v : V) : list (K * V) :=
  match d with
  | [] => [(k, v)]
  | (k', v') :: d' =>
      if decide (k = k') then (k, v) :: d' else (k', v') :: dict_setitem d' k v
  end.

(** [dict(pairs)] *)
Definition dict_of_pairs (pairs : list (K * V)) : list (K * V) :=
  fold_left (fun d kv => dict_setitem d kv.1 kv.2) pairs [].

(** [d.get(k)] *)
Fixpoint dict_get (d : list (K * V)) (k : K) : option V :=
  match d with
  | [] => None
  | (k', v) :: d' => if decide (k = k') then Some v else dict_get d' k
  end.

(** [k in d] *)
Definition dict_contains (d : list (K * V)) (k : K) : bool :=
  match dict_get d k with Some _ => true | None => false end.

(** [d.keys()] *)
Definition dict_keys (d : list (K * V)) : list K := map fst d.

End Dict.

(** [sorted(l, reverse=True)] on integers *)
Definition sorted_reverse (l : list Z) : list Z :=
  merge_sort (flip Z.le) l.

(** ** [pypsrp/dotnet.py] *)

(** the classes of the typed value model, as far as they are named *)
Inductive ps_class : Type :=
| Class_PSString | Class_PSChar | Class_PSDateTime | Class_PSDuration
| Class_PSByte | Class_PSSByte | Class_PSUInt16 | Class_PSInt16
| Class_PSUInt | Class_PSInt | Class_PSUInt64 | Class_PSInt64
| Class_PSSingle | Class_PSDouble | Class_PSDecimal | Class_PSByteArray
| Class_PSGuid | Class_PSUri | Class_PSVersion | Class_PSXml
| Class_PSScriptBlock | Class_PSSecureString | Class_PSStack | Class_PSQueue
| Class_PSList | Class_PSDict | Class_PSEnumBase.

Module PSPropertyInfo.

Record t : Type := {
  name : option string;
  clixml_name : option string;
  optional : bool;
  ps_type : option ps_class
}.

Definition __init__ (name clixml_name : option string) (optional : bool)
  (ps_type : option ps_class) : t :=
  {| name := name; clixml_name := clixml_name; optional := optional;
     ps_type := ps_type |}.

End PSPropertyInfo.

Module PSObjectMeta.

(** [enum_type] is the attribute [PSEnumObjectMeta] adds; a plain
    [PSObjectMeta] does not have it. *)
Record t : Type := {
  adapted_properties : list PSPropertyInfo.t;
  extended_properties : list PSPropertyInfo.t;
  to_string : option string;
  type_names : list string;
  enum_type : option ps_class
}.

Definition __init__ : t :=
  {| adapted_properties := []; extended_properties := [];
     to_string := None; type_names := []; enum_type := None |}.

Definition set_type_names (m : t) (names : list string) : t :=
  {| adapted_properties := adapted_properties m;
     extended_properties := extended_properties m;
     to_string := to_string m; type_names := names;
     enum_type := enum_type m |}.

Definition set_enum_type (m : t) (c : ps_class) : t :=
  {| adapted_properties := adapted_properties m;
     extended_properties := extended_properties m;
     to_string := to_string m; type_names := type_names m;
     enum_type := Some c |}.

End PSObjectMeta.

Module PSEnumObjectMeta.

Definition __init__ : PSObjectMeta.t :=
  PSObjectMeta.set_enum_type PSObjectMeta.__init__ Class_PSInt.

End PSEnumObjectMeta.

(** A typed value: the value of the built-in base type and the [psobject]
    attribute, which is absent until something assigns it. *)
Module PSObject.

Record t (B : Type) : Type := {
  base : B;
  psobject : option PSObjectMeta.t
}.
Arguments base {B} _.
Arguments psobject {B} _.

Definition set_psobject {B : Type} (self : t B) (m : PSObjectMeta.t) : t B :=
  {| base := base self; psobject := Some m |}.

Definition __init__ {B : Type} (self : t B) : t B :=
  set_psobject self PSObjectMeta.__init__.

End PSObject.

Module PSEnumBase.

(** what a subclass defines: [ENUM_MAP] (its items in order) and [IS_FLAGS] *)
Record cls : Type := {
  ENUM_MAP : list (string * Z);
  IS_FLAGS : bool
}.

(** the argument of the constructor: text, or already an integer *)
Inductive arg : Type :=
| Text (s : string)
| Int (z : Z).

Definition __init__ (self : PSObject.t Z) (type_name : string)
  (base_type : ps_class) : PSObject.t Z :=
  let self := PSObject.__init__ self in
  let self := PSObject.set_psobject self PSEnumObjectMeta.__init__ in
  let self :=
    match PSObject.psobject self with
    | Some m =>
        PSObject.set_psobject self
          (PSObjectMeta.set_type_names m
             [type_name; "System.Enum"; "System.ValueType"; "System.Object"])
    | None => self
    end in
  match PSObject.psobject self with
  | Some m => PSObject.set_psobject self (PSObjectMeta.set_enum_type m base_type)
  | None => self
  end.

Definition invalid_flag (c : cls) (label : string) : exn :=
  ValueError ("Invalid enum flag '" +:+ label +:+ "', valid flags: "
              +:+ str_join ", " (dict_keys (ENUM_MAP c))).

Definition invalid_string (c : cls) (value : string) : exn :=
  ValueError ("Invalid enum string '" +:+ value +:+ "', valid strings: "
              +:+ str_join ", " (dict_keys (ENUM_MAP c))).

(** the loop of [__new__] over the labels of a flags text *)
Fixpoint new_flags (c : cls) (labels : list string) (enum_value : Z)
  : result Z :=
  match labels with
  | [] => Ok enum_value
  | label :: labels' =>
      let label := str_strip label in
      match dict_get (ENUM_MAP c) label with
      | None => Raise (invalid_flag c label)
      | Some v => new_flags c labels' (Z.lor enum_value v)
      end
  end.

(** the integer [__new__] hands to [int.__new__] *)
Definition __new__ (c : cls) (value : arg) : result Z :=
  match value with
  | Text value =>
      if IS_FLAGS c
      then new_flags c (str_split "," value) 0
      else
        match dict_get (ENUM_MAP c) value with
        | None => Raise (invalid_string c value)
        | Some v => Ok v
        end
  | Int enum_value => Ok enum_value
  end.

(** one round of the loop of [__str__]; [enum_map[v]] cannot miss, [v]
    being one of the keys of [enum_map] *)
Definition str_step (enum_map : list (Z * string)) (st : Z * list string)
  (v : Z) : Z * list string :=
  let '(enum_value, flags_set) := st in
  if Z.land enum_value v =? v
  then (Z.land enum_value (Z.lnot v),
        flags_set ++ [default EmptyString (dict_get enum_map v)])
  else st.

Definition __str__ (c : cls) (self : Z) : string :=
  let enum_value := self in
  let enum_map := dict_of_pairs (map (fun kv => (kv.2, kv.1)) (ENUM_MAP c)) in
  if negb (IS_FLAGS c)
  then default (str_int enum_value) (dict_get enum_map enum_value)
  else
    match dict_get enum_map enum_value with
    | Some label => label
    | None =>
        let candidates :=
          sorted_reverse
            (List.filter (fun v => negb (v =? 0)) (dict_keys enum_map)) in
        let '(enum_value, flags_set) :=
          fold_left (str_step enum_map) candidates (enum_value, []) in
        let flags_set :=
          if negb (enum_value =? 0)
          then flags_set ++ [str_int enum_value]
          else flags_set in
        str_join ", "
          (match flags_set with [] => [str_int self] | _ :: _ => flags_set end)
    end.

End PSEnumBase.

(** [uuid.UUID] of the Python library: its value, and the guard *)
Module UUID.

Definition __setattr__ {S V : Type} (self : S) (name : string) (value : V)
  : result S :=
  Raise (TypeError "UUID objects are immutable").

End UUID.

Module PSGuid.

(** what an attribute can hold *)
Inductive attr : Type :=
| Meta (m : PSObjectMeta.t)
| Other (z : Z).

(** the identifier's 128-bit value, and the instance dictionary *)
Record t : Type := {
  int : Z;
  __dict__ : gmap string attr
}.

Definition __setattr__ (self : t) (name : string) (value : attr) : result t :=
  if bool_decide (name = "psobject")
  then Ok {| int := int self; __dict__ := <["psobject" := value]> (__dict__ self) |}
  else UUID.__setattr__ self name value.

(** [self.psobject], when the instance dictionary has it *)
Definition get_psobject (self : t) : option attr :=
  __dict__ self !! "psobject".

End PSGuid.

(** ** Occurrences of a pattern: the notions the framing proofs use *)

Section Occurrences.
Context {A : Type} `{EqDecision A}.

(** [pat] and [a] differ at a position both have: [pat] cannot start at the
    head of [a], whatever follows [a] *)
Fixpoint mismatch (pat a : list A) : bool :=
  match pat, a with
  | p :: pat', c :: a' => negb (bool_decide (p = c)) || mismatch pat' a'
  | _, _ => false
  end.

(** [mismatch] at every position of [a] *)
Fixpoint all_mismatch (pat a : list A) : bool :=
  match a with
  | [] => true
  | _ :: a' => mismatch pat a && all_mismatch pat a'
  end.

(** No occurrence of [pat] in [a ++ rest] starts inside [a]. *)
Fixpoint no_match_in (pat a rest : list A) : Prop :=
  match a with
  | [] => True
  | _ :: a' => startswith pat (a ++ rest) = false /\ no_match_in pat a' rest
  end.

(** No proper, non-empty suffix of [pat] can be continued by [nxt] to an
    occurrence of [pat]: the tails of [pat] all differ from [nxt]. *)
Definition no_overlap (pat nxt : list A) : bool :=
  forallb (fun k => mismatch (skipn k pat) nxt) (seq 1 (Nat.pred (length pat))).

End Occurrences.

(** ** The envelope, part by part: the notions the framing theorems use *)

Module Envelope.
Import WinRMEncryption.

Definition CRLF : string := String "013" (String "010" EmptyString).

(** the header of a part: what stands between the two boundary lines *)
Definition part_header (protocol msg_length : string) : bytes :=
  to_bytes (String "009" "Content-Type: " +:+ protocol +:+ CRLF
            +:+ String "009" "OriginalContent: type=application/soap+xml;charset=UTF-8;Length="
            +:+ msg_length +:+ CRLF).

(** one part: boundary, header, boundary, marker, and the wrapped data *)
Definition frame (protocol : string) (chunk blob : bytes) : bytes :=
  PART_BOUNDARY ++ part_header protocol (str_int (Z.of_nat (length chunk)))
  ++ PART_BOUNDARY ++ OCTET_STREAM ++ blob.

Definition frames (protocol : string) (cbs : list (bytes * bytes)) : bytes :=
  flat_map (fun cb => frame protocol cb.1 cb.2) cbs.

(** the chunks [wrap_message] hands to [_wrap_message], in order *)
Definition message_chunks (self : t) (message : bytes) : list bytes :=
  if bool_decide (protocol self = CREDSSP)
     && (Z.of_nat (length message) >? SIXTEEN_KB)
  then map (fun i => slice message i (i + SIXTEEN_KB))
           (range 0 (Z.of_nat (length message)) SIXTEEN_KB)
  else [message].

(** The registered context of a host undoes its own wrapping. *)
Definition context_inverts (auth : gmap string Context) (hostname : string)
  : Prop :=
  match auth !! hostname with
  | Some (TLS c) =>
      forall data wrapped, tls_wrap c data = Ok wrapped ->
                           tls_unwrap c wrapped = Ok data
  | Some (GSS c) =>
      forall data header wrapped, gss_wrap c data = Ok (header, wrapped) ->
                                  gss_unwrap c header wrapped = Ok data
  | None => True
  end.

(** The mechanism wraps the chunk, and the wrapped data (length prefix
    included) can sit in an envelope: it contains neither the boundary line
    nor the octet-stream marker, and if another part follows it does not
    end in the end boundary. *)
Definition chunk_safe (self : t) (hostname : string) (final : bool)
  (chunk : bytes) : Prop :=
  exists blob, _wrap self chunk hostname = Ok blob
    /\ contains PART_BOUNDARY blob = false
    /\ contains OCTET_STREAM blob = false
    /\ (final = false -> endswith END_BOUNDARY blob = false).

Fixpoint chunks_safe (self : t) (hostname : string) (chunks : list bytes)
  : Prop :=
  match chunks with
  | [] => True
  | [chunk] => chunk_safe self hostname true chunk
  | chunk :: (_ :: _) as chunks' =>
      chunk_safe self hostname false chunk /\ chunks_safe self hostname chunks'
  end.

(** every chunk comes with wrapped data that can sit in an envelope *)
Fixpoint blobs_safe (cbs : list (bytes * bytes)) : Prop :=
  match cbs with
  | [] => True
  | [cb] => contains PART_BOUNDARY cb.2 = false
            /\ contains OCTET_STREAM cb.2 = false
  | cb :: (_ :: _) as cbs' =>
      (contains PART_BOUNDARY cb.2 = false
       /\ contains OCTET_STREAM cb.2 = false
       /\ endswith END_BOUNDARY cb.2 = false)
      /\ blobs_safe cbs'
  end.

(** the parts [unwrap_message] sees for a non-empty list of chunks *)
Fixpoint payload_parts (protocol : string) (cbs : list (bytes * bytes))
  : list bytes :=
  match cbs with
  | [] => []
  | [cb] =>
      [part_header protocol (str_int (Z.of_nat (length cb.1)));
       OCTET_STREAM ++ cb.2 ++ END_BOUNDARY]
  | cb :: (_ :: _) as cbs' =>
      part_header protocol (str_int (Z.of_nat (length cb.1)))
      :: (OCTET_STREAM ++ cb.2) :: payload_parts protocol cbs'
  end.

(** What [unwrap_message] recovers part by part, before it compares any
    length: for each pair of parts the declared length and the unwrapped
    data. *)
Fixpoint recover_parts (self : t) (parts : list bytes) (hostname : string)
  : result (list (Z * bytes)) :=
  match parts with
  | [] => Ok []
  | [_] => Raise IndexError
  | part_i :: payload :: parts' =>
      expected_length ← expected_length_of (strip isspace_byte part_i);
      unwrapped_data ← _unwrap self (wrapped_data_of payload) hostname;
      recovered ← recover_parts self parts' hostname;
      Ok ((expected_length, unwrapped_data) :: recovered)
  end.

Definition recover (self : t) (message : bytes) (hostname : string)
  : result (list (Z * bytes)) :=
  recover_parts self (filter_nonempty (split PART_BOUNDARY message)) hostname.

(** the recovered length of a chunk is the declared one *)
Definition lengths_agree (chunk : Z * bytes) : Prop :=
  Z.of_nat (length chunk.2) = chunk.1.

End Envelope.

(** A context that hands the data back unchanged: its unwrap undoes its
    wrap. *)
Definition echo_context : Context :=
  TLS {| tls_wrap := Ok; tls_unwrap := Ok;
         get_cipher_name := "ECDHE-RSA-AES256-GCM-SHA384" |}.

Definition echo_auth : gmap string Context := {[ "server" := echo_context ]}.

(** A GSS-API context that signs with a fixed header and leaves the data
    as it is. *)
Definition signing_context : Context :=
  GSS {| gss_wrap := fun data => Ok (to_bytes "signature", data);
         gss_unwrap := fun header data => Ok data |}.

Definition signing_auth : gmap string Context :=
  {[ "server" := signing_context ]}.

(** what [unwrap_message] does with the recovered chunks: the first whose
    length is not the declared one stops it *)
Fixpoint check_chunks (chunks : list (Z * bytes)) (message : bytes)
  : result bytes :=
  match chunks with
  | [] => Ok message
  | (expected_length, unwrapped_data) :: chunks' =>
      let actual_length := Z.of_nat (length unwrapped_data) in
      if negb (actual_length =? expected_length)
      then Raise (WinRMEncryption.length_mismatch actual_length expected_length)
      else check_chunks chunks' (message ++ unwrapped_data)
  end.

(** the two mechanisms *)
Definition known_protocol (protocol : string) : Prop :=
  protocol = WinRMEncryption.CREDSSP \/ protocol = WinRMEncryption.SPNEGO.

(** the constant pieces of a part header *)
Definition header_prefix (protocol : string) : bytes :=
  to_bytes (String "009" "Content-Type: " +:+ protocol +:+ Envelope.CRLF
            +:+ String "009" "OriginalContent: type=application/soap+xml;charset=UTF-8;Length=").

Definition LENGTH_FIELD : bytes := to_bytes "Length=".
Definition CRLF_BYTES : bytes := to_bytes Envelope.CRLF.
Definition BOUNDARY_BYTES : bytes := to_bytes WinRMEncryption.MIME_BOUNDARY.

(** segments joined by a separator *)
Fixpoint intercalate {A : Type} (sep : list A) (segments : list (list A))
  : list A :=
  match segments with
  | [] => []
  | [seg] => seg
  | seg :: (_ :: _) as segments' => seg ++ sep ++ intercalate sep segments'
  end.

(** two small envelopes for the echo context: the wrapped text [hello], and
    the same part under a header that declares seven bytes *)
Definition hello_envelope : bytes :=
  match WinRMEncryption.wrap_message
          (WinRMEncryption.__init__ echo_auth WinRMEncryption.CREDSSP)
          (to_bytes "hello") "server" with
  | Ok (_, framed) => framed
  | Raise _ => []
  end.

Definition short_envelope : bytes :=
  to_bytes (WinRMEncryption.part_head WinRMEncryption.CREDSSP "7")
  ++ [byte_of_Z 16; byte_of_Z 0; byte_of_Z 0; byte_of_Z 0]
  ++ to_bytes "hello" ++ WinRMEncryption.END_BOUNDARY.

(** a payload of [2 ^ n] copies of one byte *)
Fixpoint doubled (n : nat) (l : bytes) : bytes :=
  match n with
  | O => l
  | S k => doubled k (l ++ l)
  end.

(** ** The trailer length in the words of the specification *)

Module TrailerSpec.

Definition newline : ascii := "010".
Definition dash : ascii := "-".

(** a suite name of the GCM pattern: text without a newline, then [-GCM-],
    then word characters up to the end of the name (or to its final
    newline) *)
Definition gcm_named (suite : string) : Prop :=
  exists before after final,
    list_ascii_of_string suite
    = before ++ list_ascii_of_string "-GCM-" ++ after ++ final
    /\ Forall (fun c => c <> newline) before
    /\ Forall (fun c => isword_char c = true) after
    /\ (final = [] \/ final = [newline]).

Fixpoint take_until_dash (s : list ascii) : list ascii :=
  match s with
  | [] => []
  | c :: s' => if bool_decide (c = dash) then [] else c :: take_until_dash s'
  end.

(** the trailing token of a name: what follows its last dash *)
Definition trailing_token (suite : string) : string :=
  string_of_list_ascii
    (rev (take_until_dash (rev (list_ascii_of_string suite)))).

Definition hash_length (suite : string) : Z :=
  let token := trailing_token suite in
  if bool_decide (token = "MD5") then 16
  else if bool_decide (token = "SHA") then 20
  else if bool_decide (token = "SHA256") then 32
  else if bool_decide (token = "SHA384") then 48
  else 0.

Definition padding (suite : string) (pre_pad : Z) : Z :=
  if str_contains "RC4" suite then 0
  else if str_contains "3DES" suite || str_contains "DES" suite
  then 8 - pre_pad mod 8
  else 16 - pre_pad mod 16.

Definition trailer (plaintext_length : Z) (suite : string) : Z :=
  let pre_pad := plaintext_length + hash_length suite in
  (pre_pad + padding suite pre_pad) - plaintext_length.

End TrailerSpec.

(** ** The enum codec in the words of the specification *)

Module EnumSpec.
Import PSEnumBase.

(** the flags descriptor of the scenario *)
Definition access_flags : cls :=
  {| ENUM_MAP := [("None", 0); ("Read", 1); ("Write", 2); ("Execute", 4)];
     IS_FLAGS := true |}.

(** the label a descriptor maps an integer to: of the labels defined with
    that value, the last *)
Definition label_of (c : cls) (v : Z) : option string :=
  option_map fst (List.find (fun kv => kv.2 =? v) (rev (ENUM_MAP c))).

(** the candidate values: the non-zero values of the descriptor, each once,
    in descending order *)
Definition descending_candidates (c : cls) (candidates : list Z) : Prop :=
  StronglySorted Z.gt candidates
  /\ forall v, In v candidates
               <-> v <> 0 /\ exists label, In (label, v) (ENUM_MAP c).

(** every bit of [v] is a bit of [remaining] *)
Definition contained (v remaining : Z) : Prop :=
  forall i, 0 <= i -> Z.testbit v i = true -> Z.testbit remaining i = true.

(** the greedy pass: a candidate without a bit outside the remaining value
    gives its label and has its bits cleared *)
Fixpoint greedy (c : cls) (candidates : list Z) (remaining : Z)
  : list string * Z :=
  match candidates with
  | [] => ([], remaining)
  | v :: candidates' =>
      if Z.ldiff v remaining =? 0
      then
        let '(labels, residual) := greedy c candidates' (Z.ldiff remaining v) in
        (default EmptyString (label_of c v) :: labels, residual)
      else greedy c candidates' remaining
  end.

Definition decode (c : cls) (candidates : list Z) (z : Z) : string :=
  if IS_FLAGS c
  then
    match label_of c z with
    | Some label => label
    | None =>
        let '(labels, residual) := greedy c candidates z in
        let tokens :=
          labels ++ (if residual =? 0 then [] else [str_int residual]) in
        str_join ", " (match tokens with [] => [str_int z] | _ :: _ => tokens end)
    end
  else
    match label_of c z with
    | Some label => label
    | None => str_int z
    end.

(** the tokens of a flags text, and what it is to be a label *)
Definition tokens (text : string) : list string :=
  map str_strip (str_split "," text).

Definition is_label (c : cls) (token : string) : Prop :=
  In token (dict_keys (ENUM_MAP c)).

Definition value_of (c : cls) (token : string) : Z :=
  default 0 (dict_get (ENUM_MAP c) token).

(** the bitwise OR of the tokens' values *)
Definition or_of (c : cls) (tokens : list string) : Z :=
  fold_left Z.lor (map (value_of c) tokens) 0.

(** the typed-value invariant: metadata, when attached, names a type *)
Definition type_names_nonempty {B : Type} (v : PSObject.t B) : Prop :=
  forall m, PSObject.psobject v = Some m -> PSObjectMeta.type_names m <> [].

End EnumSpec.

(** an enum that is not a flag set *)
Definition apartment_state : PSEnumBase.cls :=
  {| PSEnumBase.ENUM_MAP := [("STA", 0); ("MTA", 1); ("Unknown", 2)];
     PSEnumBase.IS_FLAGS := false |}.

(** the parts [unwrap_message] sees when the envelope stops after the last
    wrapped data, without the end boundary *)
Fixpoint open_parts (protocol : string) (cbs : list (bytes * bytes))
  : list bytes :=
  match cbs with
  | [] => []
  | cb :: cbs' =>
      Envelope.part_header protocol (str_int (Z.of_nat (length cb.1)))
      :: (WinRMEncryption.OCTET_STREAM ++ cb.2) :: open_parts protocol cbs'
  end.
(** * Facts about the sequence operations *)

Section SequenceFacts.
Context {A : Type} `{EqDecision A}.
Implicit Types pat sep old a s rest cur : list A.

Lemma startswith_app pat s : startswith pat (pat ++ s) = true.
Proof.
  induction pat as [|p pat IH]; simpl; [done|].
  by rewrite bool_decide_eq_true_2.
Qed.

Lemma startswith_inv pat s :
  startswith pat s = true -> exists t, s = pat ++ t.
Proof.
  revert s; induction pat as [|p pat IH]; intros s Hs; simpl in *.
  - by exists s.
  - destruct s as [|c s]; [done|].
    apply andb_true_iff in Hs as [Hc Hs].
    apply bool_decide_eq_true_1 in Hc as ->.
    destruct (IH _ Hs) as [t ->]. by exists t.
Qed.

Lemma startswith_nil_r pat : pat <> [] -> startswith pat [] = false.
Proof. by destruct pat. Qed.

Lemma mismatch_startswith pat a rest :
  mismatch pat a = true -> startswith pat (a ++ rest) = false.
Proof.
  revert a; induction pat as [|p pat IH]; intros [|c a] Hm; simpl in *; try done.
  destruct (bool_decide (p = c)); simpl in *; [|done]. by apply IH.
Qed.

Lemma all_mismatch_no_match pat a rest :
  all_mismatch pat a = true -> no_match_in pat a rest.
Proof.
  induction a as [|c a IH]; simpl; [done|].
  intros [Hm Ha]%andb_true_iff. split; [|by apply IH].
  by apply (mismatch_startswith pat (c :: a) rest).
Qed.

Lemma no_match_in_app pat a b rest :
  no_match_in pat a (b ++ rest) -> no_match_in pat b rest ->
  no_match_in pat (a ++ b) rest.
Proof.
  induction a as [|c a IH]; simpl; [done|].
  intros [Hc Ha] Hb. split; [by rewrite <- app_assoc | by apply IH].
Qed.

(** elements that cannot begin [pat] *)
Lemma no_match_in_head p pat a rest :
  Forall (fun c => c <> p) a -> no_match_in (p :: pat) a rest.
Proof.
  induction 1 as [|c a Hc Ha IH]; simpl; [done|].
  split; [|done]. by rewrite bool_decide_eq_false_2.
Qed.

Lemma startswith_skip s pat rest :
  (length s <= length pat)%nat ->
  startswith pat (s ++ rest) = true ->
  startswith (skipn (length s) pat) rest = true.
Proof.
  revert pat; induction s as [|c s IH]; intros pat Hlen Hs; simpl in *; [done|].
  destruct pat as [|p pat]; simpl in *; [lia|].
  apply andb_true_iff in Hs as [_ Hs]. apply IH; [lia|done].
Qed.

Lemma startswith_long pat s rest :
  (length pat <= length s)%nat ->
  startswith pat (s ++ rest) = startswith pat s.
Proof.
  revert s; induction pat as [|p pat IH]; intros s Hlen; simpl in *; [done|].
  destruct s as [|c s]; simpl in *; [lia|].
  rewrite IH; [done|lia].
Qed.

(** If [a] does not contain [pat] and what follows cannot complete a tail
    of [pat], no occurrence starts inside [a]. *)
Lemma contains_no_match pat a nxt rest :
  contains pat a = false -> no_overlap pat nxt = true ->
  no_match_in pat a (nxt ++ rest).
Proof.
  intros Hc Ho. induction a as [|c a IH]; simpl; [done|].
  simpl in Hc. apply orb_false_iff in Hc as [Hc Ha].
  split; [|by apply IH].
  destruct (startswith pat (c :: a ++ nxt ++ rest)) eqn:Hs; [|done].
  exfalso. destruct (decide (length pat <= length (c :: a))%nat) as [Hle|Hgt].
  - change (c :: a ++ nxt ++ rest) with ((c :: a) ++ nxt ++ rest) in Hs.
    rewrite (startswith_long pat (c :: a) (nxt ++ rest) Hle) in Hs. congruence.
  - change (c :: a ++ nxt ++ rest) with ((c :: a) ++ nxt ++ rest) in Hs.
    apply (startswith_skip (c :: a) pat (nxt ++ rest)) in Hs; [|lia].
    unfold no_overlap in Ho. rewrite forallb_forall in Ho.
    assert (Hin : In (length (c :: a)) (seq 1 (Nat.pred (length pat)))).
    { apply in_seq. simpl in *. lia. }
    apply Ho in Hin. apply (mismatch_startswith _ _ rest) in Hin. congruence.
Qed.

Lemma contains_no_match_end pat a :
  pat <> [] -> contains pat a = false -> no_match_in pat a [].
Proof.
  intros Hp Hc. induction a as [|c a IH]; simpl; [done|].
  simpl in Hc. apply orb_false_iff in Hc as [Hc Ha].
  split; [|by apply IH]. by rewrite app_nil_r.
Qed.

(** *** [split] *)

Lemma split_from_skip sep k cur a rest :
  length a = k -> split_from sep k cur (a ++ rest) = split_from sep O cur rest.
Proof.
  revert k; induction a as [|c a IH]; intros k Hk; simpl in *; subst; [done|].
  by apply IH.
Qed.

Lemma split_from_no_match sep cur a rest :
  no_match_in sep a rest ->
  split_from sep O cur (a ++ rest) = split_from sep O (rev a ++ cur) rest.
Proof.
  revert cur; induction a as [|c a IH]; intros cur Ha; simpl in *; [done|].
  destruct Ha as [Hc Ha]. rewrite Hc, (IH _ Ha).
  by rewrite <- app_assoc.
Qed.

Lemma split_from_sep sep cur rest :
  sep <> [] ->
  split_from sep O cur (sep ++ rest) = rev cur :: split_from sep O [] rest.
Proof.
  intros Hsep. destruct sep as [|c sep]; [done|].
  change ((c :: sep) ++ rest) with (c :: (sep ++ rest)).
  cbn [split_from]. change (c :: sep ++ rest) with ((c :: sep) ++ rest).
  rewrite startswith_app. f_equal.
  by apply split_from_skip.
Qed.

Lemma split_from_end sep cur a :
  no_match_in sep a [] -> split_from sep O cur a = [rev cur ++ a].
Proof.
  intros Ha. rewrite <- (app_nil_r a) at 1.
  rewrite (split_from_no_match _ _ _ _ Ha). simpl.
  by rewrite rev_app_distr, rev_involutive.
Qed.

(** *** [replace] *)

Lemma replace_from_skip old new k a rest :
  length a = k ->
  replace_from old new k (a ++ rest) = replace_from old new O rest.
Proof.
  revert k; induction a as [|c a IH]; intros k Hk; simpl in *; subst; [done|].
  by apply IH.
Qed.

Lemma replace_old old new rest :
  old <> [] -> replace old new (old ++ rest) = new ++ replace old new rest.
Proof.
  intros Hold. destruct old as [|c old]; [done|]. unfold replace.
  change ((c :: old) ++ rest) with (c :: (old ++ rest)).
  cbn [replace_from]. change (c :: old ++ rest) with ((c :: old) ++ rest).
  rewrite startswith_app. f_equal.
  by apply replace_from_skip.
Qed.

Lemma replace_no_match old new a rest :
  no_match_in old a rest ->
  replace old new (a ++ rest) = a ++ replace old new rest.
Proof.
  unfold replace. induction a as [|c a IH]; intros Ha; simpl in *; [done|].
  destruct Ha as [Hc Ha]. by rewrite Hc, (IH Ha).
Qed.

Lemma replace_absent old new a :
  old <> [] -> contains old a = false -> replace old new a = a.
Proof.
  intros Hold Hc. rewrite <- (app_nil_r a) at 1.
  rewrite replace_no_match by (by apply contains_no_match_end).
  unfold replace. simpl. by rewrite app_nil_r.
Qed.

(** *** [strip] *)

Lemma lstrip_keep (space : A -> bool) c s :
  space c = false -> lstrip space (c :: s) = c :: s.
Proof. intros Hc. simpl. by rewrite Hc. Qed.

Lemma rstrip_keep (space : A -> bool) s c :
  space c = false -> rstrip space (s ++ [c]) = s ++ [c].
Proof.
  intros Hc. unfold rstrip. rewrite rev_app_distr. simpl.
  rewrite Hc. simpl. by rewrite rev_involutive.
Qed.

Lemma rstrip_drop (space : A -> bool) s c :
  space c = true -> rstrip space (s ++ [c]) = rstrip space s.
Proof.
  intros Hc. unfold rstrip. rewrite rev_app_distr. simpl. by rewrite Hc.
Qed.

(** *** [endswith] *)

Lemma endswith_app pat s : endswith pat (s ++ pat) = true.
Proof. unfold endswith. rewrite rev_app_distr. apply startswith_app. Qed.

Lemma endswith_app_long pat a s :
  (length pat <= length s)%nat -> endswith pat (a ++ s) = endswith pat s.
Proof.
  intros Hlen. unfold endswith. rewrite rev_app_distr.
  apply startswith_long. by rewrite !length_rev.
Qed.

End SequenceFacts.

(** * Decimal text of an integer and its reading *)

Lemma to_bytes_app (a b : string) : to_bytes (a +:+ b) = to_bytes a ++ to_bytes b.
Proof.
  unfold to_bytes, list_byte_of_string.
  induction a as [|c a IH]; simpl; [done|]. by rewrite IH.
Qed.

Lemma to_bytes_String c s : to_bytes (String c s) = byte_of_ascii c :: to_bytes s.
Proof. done. Qed.

(** a byte that is a decimal digit *)
Lemma digit_value_code b d : digit_value b = Some d -> byte_code b = 48 + d /\ 0 <= d <= 9.
Proof.
  unfold digit_value. destruct (_ && _) eqn:Hr; [|done].
  intros [= <-]. lia.
Qed.

Lemma digit_char_value d :
  0 <= d <= 9 -> digit_value (byte_of_ascii (digit_char d)) = Some d.
Proof.
  intros Hd.
  assert (Hc : d = 0 \/ d = 1 \/ d = 2 \/ d = 3 \/ d = 4 \/ d = 5 \/ d = 6
               \/ d = 7 \/ d = 8 \/ d = 9) by lia.
  repeat (destruct Hc as [-> | Hc]; [reflexivity|]). by subst.
Qed.

Lemma str_digits_S f n acc :
  str_digits (S f) n acc
  = if n / 10 =? 0 then String (digit_char (n mod 10)) acc
    else str_digits f (n / 10) (String (digit_char (n mod 10)) acc).
Proof. done. Qed.

(** [str_digits] writes a non-empty run of digits that [int_digits] reads
    back as the number *)
Lemma str_digits_read f : forall n acc,
  0 <= n < 2 ^ Z.of_nat (S f) ->
  exists ds, to_bytes (str_digits (S f) n acc) = ds ++ to_bytes acc
    /\ ds <> []
    /\ Forall (fun b => is_Some (digit_value b)) ds
    /\ forall rest a0 b,
         int_digits (ds ++ rest) a0 b
         = int_digits rest (a0 * 10 ^ Z.of_nat (length ds) + n) true.
Proof.
  induction f as [|f IH]; intros n acc Hn.
  - assert (Hq : n / 10 = 0) by (apply Z.div_small; simpl in Hn; lia).
    exists [byte_of_ascii (digit_char (n mod 10))].
    rewrite str_digits_S, Hq. simpl (0 =? 0). cbv iota.
    assert (Hd := digit_char_value (n mod 10) ltac:(pose proof (Z.mod_pos_bound n 10); lia)).
    split; [done|]. split; [done|]. split; [repeat constructor; by rewrite Hd|].
    intros rest a0 b. simpl. rewrite Hd. f_equal.
    rewrite Z.mod_small by (simpl in Hn; lia). lia.
  - rewrite str_digits_S. destruct (n / 10 =? 0) eqn:Hq.
    + apply Z.eqb_eq in Hq.
      exists [byte_of_ascii (digit_char (n mod 10))].
      assert (Hd := digit_char_value (n mod 10) ltac:(pose proof (Z.mod_pos_bound n 10); lia)).
      split; [done|]. split; [done|]. split; [repeat constructor; by rewrite Hd|].
      intros rest a0 b. simpl. rewrite Hd. f_equal.
      pose proof (Z.div_mod n 10 ltac:(lia)). lia.
    + apply Z.eqb_neq in Hq.
      destruct (IH (n / 10) (String (digit_char (n mod 10)) acc)) as (ds & Hds & Hne & Hall & Hread).
      { split; [apply Z.div_pos; lia|].
        apply Z.div_lt_upper_bound; [lia|].
        rewrite !Nat2Z.inj_succ, !Z.pow_succ_r in * by lia. lia. }
      assert (Hd := digit_char_value (n mod 10) ltac:(pose proof (Z.mod_pos_bound n 10); lia)).
      exists (ds ++ [byte_of_ascii (digit_char (n mod 10))]).
      split; [by rewrite Hds, to_bytes_String, <- app_assoc|].
      split; [by destruct ds|].
      split; [apply Forall_app; split; [done|repeat constructor; by rewrite Hd]|].
      intros rest a0 b. rewrite <- app_assoc, Hread. simpl. rewrite Hd. f_equal.
      rewrite length_app, Nat2Z.inj_add. simpl (Z.of_nat (length [_])).
      rewrite Z.pow_add_r by lia.
      pose proof (Z.div_mod n 10 ltac:(lia)). lia.
Qed.

Lemma str_int_read n :
  0 <= n ->
  exists ds, to_bytes (str_int n) = ds /\ ds <> []
    /\ Forall (fun b => is_Some (digit_value b)) ds
    /\ int_digits ds 0 false = Some n.
Proof.
  intros Hn. unfold str_int. rewrite (proj2 (Z.ltb_ge n 0)) by lia.
  unfold str_nonneg.
  destruct (str_digits_read (Z.to_nat (Z.log2 n)) n EmptyString) as (ds & Hds & Hne & Hall & Hread).
  { split; [done|]. rewrite Nat2Z.inj_succ, Z2Nat.id by apply Z.log2_nonneg.
    destruct (decide (n = 0)) as [->|Hnz]; [done|].
    apply Z.log2_spec. lia. }
  exists ds. change (to_bytes EmptyString) with (@nil byte) in Hds.
  rewrite app_nil_r in Hds. split; [done|]. split; [done|]. split; [done|].
  specialize (Hread [] 0 false). rewrite app_nil_r in Hread. rewrite Hread.
  cbn [int_digits]. by rewrite Z.mul_0_l, Z.add_0_l.
Qed.

(** * Stripping, reading integers, packing, slicing *)

Section StripFacts.
Context {A : Type}.

Lemma lstrip_none (space : A -> bool) (s : list A) :
  Forall (fun c => space c = false) s -> lstrip space s = s.
Proof. destruct 1 as [|c s Hc _]; simpl; [done|]. by rewrite Hc. Qed.

Lemma strip_none (space : A -> bool) (s : list A) :
  Forall (fun c => space c = false) s -> strip space s = s.
Proof.
  intros Hs. unfold strip, rstrip. rewrite (lstrip_none _ _ Hs).
  rewrite lstrip_none; [apply rev_involutive|]. by apply List.Forall_rev.
Qed.

End StripFacts.

Lemma digit_not_space b : is_Some (digit_value b) -> isspace_byte b = false.
Proof.
  intros [d Hd]. apply digit_value_code in Hd as [Hc Hd].
  unfold isspace_byte. rewrite Hc.
  repeat match goal with
  | |- context [?x <=? ?y] => destruct (Z.leb_spec x y)
  | |- context [?x =? ?y] => destruct (Z.eqb_spec x y)
  end; simpl; try done; lia.
Qed.

Lemma digit_ne b c :
  is_Some (digit_value b) -> (byte_code c < 48 \/ 57 < byte_code c) -> b <> c.
Proof.
  intros [d Hd] Hc ->. apply digit_value_code in Hd. lia.
Qed.

Lemma int_of_bytes_digits ds n :
  ds <> [] -> Forall (fun b => is_Some (digit_value b)) ds ->
  int_digits ds 0 false = Some n -> int_of_bytes ds = Ok n.
Proof.
  intros Hne Hall Hread. unfold int_of_bytes.
  rewrite strip_none.
  2:{ eapply Forall_impl; [exact Hall|]. apply digit_not_space. }
  destruct ds as [|c ds]; [done|].
  apply Forall_cons in Hall as [Hc _].
  rewrite !bool_decide_eq_false_2, Hread; [done| |].
  - apply digit_ne; [done|]. by left.
  - apply digit_ne; [done|]. by left.
Qed.

(** [int(str(n))] is [n] *)
Lemma int_of_bytes_str_int n :
  0 <= n -> int_of_bytes (to_bytes (str_int n)) = Ok n.
Proof.
  intros Hn. destruct (str_int_read n Hn) as (ds & -> & Hne & Hall & Hread).
  by apply int_of_bytes_digits.
Qed.

(** *** [struct.pack] and [struct.unpack] *)

Lemma byte_code_of_Z z : byte_code (byte_of_Z z) = z mod 256.
Proof.
  unfold byte_of_Z, byte_code.
  assert (Hb : 0 <= z mod 256 < 256) by (apply Z.mod_pos_bound; lia).
  destruct (Byte.of_N (Z.to_N (z mod 256))) as [b|] eqn:Hof.
  - apply Byte.to_of_N in Hof. rewrite Hof. lia.
  - apply Byte.of_N_None_iff in Hof. lia.
Qed.

Lemma struct_pack_length n packed :
  struct_pack_i n = Ok packed -> length packed = 4%nat.
Proof.
  unfold struct_pack_i. destruct (_ && _); [|done]. by intros [= <-].
Qed.

Lemma struct_unpack_pack n packed :
  struct_pack_i n = Ok packed -> struct_unpack_i packed = Ok n.
Proof.
  unfold struct_pack_i. destruct (_ && _) eqn:Hr; [|done]. intros [= <-].
  apply andb_true_iff in Hr as [Hlo Hhi].
  apply Z.leb_le in Hlo. apply Z.ltb_lt in Hhi.
  unfold struct_unpack_i. rewrite !byte_code_of_Z.
  rewrite !Z.shiftr_div_pow2, !Z.shiftl_mul_pow2 by lia.
  set (u := n mod 2 ^ 32).
  assert (Hu : 0 <= u < 2 ^ 32) by (apply Z.mod_pos_bound; lia).
  assert (Hsum : u mod 256 + u / 2 ^ 8 mod 256 * 2 ^ 8
                 + u / 2 ^ 16 mod 256 * 2 ^ 16 + u / 2 ^ 24 mod 256 * 2 ^ 24 = u).
  { change (2 ^ 8) with 256. change (2 ^ 16) with (256 * 256).
    change (2 ^ 24) with (256 * 256 * 256).
    rewrite <- !Z.div_div by lia.
    pose proof (Z.div_mod u 256 ltac:(lia)).
    pose proof (Z.div_mod (u / 256) 256 ltac:(lia)).
    pose proof (Z.div_mod (u / 256 / 256) 256 ltac:(lia)).
    assert (u / 256 / 256 / 256 < 256).
    { rewrite !Z.div_div by lia. apply Z.div_lt_upper_bound; lia. }
    assert (0 <= u / 256 / 256 / 256) by (repeat apply Z.div_pos; lia).
    rewrite (Z.mod_small (u / 256 / 256 / 256)) by lia. lia. }
  rewrite Hsum. f_equal. subst u.
  destruct (decide (0 <= n)) as [Hpos|Hneg].
  - rewrite Z.mod_small by lia. by rewrite (proj2 (Z.ltb_lt _ _)).
  - assert (Hm : n mod 2 ^ 32 = n + 2 ^ 32).
    { symmetry. apply (Z.mod_unique n (2 ^ 32) (-1)); lia. }
    rewrite Hm. rewrite (proj2 (Z.ltb_ge _ _)) by lia. lia.
Qed.

(** *** Slices of a concatenation *)

Section SliceFacts.
Context {A : Type}.
Implicit Types a b : list A.

Lemma slice_to_app a b :
  slice_to (a ++ b) (Z.of_nat (length a)) = a.
Proof.
  unfold slice_to, clamp_index. rewrite length_app.
  rewrite (proj2 (Z.ltb_ge _ _)) by lia.
  rewrite Z.min_l by lia. rewrite Nat2Z.id.
  by rewrite firstn_app, Nat.sub_diag, firstn_all, firstn_O, app_nil_r.
Qed.

Lemma slice_from_app a b :
  slice_from (a ++ b) (Z.of_nat (length a)) = b.
Proof.
  unfold slice_from, clamp_index. rewrite length_app.
  rewrite (proj2 (Z.ltb_ge _ _)) by lia.
  rewrite Z.min_l by lia. rewrite Nat2Z.id.
  by rewrite skipn_app, Nat.sub_diag, skipn_all, skipn_O.
Qed.

Lemma slice_app_mid a b c :
  slice (a ++ b ++ c) (Z.of_nat (length a)) (Z.of_nat (length a) + Z.of_nat (length b)) = b.
Proof.
  unfold slice, clamp_index. rewrite !length_app.
  rewrite !(proj2 (Z.ltb_ge _ _)) by lia.
  rewrite !Z.min_l by lia.
  replace (Z.to_nat (_ + _ - _)) with (length b) by lia. rewrite Nat2Z.id.
  rewrite skipn_app, Nat.sub_diag, skipn_all, skipn_O. simpl.
  by rewrite firstn_app, Nat.sub_diag, firstn_all, firstn_O, app_nil_r.
Qed.

End SliceFacts.

(** * The envelope: headers, boundaries and parts *)

Import WinRMEncryption Envelope.

Lemma part_header_split protocol msg_length :
  part_header protocol msg_length
  = header_prefix protocol ++ to_bytes msg_length ++ CRLF_BYTES.
Proof.
  unfold part_header, header_prefix, CRLF_BYTES.
  rewrite !to_bytes_app. by rewrite <- !app_assoc.
Qed.

Lemma part_head_bytes protocol msg_length :
  to_bytes (part_head protocol msg_length)
  = PART_BOUNDARY ++ part_header protocol msg_length
    ++ PART_BOUNDARY ++ OCTET_STREAM.
Proof.
  unfold part_head, str_join, part_header, PART_BOUNDARY, OCTET_STREAM.
  cbn [String.concat]. rewrite !to_bytes_app. by rewrite <- !app_assoc.
Qed.

Lemma boundary_facts :
  PART_BOUNDARY = BOUNDARY_BYTES ++ CRLF_BYTES
  /\ END_BOUNDARY = BOUNDARY_BYTES ++ to_bytes ("--" +:+ CRLF)
  /\ no_overlap PART_BOUNDARY BOUNDARY_BYTES = true
  /\ all_mismatch PART_BOUNDARY OCTET_STREAM = true
  /\ all_mismatch PART_BOUNDARY END_BOUNDARY = true
  /\ all_mismatch PART_BOUNDARY CRLF_BYTES = true
  /\ length END_BOUNDARY = 24%nat
  /\ mismatch (rev END_BOUNDARY) (rev OCTET_STREAM) = true
  /\ no_overlap (rev END_BOUNDARY) (rev OCTET_STREAM) = true.
Proof. vm_compute. repeat split. Qed.

Lemma header_prefix_facts protocol :
  known_protocol protocol ->
  all_mismatch PART_BOUNDARY (header_prefix protocol) = true
  /\ exists c body,
       header_prefix protocol = "009"%byte :: (c :: body) ++ LENGTH_FIELD
       /\ isspace_byte c = false
       /\ all_mismatch LENGTH_FIELD (c :: body) = true.
Proof.
  intros [-> | ->].
  - split; [by vm_compute|].
    exists "C"%byte, (tl (firstn (length (header_prefix CREDSSP) - 8) (tl (header_prefix CREDSSP)))).
    vm_compute. repeat split.
  - split; [by vm_compute|].
    exists "C"%byte, (tl (firstn (length (header_prefix SPNEGO) - 8) (tl (header_prefix SPNEGO)))).
    vm_compute. repeat split.
Qed.

Lemma digits_not_byte ds c :
  Forall (fun b => is_Some (digit_value b)) ds ->
  (byte_code c < 48 \/ 57 < byte_code c) ->
  Forall (fun b => b <> c) ds.
Proof.
  intros Hall Hc. eapply Forall_impl; [exact Hall|].
  intros b Hb. by apply digit_ne.
Qed.

Lemma header_no_match protocol n rest :
  known_protocol protocol -> 0 <= n ->
  no_match_in PART_BOUNDARY (part_header protocol (str_int n)) rest.
Proof.
  intros Hp Hn. rewrite part_header_split.
  destruct (header_prefix_facts protocol Hp) as [Hpre _].
  destruct (str_int_read n Hn) as (ds & -> & _ & Hall & _).
  destruct boundary_facts as (_ & _ & _ & _ & _ & Hcrlf & _).
  apply no_match_in_app; [by apply all_mismatch_no_match|].
  apply no_match_in_app; [|by apply all_mismatch_no_match].
  change PART_BOUNDARY with ("-"%byte :: tl PART_BOUNDARY).
  apply no_match_in_head, digits_not_byte; [done|]. left. by vm_compute.
Qed.

Lemma part_header_nonempty protocol msg_length :
  known_protocol protocol -> part_header protocol msg_length <> [].
Proof.
  intros Hp. rewrite part_header_split.
  destruct (header_prefix_facts protocol Hp) as (_ & c & body & -> & _). done.
Qed.

Lemma header_expected_length protocol n :
  known_protocol protocol -> 0 <= n ->
  expected_length_of (strip isspace_byte (part_header protocol (str_int n)))
  = Ok n.
Proof.
  intros Hp Hn. rewrite part_header_split.
  destruct (header_prefix_facts protocol Hp) as (_ & c & body & -> & Hc & Hbody).
  destruct (str_int_read n Hn) as (ds & -> & Hne & Hall & Hread).
  assert (Hstrip : strip isspace_byte
            (("009"%byte :: (c :: body) ++ LENGTH_FIELD) ++ ds ++ CRLF_BYTES)
          = (c :: body) ++ LENGTH_FIELD ++ ds).
  { unfold strip. cbn [app lstrip]. change (isspace_byte "009") with true.
    cbv iota. rewrite Hc.
    destruct (exists_last Hne) as (ds' & d & ->).
    apply Forall_app in Hall as [_ Hd]. apply Forall_cons in Hd as [Hd _].
    change CRLF_BYTES with (["013"%byte] ++ ["010"%byte]).
    replace (c :: (body ++ LENGTH_FIELD) ++ (ds' ++ [d]) ++ ["013"%byte] ++ ["010"%byte])
      with (((((c :: body) ++ LENGTH_FIELD ++ ds') ++ [d]) ++ ["013"%byte]) ++ ["010"%byte]).
    2:{ simpl. by rewrite <- !app_assoc. }
    rewrite rstrip_drop by done. rewrite rstrip_drop by done.
    rewrite rstrip_keep by (by apply digit_not_space).
    by rewrite <- !app_assoc. }
  rewrite Hstrip. unfold expected_length_of, split.
  rewrite split_from_no_match by (by apply all_mismatch_no_match).
  rewrite split_from_sep by done.
  rewrite split_from_end.
  - cbn [nth_error app rev]. by apply int_of_bytes_digits.
  - change LENGTH_FIELD with ("L"%byte :: tl LENGTH_FIELD).
    apply no_match_in_head, digits_not_byte; [done|]. right. by vm_compute.
Qed.

(** *** What the mechanism's output has to avoid *)

Lemma blob_no_match blob rest :
  contains PART_BOUNDARY blob = false ->
  no_match_in PART_BOUNDARY blob (BOUNDARY_BYTES ++ rest).
Proof.
  intros Hb. apply contains_no_match; [done|]. apply boundary_facts.
Qed.

Lemma endswith_marker_blob blob :
  endswith END_BOUNDARY blob = false ->
  endswith END_BOUNDARY (OCTET_STREAM ++ blob) = false.
Proof.
  intros Hb. unfold endswith in *. rewrite rev_app_distr.
  destruct boundary_facts as (_ & _ & _ & _ & _ & _ & Hlen & Hm & Ho).
  destruct (startswith (rev END_BOUNDARY) (rev blob ++ rev OCTET_STREAM)) eqn:Hs;
    [exfalso|done].
  destruct (decide (length (rev END_BOUNDARY) <= length (rev blob))%nat) as [Hle|Hgt].
  - rewrite startswith_long in Hs by done. congruence.
  - destruct (rev blob) as [|c rb] eqn:Hrb.
    + simpl in Hs.
      apply (mismatch_startswith _ _ []) in Hm. rewrite app_nil_r in Hm. congruence.
    + apply startswith_skip in Hs; [|lia].
      unfold no_overlap in Ho. rewrite forallb_forall in Ho.
      assert (Hin : In (length (c :: rb)) (seq 1 (Nat.pred (length (rev END_BOUNDARY))))).
      { apply in_seq. simpl in *. lia. }
      apply Ho in Hin. apply (mismatch_startswith _ _ []) in Hin.
      rewrite app_nil_r in Hin. congruence.
Qed.

Lemma wrapped_data_of_final blob :
  contains OCTET_STREAM blob = false ->
  wrapped_data_of (OCTET_STREAM ++ blob ++ END_BOUNDARY) = blob.
Proof.
  intros Hb. unfold wrapped_data_of.
  rewrite (app_assoc OCTET_STREAM blob END_BOUNDARY), endswith_app.
  replace (Z.of_nat (length ((OCTET_STREAM ++ blob) ++ END_BOUNDARY)) - 24)
    with (Z.of_nat (length (OCTET_STREAM ++ blob))).
  2:{ rewrite (length_app _ END_BOUNDARY).
      destruct boundary_facts as (_ & _ & _ & _ & _ & _ & -> & _). lia. }
  rewrite slice_to_app, replace_old by done.
  by apply replace_absent.
Qed.

Lemma wrapped_data_of_inner blob :
  contains OCTET_STREAM blob = false ->
  endswith END_BOUNDARY blob = false ->
  wrapped_data_of (OCTET_STREAM ++ blob) = blob.
Proof.
  intros Hb He. unfold wrapped_data_of.
  rewrite (endswith_marker_blob _ He), replace_old by done.
  by apply replace_absent.
Qed.

(** *** The parts of an envelope *)

Lemma frames_cons protocol cb cbs :
  frames protocol (cb :: cbs)
  = PART_BOUNDARY ++ part_header protocol (str_int (Z.of_nat (length cb.1)))
    ++ PART_BOUNDARY ++ OCTET_STREAM ++ cb.2 ++ frames protocol cbs.
Proof. unfold frames, frame. simpl. by rewrite <- !app_assoc. Qed.

Lemma split_frames protocol cbs : forall cur,
  known_protocol protocol -> cbs <> [] -> blobs_safe cbs ->
  split_from PART_BOUNDARY O cur (frames protocol cbs ++ END_BOUNDARY)
  = rev cur :: payload_parts protocol cbs.
Proof.
  destruct boundary_facts as (HPB & HEB & _ & Hoct & Hend & _).
  induction cbs as [|cb cbs IH]; intros cur Hp Hne Hsafe; [done|].
  rewrite frames_cons, <- !app_assoc.
  rewrite split_from_sep by done.
  rewrite split_from_no_match by (apply header_no_match; [done|lia]).
  rewrite app_nil_r, split_from_sep by done. rewrite rev_involutive.
  destruct cbs as [|cb' cbs].
  - destruct Hsafe as [Hb _]. cbn [payload_parts]. do 2 f_equal.
    change (frames protocol []) with (@nil byte). rewrite app_nil_l.
    rewrite split_from_end; [done|].
    rewrite app_assoc.
    apply no_match_in_app; [|by apply all_mismatch_no_match].
    apply no_match_in_app; [by apply all_mismatch_no_match|].
    rewrite HEB, <- app_assoc. by apply blob_no_match.
  - destruct Hsafe as [(Hb & _ & _) Hsafe].
    change (payload_parts protocol (cb :: cb' :: cbs))
      with (part_header protocol (str_int (Z.of_nat (length cb.1)))
            :: (OCTET_STREAM ++ cb.2) :: payload_parts protocol (cb' :: cbs)).
    f_equal. f_equal.
    rewrite (app_assoc OCTET_STREAM).
    rewrite split_from_no_match.
    + rewrite app_nil_r, IH by done. by rewrite rev_involutive.
    + apply no_match_in_app; [by apply all_mismatch_no_match|].
      rewrite frames_cons, HPB, <- !app_assoc. by apply blob_no_match.
Qed.

Lemma payload_parts_nonempty protocol cbs :
  known_protocol protocol ->
  filter_nonempty (payload_parts protocol cbs) = payload_parts protocol cbs.
Proof.
  intros Hp. induction cbs as [|cb cbs IH]; [done|].
  assert (Hh := part_header_nonempty protocol (str_int (Z.of_nat (length cb.1))) Hp).
  destruct cbs as [|cb' cbs].
  - cbn [payload_parts]. unfold filter_nonempty. cbn [List.filter].
    destruct (part_header _ _); [done|]. done.
  - change (payload_parts protocol (cb :: cb' :: cbs))
      with (part_header protocol (str_int (Z.of_nat (length cb.1)))
            :: (OCTET_STREAM ++ cb.2) :: payload_parts protocol (cb' :: cbs)).
    unfold filter_nonempty in *. cbn [List.filter].
    destruct (part_header _ _); [done|]. by rewrite IH.
Qed.

Lemma split_envelope protocol cbs :
  known_protocol protocol -> cbs <> [] -> blobs_safe cbs ->
  filter_nonempty (split PART_BOUNDARY (frames protocol cbs ++ END_BOUNDARY))
  = payload_parts protocol cbs.
Proof.
  intros Hp Hne Hsafe. unfold split. rewrite split_frames by done.
  change (filter_nonempty (rev [] :: payload_parts protocol cbs))
    with (filter_nonempty (payload_parts protocol cbs)).
  by apply payload_parts_nonempty.
Qed.

(** * Wrapping and unwrapping, chunk by chunk *)


Lemma bind_Ok {A B : Type} (a : A) (k : A -> result B) : (Ok a ≫= k) = k a.
Proof. done. Qed.

Lemma bind_Raise {A B : Type} (e : exn) (k : A -> result B) :
  (Raise e ≫= k) = Raise e.
Proof. done. Qed.

Lemma bind_Ok_inv {A B : Type} (r : result A) (k : A -> result B) (b : B) :
  (r ≫= k) = Ok b -> exists a, r = Ok a /\ k a = Ok b.
Proof. destruct r as [a|e]; [|done]. intros Hk. by exists a. Qed.

(** *** The two mechanisms undo their own wrapping *)

Lemma spnego_roundtrip auth hostname data blob :
  context_inverts auth hostname ->
  _wrap_spnego auth data hostname = Ok blob ->
  _unwrap_spnego auth blob hostname = Ok data.
Proof.
  unfold context_inverts, _wrap_spnego, _unwrap_spnego, contexts_getitem.
  destruct (auth !! hostname) as [[c|c]|]; intros Hinv Hw; try done.
  rewrite bind_Ok in *.
  apply bind_Ok_inv in Hw as ([header wrapped] & Hwrap & Hw).
  apply bind_Ok_inv in Hw as (packed & Hpack & [= <-]).
  assert (Hlen := struct_pack_length _ _ Hpack).
  replace 4 with (Z.of_nat (length packed)) by lia.
  rewrite slice_to_app, (struct_unpack_pack _ _ Hpack), bind_Ok.
  rewrite slice_app_mid.
  replace (Z.of_nat (length packed) + Z.of_nat (length header))
    with (Z.of_nat (length (packed ++ header))) by (rewrite length_app; lia).
  rewrite app_assoc, slice_from_app. by apply Hinv.
Qed.

Lemma credssp_roundtrip auth hostname data blob :
  context_inverts auth hostname ->
  _wrap_credssp auth data hostname = Ok blob ->
  _unwrap_credssp auth blob hostname = Ok data.
Proof.
  unfold context_inverts, _wrap_credssp, _unwrap_credssp, contexts_getitem.
  destruct (auth !! hostname) as [[c|c]|]; intros Hinv Hw; try done.
  rewrite bind_Ok in *.
  apply bind_Ok_inv in Hw as (wrapped & Hwrap & Hw).
  apply bind_Ok_inv in Hw as (packed & Hpack & [= <-]).
  assert (Hlen := struct_pack_length _ _ Hpack).
  replace 4 with (Z.of_nat (length packed)) by lia.
  rewrite slice_from_app. by apply Hinv.
Qed.

Lemma mechanism_roundtrip auth protocol hostname data blob :
  context_inverts auth hostname ->
  _wrap (__init__ auth protocol) data hostname = Ok blob ->
  _unwrap (__init__ auth protocol) blob hostname = Ok data.
Proof.
  unfold __init__. destruct (bool_decide (protocol = SPNEGO)); simpl.
  - apply spnego_roundtrip.
  - apply credssp_roundtrip.
Qed.

Lemma protocol_init auth protocol : WinRMEncryption.protocol (__init__ auth protocol) = protocol.
Proof. unfold __init__. by destruct (bool_decide _). Qed.

(** *** Wrapping, chunk by chunk *)

Lemma _wrap_message_frame self chunk hostname :
  _wrap_message self chunk hostname
  = (blob ← _wrap self chunk hostname; Ok (frame (protocol self) chunk blob)).
Proof.
  unfold _wrap_message, frame. destruct (_wrap self chunk hostname); [|done].
  rewrite !bind_Ok, part_head_bytes. by rewrite <- !app_assoc.
Qed.

Lemma wrap_chunks_frames self hostname cbs : forall encrypted_msg,
  Forall (fun cb => _wrap self cb.1 hostname = Ok cb.2) cbs ->
  wrap_chunks self (map fst cbs) hostname encrypted_msg
  = Ok (encrypted_msg ++ frames (protocol self) cbs).
Proof.
  induction cbs as [|cb cbs IH]; intros acc Hall.
  - simpl. by rewrite app_nil_r.
  - apply Forall_cons in Hall as [Hcb Hall].
    cbn [map wrap_chunks]. rewrite _wrap_message_frame, Hcb, !bind_Ok.
    rewrite IH by done. unfold frames. simpl. by rewrite <- app_assoc.
Qed.

Lemma wrap_message_chunks self message hostname :
  wrap_message self message hostname
  = (encrypted_msg ← wrap_chunks self (message_chunks self message) hostname [];
     Ok (if bool_decide (protocol self = CREDSSP)
            && (Z.of_nat (length message) >? SIXTEEN_KB)
         then "multipart/x-multi-encrypted"%string
         else "multipart/encrypted"%string,
         encrypted_msg ++ END_BOUNDARY)).
Proof.
  unfold wrap_message, message_chunks.
  destruct (bool_decide _ && _); [done|].
  cbn [wrap_chunks]. by destruct (_wrap_message self message hostname).
Qed.

(** *** Unwrapping, part by part *)

Lemma unwrap_payload_parts self hostname cbs : forall message,
  known_protocol (protocol self) -> blobs_safe cbs ->
  Forall (fun cb => _unwrap self cb.2 hostname = Ok cb.1) cbs ->
  unwrap_parts self (payload_parts (protocol self) cbs) hostname message
  = Ok (message ++ concat (map fst cbs)).
Proof.
  induction cbs as [|cb cbs IH]; intros message Hp Hsafe Hall.
  - simpl. by rewrite app_nil_r.
  - apply Forall_cons in Hall as [Hcb Hall].
    destruct cbs as [|cb' cbs].
    + destruct Hsafe as [_ Hoct].
      cbn [payload_parts unwrap_parts].
      rewrite header_expected_length, bind_Ok by (done || lia).
      rewrite wrapped_data_of_final, Hcb, bind_Ok by done.
      rewrite Z.eqb_refl. simpl. by rewrite app_nil_r.
    + destruct Hsafe as [(_ & Hoct & Hend) Hsafe].
      change (payload_parts (protocol self) (cb :: cb' :: cbs))
        with (part_header (protocol self) (str_int (Z.of_nat (length cb.1)))
              :: (OCTET_STREAM ++ cb.2)
              :: payload_parts (protocol self) (cb' :: cbs)).
      cbn [unwrap_parts].
      rewrite header_expected_length, bind_Ok by (done || lia).
      rewrite wrapped_data_of_inner, Hcb, bind_Ok by done.
      rewrite Z.eqb_refl. cbn [negb]. rewrite IH by done.
      cbn [map concat]. by rewrite <- app_assoc.
Qed.

(** * Chunking *)


Section ChunkFacts.
Context {A : Type}.
Implicit Types s : list A.

Lemma firstn_then_firstn (a b : nat) s :
  firstn a s ++ firstn b (skipn a s) = firstn (a + b) s.
Proof.
  revert s; induction a as [|a IH]; intros s; [done|].
  destruct s as [|x s]; simpl; [by rewrite firstn_nil|]. by rewrite IH.
Qed.

Lemma slice_nonneg s lo hi :
  0 <= lo <= hi ->
  slice s lo hi = firstn (Z.to_nat (hi - lo)) (skipn (Z.to_nat lo) s).
Proof.
  intros Hlh. unfold slice, clamp_index.
  rewrite !(proj2 (Z.ltb_ge _ _)) by lia.
  destruct (decide (Z.of_nat (length s) <= lo)) as [Hout|Hin].
  - rewrite !skipn_all2 by lia. by rewrite !firstn_nil.
  - rewrite (Z.min_l lo) by lia.
    destruct (decide (hi <= Z.of_nat (length s))) as [Hh|Hh].
    + by rewrite Z.min_l by lia.
    + rewrite Z.min_r by lia.
      rewrite !firstn_all2; [done| |]; rewrite length_skipn; lia.
Qed.

Lemma concat_slices s (size : Z) (n : nat) :
  0 < size ->
  concat (map (fun i => slice s i (i + size))
              (map (fun k => 0 + Z.of_nat k * size) (seq 0 n)))
  = firstn (n * Z.to_nat size) s.
Proof.
  intros Hsize. induction n as [|n IH]; [done|].
  rewrite seq_S, !map_app, concat_app, IH. cbn [map concat Nat.add].
  rewrite app_nil_r, slice_nonneg by lia.
  replace (Z.to_nat (0 + Z.of_nat n * size)) with (n * Z.to_nat size)%nat by lia.
  replace (Z.to_nat (0 + Z.of_nat n * size + size - (0 + Z.of_nat n * size)))
    with (Z.to_nat size) by lia.
  rewrite firstn_then_firstn. f_equal. lia.
Qed.

Lemma concat_range_slices s (size : Z) :
  0 < size ->
  concat (map (fun i => slice s i (i + size))
              (range 0 (Z.of_nat (length s)) size)) = s.
Proof.
  intros Hsize. unfold range. rewrite concat_slices by done.
  apply firstn_all2.
  set (len := Z.of_nat (length s)).
  assert (Hq : len <= (len - 0 + size - 1) / size * size).
  { pose proof (Z.div_mod (len - 0 + size - 1) size ltac:(lia)).
    pose proof (Z.mod_pos_bound (len - 0 + size - 1) size Hsize). lia. }
  assert (0 <= (len - 0 + size - 1) / size) by (apply Z.div_pos; lia).
  nia.
Qed.

End ChunkFacts.

Lemma concat_message_chunks self message :
  concat (message_chunks self message) = message.
Proof.
  unfold message_chunks. destruct (_ && _).
  - by apply concat_range_slices.
  - simpl. by rewrite app_nil_r.
Qed.

Lemma message_chunks_nonempty self message : message_chunks self message <> [].
Proof.
  unfold message_chunks. destruct (_ && _) eqn:Hc; [|done].
  apply andb_true_iff in Hc as [_ Hlen]. apply Z.gtb_lt in Hlen.
  unfold range, SIXTEEN_KB in *.
  assert (Hq : 1 <= (Z.of_nat (length message) - 0 + 16384 - 1) / 16384).
  { apply Z.div_le_lower_bound; lia. }
  destruct (Z.to_nat _) eqn:Hn; [lia|done].
Qed.

(** safe chunks come with their wrapped data *)
Lemma chunks_safe_blobs self hostname chunks :
  chunks_safe self hostname chunks ->
  exists cbs, map fst cbs = chunks
    /\ Forall (fun cb => _wrap self cb.1 hostname = Ok cb.2) cbs
    /\ blobs_safe cbs.
Proof.
  induction chunks as [|chunk chunks IH]; intros Hsafe.
  - by exists [].
  - destruct chunks as [|chunk' chunks].
    + destruct Hsafe as (blob & Hw & Hb & Ho & _).
      exists [(chunk, blob)]. repeat split; [by constructor|done..].
    + destruct Hsafe as [(blob & Hw & Hb & Ho & He) Hsafe].
      destruct (IH Hsafe) as (cbs & Hmap & Hall & Hbs).
      exists ((chunk, blob) :: cbs). split; [by rewrite <- Hmap|].
      split; [by constructor|].
      destruct cbs as [|cb cbs]; [done|].
      split; [|done]. split; [done|]. split; [done|]. by apply He.
Qed.

(** * The framer: round trip, length check, chunking, marker removal *)

Import WinRMEncryption Envelope TrailerSpec.


(** C1 (as amended). For both mechanisms, when the registered context's
    unwrap undoes its wrap and the mechanism wraps every chunk of the
    payload into data that contains neither the boundary line nor the
    octet-stream marker (and, for a chunk that is not the last, does not end
    in the end boundary), [wrap_message] returns an envelope and
    [unwrap_message] of that envelope returns exactly the payload. *)
Theorem wrap_unwrap_roundtrip auth protocol hostname payload :
  known_protocol protocol ->
  context_inverts auth hostname ->
  chunks_safe (__init__ auth protocol) hostname
              (message_chunks (__init__ auth protocol) payload) ->
  exists content_type framed,
    wrap_message (__init__ auth protocol) payload hostname
    = Ok (content_type, framed)
    /\ unwrap_message (__init__ auth protocol) framed hostname = Ok payload.
Proof.
  intros Hp Hinv Hsafe.
  destruct (chunks_safe_blobs _ _ _ Hsafe) as (cbs & Hmap & Hwrap & Hblobs).
  assert (Hne : cbs <> []).
  { intros ->. by apply (message_chunks_nonempty (__init__ auth protocol) payload). }
  rewrite wrap_message_chunks, <- Hmap, wrap_chunks_frames, bind_Ok by done.
  eexists _, _. split; [reflexivity|].
  rewrite protocol_init, app_nil_l. unfold unwrap_message.
  rewrite split_envelope by done.
  rewrite <- (protocol_init auth protocol) at 2.
  rewrite unwrap_payload_parts.
  - by rewrite app_nil_l, Hmap, concat_message_chunks.
  - by rewrite protocol_init.
  - done.
  - eapply Forall_impl; [exact Hwrap|].
    intros cb Hcb. by apply mechanism_roundtrip.
Qed.

Lemma wrap_unwrap_roundtrip_witness :
  (exists content_type framed,
     wrap_message (__init__ echo_auth CREDSSP) (to_bytes "hello") "server"
     = Ok (content_type, framed)
     /\ unwrap_message (__init__ echo_auth CREDSSP) framed "server"
        = Ok (to_bytes "hello"))
  /\ (exists content_type framed,
        wrap_message (__init__ signing_auth SPNEGO) (to_bytes "hello") "server"
        = Ok (content_type, framed)
        /\ unwrap_message (__init__ signing_auth SPNEGO) framed "server"
           = Ok (to_bytes "hello")).
Proof.
  split.
  - apply wrap_unwrap_roundtrip.
    + by left.
    + vm_compute. by intros data wrapped [= ->].
    + eexists. vm_compute. repeat split.
  - apply wrap_unwrap_roundtrip.
    + by right.
    + vm_compute. by intros data header wrapped [= _ ->].
    + eexists. vm_compute. repeat split.
Defined.

(** A part that is not the last and whose wrapped data ends in the end
    boundary loses those 24 bytes before the mechanism sees it. *)
Lemma inner_part_end_boundary_cut data :
  contains OCTET_STREAM data = false ->
  wrapped_data_of (OCTET_STREAM ++ (data ++ END_BOUNDARY)) = data.
Proof. apply wrapped_data_of_final. Qed.

(** C1 as stated fails: the echo context's unwrap undoes its wrap, yet a
    payload that is the boundary line, or the octet-stream marker, does not
    come back. *)
Lemma roundtrip_counterexample :
  context_inverts echo_auth "server"
  /\ (exists content_type framed,
        wrap_message (__init__ echo_auth CREDSSP) PART_BOUNDARY "server"
        = Ok (content_type, framed)
        /\ unwrap_message (__init__ echo_auth CREDSSP) framed "server"
           <> Ok PART_BOUNDARY)
  /\ (exists content_type framed,
        wrap_message (__init__ echo_auth CREDSSP) OCTET_STREAM "server"
        = Ok (content_type, framed)
        /\ unwrap_message (__init__ echo_auth CREDSSP) framed "server"
           <> Ok OCTET_STREAM).
Proof.
  split; [vm_compute; by intros data wrapped [= ->]|].
  split; eexists _, _; (split; [vm_compute; reflexivity|]); vm_compute; discriminate.
Qed.

Lemma list_pair_ind {A : Type} (P : list A -> Prop) :
  P [] -> (forall x, P [x]) -> (forall x y l, P l -> P (x :: y :: l)) ->
  forall l, P l.
Proof.
  intros Hnil Hone Hstep l.
  assert (Hboth : P l /\ forall x, P (x :: l)).
  { induction l as [|y l [IH1 IH2]]; [by split|].
    split; [apply IH2|]. intros x. by apply Hstep. }
  apply Hboth.
Qed.

Lemma unwrap_parts_check self hostname parts : forall chunks message,
  recover_parts self parts hostname = Ok chunks ->
  unwrap_parts self parts hostname message = check_chunks chunks message.
Proof.
  induction parts as [| part | part_i payload parts IH] using list_pair_ind;
    intros chunks message Hrec.
  - by injection Hrec as <-.
  - done.
  - cbn [recover_parts] in Hrec. cbn [unwrap_parts].
    apply bind_Ok_inv in Hrec as (expected & -> & Hrec).
    apply bind_Ok_inv in Hrec as (unwrapped & -> & Hrec).
    apply bind_Ok_inv in Hrec as (recovered & Hrest & [= <-]).
    rewrite !bind_Ok. cbn [check_chunks].
    destruct (negb _); [done|]. by apply IH.
Qed.

Lemma check_chunks_agree chunks : forall message,
  Forall lengths_agree chunks ->
  check_chunks chunks message = Ok (message ++ concat (map snd chunks)).
Proof.
  induction chunks as [|[expected data] chunks IH]; intros message Hall.
  - simpl. by rewrite app_nil_r.
  - apply Forall_cons in Hall as [Hc Hall]. unfold lengths_agree in Hc.
    simpl in Hc. cbn [check_chunks]. rewrite Hc, Z.eqb_refl. cbn [negb].
    rewrite IH by done. cbn [map concat snd]. by rewrite <- app_assoc.
Qed.

Lemma check_chunks_first_mismatch before chunk after : forall message,
  Forall lengths_agree before -> ~ lengths_agree chunk ->
  check_chunks (before ++ chunk :: after) message
  = Raise (length_mismatch (Z.of_nat (length chunk.2)) chunk.1).
Proof.
  induction before as [|[expected data] before IH]; intros message Hall Hbad.
  - destruct chunk as [expected data]. unfold lengths_agree in Hbad.
    simpl in *. by rewrite (proj2 (Z.eqb_neq _ _) Hbad).
  - apply Forall_cons in Hall as [Hc Hall]. unfold lengths_agree in Hc.
    simpl in Hc. cbn [app check_chunks]. rewrite Hc, Z.eqb_refl. cbn [negb].
    by apply IH.
Qed.

Lemma lengths_agree_dec chunk : Decision (lengths_agree chunk).
Proof. unfold lengths_agree. apply _. Qed.

Lemma chunks_agree_or_not chunks :
  Forall lengths_agree chunks
  \/ exists before chunk after,
       chunks = before ++ chunk :: after
       /\ Forall lengths_agree before /\ ~ lengths_agree chunk.
Proof.
  induction chunks as [|c chunks IH]; [by left|].
  destruct (lengths_agree_dec c) as [Hc|Hc].
  - destruct IH as [Hall | (before & chunk & after & -> & Hb & Hbad)].
    + left. by constructor.
    + right. exists (c :: before), chunk, after. repeat split; [by constructor|done].
  - right. by exists [], c, chunks.
Qed.

(** *** What the error of the length check holds *)

Lemma int_of_bytes_str_int_all z : int_of_bytes (to_bytes (str_int z)) = Ok z.
Proof.
  destruct (decide (0 <= z)) as [Hz|Hz]; [by apply int_of_bytes_str_int|].
  destruct (str_int_read (- z)) as (ds & Hds & Hne & Hall & Hread); [lia|].
  unfold str_int in *.
  rewrite (proj2 (Z.ltb_lt z 0)) by lia.
  rewrite (proj2 (Z.ltb_ge (- z) 0)) in Hds by lia.
  rewrite to_bytes_String, Hds. change (byte_of_ascii "-") with "-"%byte.
  unfold int_of_bytes. rewrite strip_none.
  - rewrite bool_decide_eq_true_2, Hread by done. simpl. f_equal. lia.
  - constructor; [done|]. eapply Forall_impl; [exact Hall|]. apply digit_not_space.
Qed.

Lemma str_int_no_space z : ~ In " "%byte (to_bytes (str_int z)).
Proof.
  assert (Hdigits : forall n, 0 <= n -> ~ In " "%byte (to_bytes (str_int n))).
  { intros n Hn. destruct (str_int_read n Hn) as (ds & -> & _ & Hall & _).
    intros Hin. apply (proj1 (List.Forall_forall _ _) Hall) in Hin.
    by destruct Hin. }
  destruct (decide (0 <= z)) as [Hz|Hz]; [by apply Hdigits|].
  specialize (Hdigits (- z) ltac:(lia)). unfold str_int in *.
  rewrite (proj2 (Z.ltb_lt z 0)) by lia.
  rewrite (proj2 (Z.ltb_ge (- z) 0)) in Hdigits by lia.
  rewrite to_bytes_String. intros [Hin|Hin]; [done|by apply Hdigits].
Qed.

Lemma app_separator_inj {A : Type} (sep : A) (a a' r r' : list A) :
  ~ In sep a -> ~ In sep a' -> a ++ sep :: r = a' ++ sep :: r' ->
  a = a' /\ r = r'.
Proof.
  revert a'. induction a as [|x a IH]; intros [|x' a'] Ha Ha' Heq; simpl in *.
  - by injection Heq as ->.
  - injection Heq as <- _. destruct Ha'. by left.
  - injection Heq as -> _. destruct Ha. by left.
  - injection Heq as -> Heq. destruct (IH a') as [-> ->]; [tauto..|done|done].
Qed.

(** the text of the length-check error tells both lengths *)
Lemma mismatch_text_inj (head : string) actual expected actual' expected' :
  (head +:+ str_int actual +:+ " != expected: " +:+ str_int expected)%string
  = (head +:+ str_int actual' +:+ " != expected: " +:+ str_int expected')%string ->
  actual = actual' /\ expected = expected'.
Proof.
  intros Heq. apply (f_equal to_bytes) in Heq. rewrite !to_bytes_app in Heq.
  apply app_inv_head in Heq.
  change (to_bytes " != expected: ")
    with (" "%byte :: to_bytes "!= expected: ") in Heq.
  cbn [app] in Heq.
  apply app_separator_inj in Heq as [Ha He]; [|apply str_int_no_space..].
  apply app_inv_head in He.
  pose proof (int_of_bytes_str_int_all actual) as H1.
  pose proof (int_of_bytes_str_int_all expected) as H2.
  rewrite Ha in H1. rewrite He in H2.
  rewrite int_of_bytes_str_int_all in H1, H2. by injection H1 as ->; injection H2 as ->.
Qed.

(** C4. For an envelope whose parts pair up and can each be read and
    unwrapped, [unwrap_message] raises the [WinRMError] of the length
    check, whose text states the actual and the expected length of the
    first chunk that disagrees (and tells them apart from any other pair),
    exactly when the recovered length of some chunk differs from the length
    its header declares; when all agree it returns the recovered chunks
    joined in header order. *)
Theorem unwrap_length_check self message hostname chunks :
  let mismatch := fun actual expected : Z =>
    WinRMError
      ("The encrypted length from the server does not match the expected length, decryption failed, actual: "
       +:+ str_int actual +:+ " != expected: " +:+ str_int expected) in
  recover self message hostname = Ok chunks ->
  (Forall lengths_agree chunks ->
   unwrap_message self message hostname = Ok (concat (map snd chunks)))
  /\ (forall before chunk after,
        chunks = before ++ chunk :: after ->
        Forall lengths_agree before -> ~ lengths_agree chunk ->
        unwrap_message self message hostname
        = Raise (mismatch (Z.of_nat (length chunk.2)) chunk.1))
  /\ ((exists actual expected,
         unwrap_message self message hostname
         = Raise (mismatch actual expected))
      <-> Exists (fun chunk => ~ lengths_agree chunk) chunks)
  /\ (forall actual expected actual' expected',
        mismatch actual expected = mismatch actual' expected' ->
        actual = actual' /\ expected = expected').
Proof.
  intros mismatch Hrec. unfold recover in Hrec. unfold unwrap_message.
  assert (Hm : forall actual expected,
            length_mismatch actual expected = mismatch actual expected) by done.
  rewrite (unwrap_parts_check _ _ _ _ [] Hrec).
  split; [|split; [|split]].
  - intros Hall. by rewrite check_chunks_agree.
  - intros before chunk after -> Hb Hbad. rewrite <- Hm.
    by apply check_chunks_first_mismatch.
  - split.
    + intros (actual & expected & Hraise).
      destruct (chunks_agree_or_not chunks)
        as [Hall | (before & chunk & after & -> & Hb & Hbad)].
      * by rewrite check_chunks_agree in Hraise.
      * apply Exists_app. right. by constructor.
    + intros Hex.
      destruct (chunks_agree_or_not chunks)
        as [Hall | (before & chunk & after & -> & Hb & Hbad)].
      * exfalso. apply Exists_exists in Hex as (c & Hin & Hc).
        by apply Hc, (proj1 (Forall_forall _ _) Hall).
      * eexists _, _. rewrite <- Hm. by apply check_chunks_first_mismatch.
  - intros actual expected actual' expected' [= Heq].
    by apply mismatch_text_inj in Heq.
Qed.

Lemma unwrap_length_check_witness :
  unwrap_message (__init__ echo_auth CREDSSP) hello_envelope "server"
  = Ok (to_bytes "hello")
  /\ unwrap_message (__init__ echo_auth CREDSSP) short_envelope "server"
     = Raise (WinRMError
                "The encrypted length from the server does not match the expected length, decryption failed, actual: 5 != expected: 7")
  /\ Exists (fun chunk => ~ lengths_agree chunk) [(7, to_bytes "hello")].
Proof.
  split; [|split].
  - destruct (unwrap_length_check (__init__ echo_auth CREDSSP) hello_envelope
                "server" [(5, to_bytes "hello")]) as (Hok & _).
    + vm_compute. reflexivity.
    + apply Hok. repeat constructor.
  - destruct (unwrap_length_check (__init__ echo_auth CREDSSP) short_envelope
                "server" [(7, to_bytes "hello")]) as (_ & Hbad & _).
    + vm_compute. reflexivity.
    + apply (Hbad [] (7, to_bytes "hello") []); [done|constructor|].
      vm_compute. discriminate.
  - destruct (unwrap_length_check (__init__ echo_auth CREDSSP) short_envelope
                "server" [(7, to_bytes "hello")]) as (_ & _ & Hiff & _).
    + vm_compute. reflexivity.
    + apply Hiff. exists 5, 7. vm_compute. reflexivity.
Defined.

Lemma slice_zero {A : Type} (s : list A) hi : slice s 0 hi = slice_to s hi.
Proof.
  unfold slice, slice_to. change (clamp_index (Z.of_nat (length s)) 0)
    with (Z.min 0 (Z.of_nat (length s))).
  rewrite Z.min_l by lia. by rewrite Z.sub_0_r.
Qed.

Lemma slice_rest {A : Type} (s : list A) lo hi :
  0 <= lo -> Z.of_nat (length s) <= hi -> slice s lo hi = slice_from s lo.
Proof.
  intros Hlo Hhi. unfold slice, slice_from, clamp_index.
  rewrite !(proj2 (Z.ltb_ge _ _)) by lia.
  rewrite (Z.min_r hi) by lia.
  apply firstn_all2. rewrite length_skipn. lia.
Qed.

Lemma single_chunk self message hostname :
  (bool_decide (protocol self = CREDSSP)
   && (Z.of_nat (length message) >? SIXTEEN_KB)) = false ->
  message_chunks self message = [message]
  /\ wrap_message self message hostname
     = (part ← _wrap_message self message hostname;
        Ok ("multipart/encrypted"%string, part ++ END_BOUNDARY)).
Proof.
  intros Hc. unfold message_chunks, wrap_message. by rewrite Hc.
Qed.

(** C5. Under the CredSSP mechanism a payload of exactly 16384 bytes goes
    out as one part under the content type multipart/encrypted, and one of
    16385 bytes as exactly two parts (the first 16384 bytes, then the last
    one) under multipart/x-multi-encrypted; under the SPNEGO mechanism every
    payload goes out as one part. *)
Theorem wrap_message_chunking auth hostname :
  (forall payload,
      Z.of_nat (length payload) = 16384 ->
      message_chunks (__init__ auth CREDSSP) payload = [payload]
      /\ wrap_message (__init__ auth CREDSSP) payload hostname
         = (part ← _wrap_message (__init__ auth CREDSSP) payload hostname;
            Ok ("multipart/encrypted"%string, part ++ END_BOUNDARY)))
  /\ (forall payload,
        Z.of_nat (length payload) = 16385 ->
        message_chunks (__init__ auth CREDSSP) payload
        = [slice_to payload 16384; slice_from payload 16384]
        /\ Z.of_nat (length (slice_to payload 16384)) = 16384
        /\ Z.of_nat (length (slice_from payload 16384)) = 1
        /\ wrap_message (__init__ auth CREDSSP) payload hostname
           = (part1 ← _wrap_message (__init__ auth CREDSSP)
                        (slice_to payload 16384) hostname;
              part2 ← _wrap_message (__init__ auth CREDSSP)
                        (slice_from payload 16384) hostname;
              Ok ("multipart/x-multi-encrypted"%string,
                  part1 ++ part2 ++ END_BOUNDARY)))
  /\ (forall payload,
        message_chunks (__init__ auth SPNEGO) payload = [payload]
        /\ wrap_message (__init__ auth SPNEGO) payload hostname
           = (part ← _wrap_message (__init__ auth SPNEGO) payload hostname;
              Ok ("multipart/encrypted"%string, part ++ END_BOUNDARY))).
Proof.
  split; [|split].
  - intros payload Hlen. apply single_chunk.
    rewrite Hlen. apply andb_false_r.
  - intros payload Hlen.
    assert (Hchunks : message_chunks (__init__ auth CREDSSP) payload
                      = [slice_to payload 16384; slice_from payload 16384]).
    { unfold message_chunks. rewrite protocol_init, Hlen.
      change (bool_decide (CREDSSP = CREDSSP) && (16385 >? SIXTEEN_KB)) with true.
      cbv iota. change (range 0 16385 SIXTEEN_KB) with [0; 16384].
      cbn [map]. change (0 + SIXTEEN_KB) with 16384.
      change (16384 + SIXTEEN_KB) with 32768.
      rewrite slice_zero, slice_rest by lia. done. }
    split; [done|].
    split.
    { unfold slice_to, clamp_index. rewrite Hlen.
      change (Z.to_nat _) with (Z.to_nat 16384). rewrite length_firstn. lia. }
    split.
    { unfold slice_from, clamp_index. rewrite Hlen.
      change (Z.to_nat _) with (Z.to_nat 16384). rewrite length_skipn. lia. }
    rewrite wrap_message_chunks, Hchunks, protocol_init, Hlen.
    change (bool_decide (CREDSSP = CREDSSP) && (16385 >? SIXTEEN_KB)) with true.
    cbv iota. cbn [wrap_chunks].
    destruct (_wrap_message _ (slice_to payload 16384) hostname); [|done].
    destruct (_wrap_message _ (slice_from payload 16384) hostname); [|done].
    rewrite !bind_Ok. by rewrite <- app_assoc.
  - intros payload. apply single_chunk. by rewrite protocol_init.
Qed.

Lemma wrap_message_chunking_witness :
  message_chunks (__init__ echo_auth CREDSSP) (doubled 14 ["a"%byte])
  = [doubled 14 ["a"%byte]]
  /\ message_chunks (__init__ echo_auth CREDSSP) (doubled 14 ["a"%byte] ++ ["b"%byte])
     = [slice_to (doubled 14 ["a"%byte] ++ ["b"%byte]) 16384;
        slice_from (doubled 14 ["a"%byte] ++ ["b"%byte]) 16384].
Proof.
  destruct (wrap_message_chunking echo_auth "server") as (Hone & Htwo & _).
  split.
  - apply Hone. vm_compute. reflexivity.
  - apply Htwo. vm_compute. reflexivity.
Defined.

Lemma replace_intercalate {A : Type} `{EqDecision A} (old : list A) segments :
  old <> [] -> no_overlap old old = true ->
  Forall (fun seg => contains old seg = false) segments ->
  replace old [] (intercalate old segments) = concat segments.
Proof.
  intros Hold Hover. induction 1 as [|seg segments Hseg Hall IH]; [done|].
  destruct segments as [|seg' segments].
  - simpl. rewrite app_nil_r. by apply replace_absent.
  - change (intercalate old (seg :: seg' :: segments))
      with (seg ++ old ++ intercalate old (seg' :: segments)).
    rewrite replace_no_match by (by apply contains_no_match).
    rewrite replace_old, IH by done. done.
Qed.

Lemma wrapped_data_of_ended blob :
  wrapped_data_of (OCTET_STREAM ++ blob ++ END_BOUNDARY)
  = replace OCTET_STREAM [] blob.
Proof.
  unfold wrapped_data_of.
  rewrite (app_assoc OCTET_STREAM blob END_BOUNDARY), endswith_app.
  replace (Z.of_nat (length ((OCTET_STREAM ++ blob) ++ END_BOUNDARY)) - 24)
    with (Z.of_nat (length (OCTET_STREAM ++ blob))).
  2:{ rewrite (length_app _ END_BOUNDARY).
      destruct boundary_facts as (_ & _ & _ & _ & _ & _ & -> & _). lia. }
  by rewrite slice_to_app, replace_old.
Qed.

Lemma wrapped_data_of_open blob :
  endswith END_BOUNDARY blob = false ->
  wrapped_data_of (OCTET_STREAM ++ blob) = replace OCTET_STREAM [] blob.
Proof.
  intros He. unfold wrapped_data_of.
  by rewrite (endswith_marker_blob _ He), replace_old.
Qed.

Lemma split_frames_marked protocol cbs : forall cur,
  known_protocol protocol -> cbs <> [] ->
  Forall (fun cb => contains PART_BOUNDARY cb.2 = false) cbs ->
  split_from PART_BOUNDARY O cur (frames protocol cbs ++ END_BOUNDARY)
  = rev cur :: payload_parts protocol cbs.
Proof.
  destruct boundary_facts as (HPB & HEB & _ & Hoct & Hend & _).
  induction cbs as [|cb cbs IH]; intros cur Hp Hne Hsafe; [done|].
  apply Forall_cons in Hsafe as [Hb Hsafe].
  rewrite frames_cons, <- !app_assoc.
  rewrite split_from_sep by done.
  rewrite split_from_no_match by (apply header_no_match; [done|lia]).
  rewrite app_nil_r, split_from_sep by done. rewrite rev_involutive.
  destruct cbs as [|cb' cbs].
  - cbn [payload_parts]. do 2 f_equal.
    change (frames protocol []) with (@nil byte). rewrite app_nil_l.
    rewrite split_from_end; [done|].
    rewrite app_assoc.
    apply no_match_in_app; [|by apply all_mismatch_no_match].
    apply no_match_in_app; [by apply all_mismatch_no_match|].
    rewrite HEB, <- app_assoc. by apply blob_no_match.
  - change (payload_parts protocol (cb :: cb' :: cbs))
      with (part_header protocol (str_int (Z.of_nat (length cb.1)))
            :: (OCTET_STREAM ++ cb.2) :: payload_parts protocol (cb' :: cbs)).
    f_equal. f_equal.
    rewrite (app_assoc OCTET_STREAM).
    rewrite split_from_no_match.
    + rewrite app_nil_r, IH by done. by rewrite rev_involutive.
    + apply no_match_in_app; [by apply all_mismatch_no_match|].
      rewrite frames_cons, HPB, <- !app_assoc. by apply blob_no_match.
Qed.

Lemma marker_facts :
  OCTET_STREAM <> [] /\ no_overlap OCTET_STREAM OCTET_STREAM = true.
Proof. split; [done|by vm_compute]. Qed.

(** the loop of [unwrap_message] over the parts of an envelope whose
    wrapped data hold the marker between marker-free segments *)
Lemma unwrap_marked_parts self hostname (parts : list (bytes * list bytes)) :
  forall message,
  known_protocol (protocol self) ->
  Forall (fun part =>
            Forall (fun seg => contains OCTET_STREAM seg = false) part.2) parts ->
  (forall before part after,
      parts = before ++ part :: after -> after <> [] ->
      endswith END_BOUNDARY (intercalate OCTET_STREAM part.2) = false) ->
  unwrap_parts self
    (payload_parts (protocol self)
       (map (fun part => (part.1, intercalate OCTET_STREAM part.2)) parts))
    hostname message
  = fold_left
      (fun unwrapped part =>
         message ← unwrapped;
         unwrapped_data ← _unwrap self (concat part.2) hostname;
         if negb (Z.of_nat (length unwrapped_data) =? Z.of_nat (length part.1))
         then Raise (length_mismatch (Z.of_nat (length unwrapped_data))
                                     (Z.of_nat (length part.1)))
         else Ok (message ++ unwrapped_data))
      parts (Ok message).
Proof.
  destruct marker_facts as [Hne Hover].
  assert (Hraise : forall (parts : list (bytes * list bytes)) e,
    fold_left
      (fun unwrapped part =>
         message ← unwrapped;
         unwrapped_data ← _unwrap self (concat part.2) hostname;
         if negb (Z.of_nat (length unwrapped_data) =? Z.of_nat (length part.1))
         then Raise (length_mismatch (Z.of_nat (length unwrapped_data))
                                     (Z.of_nat (length part.1)))
         else Ok (message ++ unwrapped_data))
      parts (Raise e) = Raise e).
  { intros ps e. induction ps as [|p ps IH]; [done|]. cbn [fold_left]. by rewrite bind_Raise. }
  induction parts as [|part parts IH]; intros message Hp Hseg Hend; [done|].
  apply Forall_cons in Hseg as [Hpart Hseg].
  cbn [fold_left]. rewrite bind_Ok.
  destruct parts as [|part' parts].
  - cbn [map payload_parts unwrap_parts fst snd].
    rewrite header_expected_length, bind_Ok by (done || lia).
    rewrite wrapped_data_of_ended, replace_intercalate by done.
    reflexivity.
  - change (payload_parts (protocol self)
              (map (fun part => (part.1, intercalate OCTET_STREAM part.2))
                   (part :: part' :: parts)))
      with (part_header (protocol self) (str_int (Z.of_nat (length part.1)))
            :: (OCTET_STREAM ++ intercalate OCTET_STREAM part.2)
            :: payload_parts (protocol self)
                 (map (fun part => (part.1, intercalate OCTET_STREAM part.2))
                      (part' :: parts))).
    cbn [unwrap_parts].
    rewrite header_expected_length, bind_Ok by (done || lia).
    rewrite wrapped_data_of_open by (by apply (Hend [] part (part' :: parts))).
    rewrite replace_intercalate by done.
    destruct (_unwrap self _ hostname) as [data|e].
    + rewrite !bind_Ok. destruct (negb _).
      * by rewrite Hraise.
      * apply IH; [done|done|].
        intros before p after Heq Hafter.
        apply (Hend (part :: before) p after); [by rewrite Heq|done].
    + rewrite !bind_Raise. by rewrite Hraise.
Qed.

Lemma unwrap_marked_envelope self hostname (parts : list (bytes * list bytes)) :
  known_protocol (protocol self) -> parts <> [] ->
  Forall (fun part =>
            Forall (fun seg => contains OCTET_STREAM seg = false) part.2
            /\ contains PART_BOUNDARY (intercalate OCTET_STREAM part.2) = false)
         parts ->
  (forall before part after,
      parts = before ++ part :: after -> after <> [] ->
      endswith END_BOUNDARY (intercalate OCTET_STREAM part.2) = false) ->
  unwrap_message self
    (frames (protocol self)
       (map (fun part => (part.1, intercalate OCTET_STREAM part.2)) parts)
     ++ END_BOUNDARY) hostname
  = fold_left
      (fun unwrapped part =>
         message ← unwrapped;
         unwrapped_data ← _unwrap self (concat part.2) hostname;
         if negb (Z.of_nat (length unwrapped_data) =? Z.of_nat (length part.1))
         then Raise (length_mismatch (Z.of_nat (length unwrapped_data))
                                     (Z.of_nat (length part.1)))
         else Ok (message ++ unwrapped_data))
      parts (Ok []).
Proof.
  intros Hp Hne Hsafe Hend. unfold unwrap_message, split.
  rewrite split_frames_marked; [|done|by destruct parts|].
  2:{ apply Forall_map. eapply Forall_impl; [exact Hsafe|]. by intros part [_ H]. }
  change (filter_nonempty (rev [] :: ?l)) with (filter_nonempty l).
  rewrite payload_parts_nonempty by done.
  apply unwrap_marked_parts; [done| |done].
  eapply Forall_impl; [exact Hsafe|]. by intros part [H _].
Qed.

(** C10. [unwrap_message] deletes every occurrence of the octet-stream
    marker in a part's payload, wherever it stands. For an envelope whose
    parts hold, after their leading marker line, marker-free segments joined
    by further markers, what [unwrap_message] hands to the mechanism's
    [_unwrap] for each part is the segments joined by nothing (the last
    part, which carries the end boundary, included), and its result is the
    length check over what [_unwrap] returns for those bytes. So wrapped
    data that holds the marker is not what reaches [_unwrap]: when the echo
    context wraps the marker itself, [wrap_message] builds an envelope from
    which any CredSSP receiver's [_unwrap] gets the four-byte trailer length
    alone, and the sender's own [unwrap_message] fails the length check. *)
Theorem marker_removed_everywhere :
  (forall self hostname (parts : list (bytes * list bytes)),
      known_protocol (protocol self) -> parts <> [] ->
      Forall (fun part =>
                Forall (fun seg => contains OCTET_STREAM seg = false) part.2
                /\ contains PART_BOUNDARY (intercalate OCTET_STREAM part.2)
                   = false) parts ->
      (forall before part after,
          parts = before ++ part :: after -> after <> [] ->
          endswith END_BOUNDARY (intercalate OCTET_STREAM part.2) = false) ->
      unwrap_message self
        (frames (protocol self)
           (map (fun part => (part.1, intercalate OCTET_STREAM part.2)) parts)
         ++ END_BOUNDARY) hostname
      = fold_left
          (fun unwrapped part =>
             message ← unwrapped;
             unwrapped_data ← _unwrap self (concat part.2) hostname;
             if negb (Z.of_nat (length unwrapped_data)
                      =? Z.of_nat (length part.1))
             then Raise (length_mismatch (Z.of_nat (length unwrapped_data))
                                         (Z.of_nat (length part.1)))
             else Ok (message ++ unwrapped_data))
          parts (Ok []))
  /\ (let prefix := [byte_of_Z 16; byte_of_Z 0; byte_of_Z 0; byte_of_Z 0] in
      let blob := prefix ++ OCTET_STREAM in
      let envelope := frame CREDSSP OCTET_STREAM blob ++ END_BOUNDARY in
      context_inverts echo_auth "server"
      /\ _wrap (__init__ echo_auth CREDSSP) OCTET_STREAM "server" = Ok blob
      /\ wrap_message (__init__ echo_auth CREDSSP) OCTET_STREAM "server"
         = Ok ("multipart/encrypted"%string, envelope)
      /\ prefix <> blob
      /\ (forall self hostname,
            protocol self = CREDSSP ->
            unwrap_message self envelope hostname
            = (unwrapped_data ← _unwrap self prefix hostname;
               if negb (Z.of_nat (length unwrapped_data) =? 41)
               then Raise (length_mismatch
                             (Z.of_nat (length unwrapped_data)) 41)
               else Ok unwrapped_data))
      /\ unwrap_message (__init__ echo_auth CREDSSP) envelope "server"
         = Raise (length_mismatch 0 41)).
Proof.
  split; [exact unwrap_marked_envelope|].
  intros prefix blob envelope.
  split; [vm_compute; by intros data wrapped [= ->]|].
  split; [vm_compute; reflexivity|].
  split; [vm_compute; reflexivity|].
  split; [vm_compute; discriminate|].
  assert (Hany : forall self hostname,
            protocol self = CREDSSP ->
            unwrap_message self envelope hostname
            = (unwrapped_data ← _unwrap self prefix hostname;
               if negb (Z.of_nat (length unwrapped_data) =? 41)
               then Raise (length_mismatch
                             (Z.of_nat (length unwrapped_data)) 41)
               else Ok unwrapped_data)).
  { intros self hostname Hp.
    pose proof (unwrap_marked_envelope self hostname
                  [(OCTET_STREAM, [prefix; []])]) as H.
    rewrite Hp in H. cbn [map fold_left fst snd intercalate concat] in H.
    unfold frames in H. cbn [flat_map] in H. rewrite !app_nil_r in H.
    rewrite bind_Ok in H.
    change (Z.of_nat (length OCTET_STREAM)) with 41 in H.
    apply H; [by left|done| |].
    - repeat constructor; by vm_compute.
    - intros before part after Heq Hafter.
      destruct before as [|b before].
      + injection Heq as _ <-. by destruct Hafter.
      + injection Heq as _ Heq. by destruct before. }
  split; [exact Hany|].
  rewrite Hany by done. vm_compute. reflexivity.
Qed.

Lemma marker_removed_everywhere_witness :
  unwrap_message (__init__ echo_auth CREDSSP)
    (frames CREDSSP
       [(to_bytes "ab",
         [byte_of_Z 16; byte_of_Z 0; byte_of_Z 0; byte_of_Z 0]
         ++ to_bytes "a" ++ OCTET_STREAM ++ to_bytes "b");
        (to_bytes "cd",
         [byte_of_Z 16; byte_of_Z 0; byte_of_Z 0; byte_of_Z 0]
         ++ to_bytes "c" ++ OCTET_STREAM ++ to_bytes "d")]
     ++ END_BOUNDARY) "server"
  = Ok (to_bytes "abcd").
Proof.
  destruct marker_removed_everywhere as [Hall _].
  etrans.
  - apply (Hall (__init__ echo_auth CREDSSP) "server"
             [(to_bytes "ab",
               [[byte_of_Z 16; byte_of_Z 0; byte_of_Z 0; byte_of_Z 0]
                ++ to_bytes "a"; to_bytes "b"]);
              (to_bytes "cd",
               [[byte_of_Z 16; byte_of_Z 0; byte_of_Z 0; byte_of_Z 0]
                ++ to_bytes "c"; to_bytes "d"])]).
    + by left.
    + done.
    + repeat constructor; by vm_compute.
    + intros before part after Heq Hafter.
      destruct before as [|b before].
      * injection Heq as <- _. by vm_compute.
      * injection Heq as _ Heq. destruct before as [|b' before].
        -- injection Heq as _ <-. by destruct Hafter.
        -- injection Heq as _ Heq. by destruct before.
  - vm_compute. reflexivity.
Defined.

(** *** The matcher *)

Lemma star_spec a k s :
  star a k s = true
  <-> exists pre post, s = pre ++ post
        /\ Forall (fun c => atom_matches a c = true) pre /\ k post = true.
Proof.
  split.
  - induction s as [|c s IH]; simpl.
    + rewrite orb_false_r. intros Hk. by exists [], [].
    + intros [Hk | [Hc Hs]%andb_true_iff]%orb_true_iff.
      * by exists [], (c :: s).
      * destruct (IH Hs) as (pre & post & -> & Hpre & Hk).
        exists (c :: pre), post. repeat split; [by constructor|done].
  - intros (pre & post & -> & Hpre & Hk).
    induction Hpre as [|c pre Hc Hpre IH].
    + destruct post; simpl in *; by rewrite Hk.
    + simpl. by rewrite Hc, IH, orb_true_r.
Qed.

Lemma match_lit c rest s :
  match_items (One (Lit c) :: rest) s = true
  <-> exists s', s = c :: s' /\ match_items rest s' = true.
Proof.
  destruct s as [|c' s]; simpl.
  - split; [done|]. by intros (s' & ? & _).
  - rewrite andb_true_iff, bool_decide_eq_true. split.
    + intros [-> Hs]. by exists s.
    + by intros (s' & [= -> ->] & Hs).
Qed.

Lemma match_eol s :
  match_items [Eol] s = true <-> s = [] \/ s = [newline].
Proof.
  destruct s as [|c [|c' s]]; simpl.
  - split; [by left|done].
  - rewrite andb_true_r, bool_decide_eq_true. split.
    + intros ->. by right.
    + by intros [?|[= ->]].
  - split; [done|]. by intros [?|?].
Qed.

Lemma gcm_pattern_spec suite :
  re_match GCM_PATTERN suite = true <-> gcm_named suite.
Proof.
  unfold re_match, GCM_PATTERN, gcm_named.
  change (match_items (Star Dot :: ?r) ?s) with (star Dot (match_items r) s).
  rewrite star_spec. split.
  - intros (before & post & Hs & Hbefore & Hk).
    apply match_lit in Hk as (s1 & -> & Hk). apply match_lit in Hk as (s2 & -> & Hk).
    apply match_lit in Hk as (s3 & -> & Hk). apply match_lit in Hk as (s4 & -> & Hk).
    apply match_lit in Hk as (s5 & -> & Hk).
    change (match_items (Star WordOrDigit :: ?r) ?s)
      with (star WordOrDigit (match_items r) s) in Hk.
    apply star_spec in Hk as (after & final & -> & Hafter & Hfinal).
    apply match_eol in Hfinal.
    exists before, after, final. split; [done|]. split; [|done].
    eapply Forall_impl; [exact Hbefore|]. intros c Hc. simpl in Hc.
    apply negb_true_iff, bool_decide_eq_false in Hc. done.
  - intros (before & after & final & Hs & Hbefore & Hafter & Hfinal).
    exists before, (list_ascii_of_string "-GCM-" ++ after ++ final).
    split; [done|]. split.
    + eapply Forall_impl; [exact Hbefore|]. intros c Hc. simpl.
      by apply negb_true_iff, bool_decide_eq_false.
    + cbn [list_ascii_of_string app].
      do 5 (apply match_lit; eexists; split; [reflexivity|]).
      change (match_items (Star WordOrDigit :: ?r) ?s)
        with (star WordOrDigit (match_items r) s).
      apply star_spec. exists after, final. split; [done|]. split; [done|].
      by apply match_eol.
Qed.

(** *** The trailing token *)

Lemma split_from_nonempty {A : Type} `{EqDecision A} (sep : list A) s :
  forall skip cur, split_from sep skip cur s <> [].
Proof.
  induction s as [|c s IH]; intros skip cur; simpl; [done|].
  destruct skip; [|apply IH]. destruct (startswith _ _); [done|apply IH].
Qed.

Lemma take_until_dash_free s :
  Forall (fun c => c <> dash) s -> take_until_dash s = s.
Proof.
  induction 1 as [|c s Hc Hs IH]; simpl; [done|].
  by rewrite bool_decide_eq_false_2, IH.
Qed.

Lemma take_until_dash_app u v :
  take_until_dash (u ++ dash :: v) = take_until_dash u.
Proof.
  induction u as [|c u IH]; simpl; [done|].
  destruct (bool_decide (c = dash)); [done|]. by rewrite IH.
Qed.

Lemma last_split_dash s : forall cur,
  Forall (fun c => c <> dash) cur ->
  List.last (split_from [dash] O cur s) []
  = rev (take_until_dash (rev (rev cur ++ s))).
Proof.
  induction s as [|c s IH]; intros cur Hcur.
  - simpl. rewrite app_nil_r, rev_involutive. by rewrite take_until_dash_free.
  - cbn [split_from startswith]. rewrite andb_true_r.
    destruct (bool_decide (dash = c)) eqn:Hc.
    + apply bool_decide_eq_true in Hc as <-.
      pose proof (split_from_nonempty [dash] s (Nat.pred (length [dash])) []) as Hne.
      destruct (split_from [dash] _ [] s) as [|x xs] eqn:Hsp; [done|].
      change (List.last (rev cur :: x :: xs) []) with (List.last (x :: xs) []).
      rewrite <- Hsp. change (Nat.pred (length [dash])) with O.
      rewrite IH by done. cbn [rev app].
      rewrite rev_app_distr. cbn [rev]. rewrite <- app_assoc. cbn [app].
      by rewrite take_until_dash_app.
    + apply bool_decide_eq_false in Hc.
      rewrite IH by (constructor; [congruence|done]).
      simpl. by rewrite <- app_assoc.
Qed.

Lemma last_map {A B : Type} (f : A -> B) (l : list A) (d : A) :
  List.last (map f l) (f d) = f (List.last l d).
Proof.
  induction l as [|x [|y l] IH]; [done..|]. exact IH.
Qed.

Lemma trailing_token_split suite :
  List.last (str_split "-" suite) EmptyString = trailing_token suite.
Proof.
  unfold str_split, trailing_token, split.
  change EmptyString with (string_of_list_ascii []).
  rewrite last_map. f_equal.
  change (list_ascii_of_string "-") with [dash].
  by rewrite last_split_dash.
Qed.

Lemma hash_lengths_lookup token :
  default 0 (hash_lengths !! token)
  = if bool_decide (token = "MD5") then 16
    else if bool_decide (token = "SHA") then 20
    else if bool_decide (token = "SHA256") then 32
    else if bool_decide (token = "SHA384") then 48
    else 0.
Proof.
  unfold hash_lengths.
  repeat (case_bool_decide;
          [subst token; by vm_compute | rewrite lookup_insert_ne by done]).
  by rewrite lookup_empty.
Qed.

Lemma credssp_trailer_not_gcm msg_len suite :
  re_match GCM_PATTERN suite = false ->
  _credssp_trailer msg_len suite = trailer msg_len suite.
Proof.
  intros Hre. unfold _credssp_trailer, trailer, hash_length, padding.
  rewrite Hre, trailing_token_split, hash_lengths_lookup.
  destruct (str_contains "RC4" suite); [done|].
  by rewrite (orb_comm (str_contains "3DES" suite)).
Qed.

(** C2. The trailer length is a function of the plaintext length and the
    suite name alone: for a name of the GCM pattern it is 16 whatever the
    length, and for any other name it is (pre_pad + padding) minus the
    plaintext length, with the hash length read from the token after the
    last dash (MD5 16, SHA 20, SHA256 32, SHA384 48, otherwise 0), pre_pad
    the plaintext length plus the hash length, and the padding 0 for RC4
    names, 8 - pre_pad mod 8 for DES and 3DES names and 16 - pre_pad mod 16
    otherwise. *)
Theorem credssp_trailer_spec msg_len suite :
  (gcm_named suite -> _credssp_trailer msg_len suite = 16)
  /\ (~ gcm_named suite ->
      _credssp_trailer msg_len suite = trailer msg_len suite)
  /\ (forall msg_len' suite',
        msg_len' = msg_len -> suite' = suite ->
        _credssp_trailer msg_len' suite' = _credssp_trailer msg_len suite).
Proof.
  split; [|split].
  - intros Hg%gcm_pattern_spec. unfold _credssp_trailer. by rewrite Hg.
  - intros Hg. apply credssp_trailer_not_gcm.
    destruct (re_match GCM_PATTERN suite) eqn:Hre; [|done].
    by apply gcm_pattern_spec in Hre.
  - by intros msg_len' suite' -> ->.
Qed.

Lemma credssp_trailer_spec_witness :
  _credssp_trailer 5 "ECDHE-RSA-AES256-GCM-SHA384" = 16
  /\ _credssp_trailer 5 "ECDHE-RSA-AES256-SHA384" = 59
  /\ _credssp_trailer 5 "DES-CBC3-SHA" = 27
  /\ _credssp_trailer 5 "RC4-MD5" = 16.
Proof.
  assert (Hnot : forall suite, re_match GCM_PATTERN suite = false -> ~ gcm_named suite).
  { intros suite Hre Hg%gcm_pattern_spec. congruence. }
  split; [|split; [|split]].
  - destruct (credssp_trailer_spec 5 "ECDHE-RSA-AES256-GCM-SHA384") as (Hgcm & _).
    apply Hgcm.
    exists (list_ascii_of_string "ECDHE-RSA-AES256"),
           (list_ascii_of_string "SHA384"), [].
    split; [reflexivity|]. split; [repeat constructor; discriminate|].
    split; [repeat constructor|by left].
  - transitivity (trailer 5 "ECDHE-RSA-AES256-SHA384"); [|by vm_compute].
    destruct (credssp_trailer_spec 5 "ECDHE-RSA-AES256-SHA384") as (_ & Hother & _).
    apply Hother, Hnot. by vm_compute.
  - transitivity (trailer 5 "DES-CBC3-SHA"); [|by vm_compute].
    destruct (credssp_trailer_spec 5 "DES-CBC3-SHA") as (_ & Hother & _).
    apply Hother, Hnot. by vm_compute.
  - transitivity (trailer 5 "RC4-MD5"); [|by vm_compute].
    destruct (credssp_trailer_spec 5 "RC4-MD5") as (_ & Hother & _).
    apply Hother, Hnot. by vm_compute.
Defined.

(** * The enum codec and the typed values *)

Import PSEnumBase EnumSpec.


(** *** Ordered dictionaries *)

Section DictFacts.
Context {K V : Type} `{EqDecision K}.
Implicit Types d : list (K * V).

Lemma dict_get_setitem d k v k' :
  dict_get (dict_setitem d k v) k'
  = if decide (k' = k) then Some v else dict_get d k'.
Proof.
  induction d as [|[k0 v0] d IH]; simpl.
  - done.
  - destruct (decide (k = k0)) as [->|Hk]; simpl.
    + by destruct (decide (k' = k0)).
    + rewrite IH. destruct (decide (k' = k0)) as [->|]; [|done].
      by rewrite decide_False.
Qed.

Lemma dict_keys_get d k : In k (dict_keys d) <-> is_Some (dict_get d k).
Proof.
  induction d as [|[k0 v0] d IH]; simpl.
  - split; [done|]. by intros [? ?].
  - destruct (decide (k = k0)) as [->|Hk].
    + split; [by eexists|by left].
    + rewrite <- IH. split; [intros [?|?]; [congruence|done]|by right].
Qed.

Lemma dict_keys_setitem_NoDup d k v :
  NoDup (dict_keys d) -> NoDup (dict_keys (dict_setitem d k v)).
Proof.
  induction d as [|[k0 v0] d IH]; simpl; intros Hd.
  - repeat constructor. by intros ?%elem_of_nil.
  - apply NoDup_cons in Hd as [Hk0 Hd].
    destruct (decide (k = k0)) as [->|Hk]; simpl.
    + by apply NoDup_cons.
    + apply NoDup_cons. split; [|by apply IH].
      rewrite list_elem_of_In, dict_keys_get, dict_get_setitem.
      rewrite decide_False by done.
      by rewrite <- dict_keys_get, <- list_elem_of_In.
Qed.

Lemma dict_of_pairs_NoDup (pairs : list (K * V)) :
  NoDup (dict_keys (dict_of_pairs pairs)).
Proof.
  unfold dict_of_pairs.
  assert (Hgen : forall d, NoDup (dict_keys d) ->
            NoDup (dict_keys (fold_left (fun d kv => dict_setitem d kv.1 kv.2) pairs d))).
  { induction pairs as [|p pairs IH]; intros d Hd; [done|].
    simpl. by apply IH, dict_keys_setitem_NoDup. }
  apply Hgen. constructor.
Qed.

End DictFacts.

Lemma find_app_first {A : Type} (P : A -> bool) (l1 l2 : list A) :
  List.find P (l1 ++ l2)
  = match List.find P l1 with Some x => Some x | None => List.find P l2 end.
Proof.
  induction l1 as [|x l1 IH]; simpl; [done|]. by destruct (P x).
Qed.

(** the inverted map of [__str__] *)
Lemma inverted_get (c : cls) v :
  dict_get (dict_of_pairs (map (fun kv => (kv.2, kv.1)) (ENUM_MAP c))) v
  = label_of c v.
Proof.
  unfold dict_of_pairs, label_of.
  assert (Hgen : forall (items : list (string * Z)) d,
    dict_get (fold_left (fun d (kv : Z * string) => dict_setitem d kv.1 kv.2)
                (map (fun kv : string * Z => (kv.2, kv.1)) items) d) v
    = match option_map fst (List.find (fun kv : string * Z => kv.2 =? v) (rev items)) with
      | Some label => Some label
      | None => dict_get d v
      end).
  { induction items as [|[label x] items IH]; intros d; [done|].
    cbn [map fold_left rev fst snd]. rewrite IH, find_app_first.
    destruct (List.find _ (rev items)) as [[l0 v0]|]; [done|].
    cbn [option_map List.find snd]. rewrite dict_get_setitem.
    destruct (Z.eqb_spec x v) as [->|Hx].
    - by rewrite decide_True.
    - by rewrite decide_False by congruence. }
  rewrite Hgen. by destruct (option_map _ _).
Qed.

Lemma label_of_Some (c : cls) v :
  is_Some (label_of c v) <-> exists label, In (label, v) (ENUM_MAP c).
Proof.
  unfold label_of. split.
  - intros [label Hl].
    destruct (List.find _ _) as [[l0 v0]|] eqn:Hf; [|done].
    apply find_some in Hf as [Hin Hv]. apply in_rev in Hin.
    apply Z.eqb_eq in Hv. simpl in Hv. subst. by exists l0.
  - intros [label Hin]. rewrite in_rev in Hin.
    destruct (List.find _ _) as [[l0 v0]|] eqn:Hf; [by eexists|].
    exfalso. apply (find_none _ _ Hf) in Hin. simpl in Hin.
    by rewrite Z.eqb_refl in Hin.
Qed.

(** *** The candidates *)

#[local] Instance flip_le_antisymm : AntiSymm (=) (flip Z.le).
Proof. unfold flip. intros x y Hxy Hyx. lia. Qed.

#[local] Instance flip_le_transitive : Transitive (flip Z.le).
Proof. unfold flip. intros x y z Hxy Hyz. lia. Qed.

#[local] Instance flip_le_total : Total (flip Z.le).
Proof. unfold flip. intros x y. lia. Qed.

Lemma StronglySorted_gt_NoDup (l : list Z) : StronglySorted Z.gt l -> NoDup l.
Proof.
  induction 1 as [|x l Hl IH Hx]; constructor; [|done].
  rewrite list_elem_of_In. intros Hin.
  apply (proj1 (List.Forall_forall _ _) Hx) in Hin. lia.
Qed.

Lemma StronglySorted_gt_ge (l : list Z) :
  StronglySorted Z.gt l -> StronglySorted (flip Z.le) l.
Proof.
  induction 1 as [|x l Hl IH Hx]; constructor; [done|].
  eapply Forall_impl; [exact Hx|]. unfold flip. intros y Hy. lia.
Qed.

Lemma candidates_sorted (c : cls) candidates :
  descending_candidates c candidates ->
  sorted_reverse
    (List.filter (fun v => negb (v =? 0))
       (dict_keys (dict_of_pairs (map (fun kv => (kv.2, kv.1)) (ENUM_MAP c)))))
  = candidates.
Proof.
  intros [Hsorted Hmem]. unfold sorted_reverse.
  apply (StronglySorted_unique (flip Z.le)).
  - apply StronglySorted_merge_sort; apply _.
  - by apply StronglySorted_gt_ge.
  - rewrite merge_sort_Permutation. apply NoDup_Permutation.
    + apply NoDup_ListNoDup, List.NoDup_filter, NoDup_ListNoDup, dict_of_pairs_NoDup.
    + by apply StronglySorted_gt_NoDup.
    + intros v. rewrite !list_elem_of_In, filter_In, Hmem.
      rewrite dict_keys_get, inverted_get, label_of_Some.
      rewrite negb_true_iff, Z.eqb_neq. tauto.
Qed.

(** *** The greedy pass *)

Lemma contained_ldiff v remaining :
  contained v remaining <-> Z.ldiff v remaining = 0.
Proof.
  unfold contained. split.
  - intros Hc. apply Z.bits_inj'. intros i Hi.
    rewrite Z.ldiff_spec, Z.bits_0.
    destruct (Z.testbit v i) eqn:Hv; [|done].
    by rewrite (Hc i Hi Hv).
  - intros Hz i Hi Hv.
    assert (Hb : Z.testbit (Z.ldiff v remaining) i = false) by (by rewrite Hz, Z.bits_0).
    rewrite Z.ldiff_spec, Hv in Hb. by destruct (Z.testbit remaining i).
Qed.

Lemma land_test v remaining :
  (Z.land remaining v =? v) = (Z.ldiff v remaining =? 0).
Proof.
  destruct (Z.eqb_spec (Z.ldiff v remaining) 0) as [Hz|Hz].
  - apply Z.eqb_eq. apply Z.bits_inj'. intros i Hi.
    rewrite Z.land_spec.
    assert (Hb : Z.testbit (Z.ldiff v remaining) i = false) by (by rewrite Hz, Z.bits_0).
    rewrite Z.ldiff_spec in Hb.
    destruct (Z.testbit v i), (Z.testbit remaining i); done.
  - apply Z.eqb_neq. intros Hl. apply Hz. apply Z.bits_inj'. intros i Hi.
    rewrite Z.ldiff_spec, Z.bits_0.
    assert (Hb : Z.testbit (Z.land remaining v) i = Z.testbit v i) by (by rewrite Hl).
    rewrite Z.land_spec in Hb.
    destruct (Z.testbit v i), (Z.testbit remaining i); done.
Qed.

Lemma fold_str_step (c : cls) candidates : forall enum_value flags_set,
  fold_left (str_step (dict_of_pairs (map (fun kv => (kv.2, kv.1)) (ENUM_MAP c))))
            candidates (enum_value, flags_set)
  = ((greedy c candidates enum_value).2,
     flags_set ++ (greedy c candidates enum_value).1).
Proof.
  induction candidates as [|v candidates IH]; intros enum_value flags_set.
  - simpl. by rewrite app_nil_r.
  - cbn [fold_left str_step greedy]. rewrite land_test.
    destruct (Z.ldiff v enum_value =? 0).
    + rewrite IH, inverted_get, <- Z.ldiff_land.
      destruct (greedy c candidates (Z.ldiff enum_value v)) as [labels residual].
      simpl. by rewrite <- app_assoc.
    + apply IH.
Qed.

(** C6. Decoding never fails and is the decoding of the specification: a
    non-flag enum gives the label mapped to the integer, or the integer in
    decimal when there is none; a flag enum gives the exact label of a
    defined value, and otherwise the labels of the candidates (non-zero
    values in descending order) whose bits are contained in the remaining
    value, each clearing its bits, then a non-zero residual in decimal, all
    joined by a comma and a space, or the integer in decimal when nothing
    was emitted. *)
Theorem str_decodes (c : cls) (candidates : list Z) (z : Z) :
  descending_candidates c candidates ->
  __str__ c z = decode c candidates z.
Proof.
  intros Hcand. unfold __str__, decode.
  rewrite inverted_get. destruct (IS_FLAGS c); cbn [negb].
  - destruct (label_of c z) as [label|]; [done|].
    rewrite (candidates_sorted c candidates Hcand), fold_str_step.
    destruct (greedy c candidates z) as [labels residual]. cbn [fst snd app].
    destruct (residual =? 0); cbn [negb]; [by rewrite app_nil_r|done].
  - by destruct (label_of c z).
Qed.

Lemma str_decodes_witness :
  __str__ access_flags 13 = decode access_flags [4; 2; 1] 13.
Proof.
  apply str_decodes. split.
  - repeat constructor.
  - intros v. split.
    + intros [<-|[<-|[<-|[]]]]; (split; [done|]); eexists; simpl; eauto.
    + intros [Hv (label & Hin)]. simpl in Hin.
      destruct Hin as [[= _ <-]|[[= _ <-]|[[= _ <-]|[[= _ <-]|[]]]]]; simpl; auto.
Defined.

Lemma is_label_get (c : cls) token :
  is_label c token <-> is_Some (dict_get (ENUM_MAP c) token).
Proof. apply dict_keys_get. Qed.

Lemma is_label_dec (c : cls) token : Decision (is_label c token).
Proof. unfold is_label. apply In_dec. intros x y. apply decide. apply _. Qed.

(** the loop of [__new__], on the tokens *)
Lemma new_flags_labels (c : cls) labels : forall enum_value,
  Forall (is_label c) (map str_strip labels) ->
  new_flags c labels enum_value
  = Ok (fold_left Z.lor (map (value_of c) (map str_strip labels)) enum_value).
Proof.
  induction labels as [|label labels IH]; intros enum_value Hall; [done|].
  cbn [map] in Hall. apply Forall_cons in Hall as [Hl Hall].
  apply is_label_get in Hl as [v Hv].
  cbn [new_flags map fold_left]. rewrite Hv.
  replace (value_of c (str_strip label)) with v by (unfold value_of; by rewrite Hv).
  by apply IH.
Qed.

Lemma new_flags_first_bad (c : cls) labels before token after :
  forall enum_value,
  map str_strip labels = before ++ token :: after ->
  Forall (is_label c) before -> ~ is_label c token ->
  new_flags c labels enum_value = Raise (invalid_flag c token).
Proof.
  revert before. induction labels as [|label labels IH];
    intros before enum_value Hmap Hall Hbad.
  - by destruct before.
  - cbn [map] in Hmap. destruct before as [|b before].
    + injection Hmap as Hs _. cbn [new_flags]. rewrite Hs.
      destruct (dict_get (ENUM_MAP c) token) as [v|] eqn:Hv; [|done].
      exfalso. apply Hbad, is_label_get. by eexists.
    + injection Hmap as Hs Hmap. apply Forall_cons in Hall as [Hb Hall].
      cbn [new_flags]. rewrite Hs.
      apply is_label_get in Hb as [v ->]. by eapply IH.
Qed.

Lemma labels_or_not (c : cls) tokens :
  Forall (is_label c) tokens
  \/ exists before token after,
       tokens = before ++ token :: after
       /\ Forall (is_label c) before /\ ~ is_label c token.
Proof.
  induction tokens as [|t tokens IH]; [by left|].
  destruct (is_label_dec c t) as [Ht|Ht].
  - destruct IH as [Hall | (before & token & after & -> & Hb & Hbad)].
    + left. by constructor.
    + right. exists (t :: before), token, after.
      repeat split; [by constructor|done].
  - right. by exists [], t, tokens.
Qed.

(** the empty text is one empty token: it is rejected unless the descriptor
    defines the empty label *)
Lemma new_flags_empty_text (c : cls) :
  IS_FLAGS c = true -> dict_get (ENUM_MAP c) EmptyString = None ->
  __new__ c (Text EmptyString) = Raise (invalid_flag c EmptyString).
Proof.
  intros Hflags Hnone. unfold __new__. rewrite Hflags.
  change (str_split "," EmptyString) with [EmptyString].
  cbn [new_flags]. change (str_strip EmptyString) with EmptyString.
  by rewrite Hnone.
Qed.

Lemma tokens_nonempty (text : string) : tokens text <> [].
Proof.
  unfold tokens, str_split, split. intros Hnil.
  apply map_eq_nil, map_eq_nil in Hnil. by apply split_from_nonempty in Hnil.
Qed.

Lemma fold_lor_zero vals : forall acc,
  fold_left Z.lor vals acc = 0 <-> acc = 0 /\ Forall (fun v => v = 0) vals.
Proof.
  induction vals as [|v vals IH]; intros acc; cbn [fold_left].
  - split; [by intros ->|by intros [-> _]].
  - rewrite IH, Z.lor_eq_0_iff. split.
    + intros [[-> ->] Hall]. split; [done|by constructor].
    + intros [-> Hall]. apply Forall_cons in Hall as [-> Hall]. done.
Qed.

Lemma to_bytes_inj (s s' : string) : to_bytes s = to_bytes s' -> s = s'.
Proof.
  intros Heq. apply (f_equal string_of_list_byte) in Heq.
  unfold to_bytes in Heq. by rewrite !string_of_list_byte_of_string in Heq.
Qed.

(** the text of the flag error tells the token, for a given descriptor *)
Lemma invalid_text_inj (head tail token token' : string) :
  (head +:+ token +:+ tail)%string = (head +:+ token' +:+ tail)%string ->
  token = token'.
Proof.
  intros Heq. apply (f_equal to_bytes) in Heq. rewrite !to_bytes_app in Heq.
  by apply app_inv_head, app_inv_tail, to_bytes_inj in Heq.
Qed.

(** C7 (as amended). For a flag enum, encoding a text splits it on commas,
    trims each token and, when every token is a label, returns the bitwise
    OR of the tokens' values. It fails exactly when some token is not a
    label, with the [ValueError] whose text is Invalid enum flag, the first
    such token between quotes, then valid flags: and the labels joined by a
    comma and a space; for a given descriptor that text tells the token. The
    result 0 is valid, and is returned exactly when every token is a label
    of value 0; a text with nothing but blanks between its commas, the empty
    text among them, is rejected with that error for the empty token, unless
    the descriptor defines the empty label. *)
Theorem new_encodes_flags (c : cls) (text : string) :
  let invalid := fun token : string =>
    ValueError ("Invalid enum flag '" +:+ token +:+ "', valid flags: "
                +:+ str_join ", " (dict_keys (ENUM_MAP c))) in
  IS_FLAGS c = true ->
  (Forall (is_label c) (tokens text) ->
   __new__ c (Text text) = Ok (or_of c (tokens text)))
  /\ (forall before token after,
        tokens text = before ++ token :: after ->
        Forall (is_label c) before -> ~ is_label c token ->
        __new__ c (Text text) = Raise (invalid token))
  /\ ((exists e, __new__ c (Text text) = Raise e)
      <-> Exists (fun token => ~ is_label c token) (tokens text))
  /\ (forall e, __new__ c (Text text) = Raise e ->
        exists token,
          In token (tokens text) /\ ~ is_label c token /\ e = invalid token)
  /\ (forall token token', invalid token = invalid token' -> token = token')
  /\ (Forall (is_label c) (tokens text) ->
      (__new__ c (Text text) = Ok 0
       <-> Forall (fun token => value_of c token = 0) (tokens text)))
  /\ (Forall (fun token => token = EmptyString) (tokens text) ->
      ~ is_label c EmptyString ->
      __new__ c (Text text) = Raise (invalid EmptyString)).
Proof.
  intros invalid Hflags.
  assert (Hm : forall token, invalid_flag c token = invalid token) by done.
  pose proof (tokens_nonempty text) as Hne.
  unfold __new__, tokens, or_of in *. rewrite Hflags.
  split; [|split; [|split; [|split; [|split; [|split]]]]].
  - intros Hall. by apply new_flags_labels.
  - intros before token after Hmap Hb Hbad. rewrite <- Hm.
    by eapply new_flags_first_bad.
  - split.
    + intros [e He].
      destruct (labels_or_not c (map str_strip (str_split "," text)))
        as [Hall | (before & token & after & Hmap & Hb & Hbad)].
      * by rewrite new_flags_labels in He.
      * rewrite Hmap. apply Exists_app. right. by constructor.
    + intros Hex.
      destruct (labels_or_not c (map str_strip (str_split "," text)))
        as [Hall | (before & token & after & Hmap & Hb & Hbad)].
      * exfalso. apply Exists_exists in Hex as (t & Hin & Ht).
        by apply Ht, (proj1 (Forall_forall _ _) Hall).
      * eexists. by eapply new_flags_first_bad.
  - intros e He.
    destruct (labels_or_not c (map str_strip (str_split "," text)))
      as [Hall | (before & token & after & Hmap & Hb & Hbad)].
    + by rewrite new_flags_labels in He.
    + exists token. split; [|split; [done|]].
      * rewrite Hmap. apply in_or_app. right. by left.
      * rewrite (new_flags_first_bad _ _ _ _ _ _ Hmap Hb Hbad) in He.
        rewrite <- Hm. by injection He.
  - intros token token' [= Heq]. by apply invalid_text_inj in Heq.
  - intros Hall. rewrite new_flags_labels by done. split.
    + intros [= Hzero]. apply fold_lor_zero in Hzero as [_ Hzero].
      by apply Forall_map in Hzero.
    + intros Hzero. f_equal. apply fold_lor_zero. split; [done|].
      by apply Forall_map.
  - intros Hempty Hbad.
    destruct (map str_strip (str_split "," text)) as [|t ts] eqn:Hmap; [done|].
    apply Forall_cons in Hempty as [-> _]. rewrite <- Hm.
    by apply (new_flags_first_bad _ _ [] EmptyString ts).
Qed.

Lemma new_encodes_flags_witness :
  __new__ access_flags (Text "Read, Write") = Ok 3
  /\ __new__ access_flags (Text " None ,None") = Ok 0
  /\ __new__ access_flags (Text "Read,Delete")
     = Raise (ValueError
                "Invalid enum flag 'Delete', valid flags: None, Read, Write, Execute")
  /\ Exists (fun token => ~ is_label access_flags token) (tokens "Read,Delete")
  /\ __new__ access_flags (Text " , ")
     = Raise (ValueError
                "Invalid enum flag '', valid flags: None, Read, Write, Execute").
Proof.
  assert (Hnot : ~ is_label access_flags "Delete").
  { intros [H|[H|[H|[H|[]]]]]; discriminate H. }
  assert (Hempty : ~ is_label access_flags EmptyString).
  { intros [H|[H|[H|[H|[]]]]]; discriminate H. }
  assert (Hnone : is_label access_flags "None") by (unfold is_label; simpl; auto).
  assert (Hread : is_label access_flags "Read") by (unfold is_label; simpl; auto).
  assert (Hwrite : is_label access_flags "Write") by (unfold is_label; simpl; auto).
  split; [|split; [|split; [|split]]].
  - destruct (new_encodes_flags access_flags "Read, Write" eq_refl) as (Hok & _).
    apply Hok. change (tokens "Read, Write") with ["Read"; "Write"]%string.
    by repeat constructor.
  - destruct (new_encodes_flags access_flags " None ,None" eq_refl)
      as (_ & _ & _ & _ & _ & Hzero & _).
    apply Hzero; change (tokens " None ,None") with ["None"; "None"]%string;
      by repeat constructor.
  - destruct (new_encodes_flags access_flags "Read,Delete" eq_refl)
      as (_ & Hbad & _).
    apply (Hbad ["Read"%string] "Delete"%string []); [done| |done].
    by repeat constructor.
  - destruct (new_encodes_flags access_flags "Read,Delete" eq_refl)
      as (_ & _ & Hiff & _).
    apply Hiff. eexists. vm_compute. reflexivity.
  - destruct (new_encodes_flags access_flags " , " eq_refl)
      as (_ & _ & _ & _ & _ & _ & Hblank).
    apply Hblank; [|done].
    change (tokens " , ") with [EmptyString; EmptyString]. by repeat constructor.
Defined.

(** C7 as stated fails: the empty text and a blank text hold no label, an
    empty effective input, yet they do not encode to 0: the one token they
    split into is the empty string, which is not a label of this
    descriptor, and [__new__] raises. *)
Lemma new_encodes_flags_counterexample :
  IS_FLAGS access_flags = true
  /\ tokens EmptyString = [EmptyString]
  /\ tokens "  " = [EmptyString]
  /\ ~ (__new__ access_flags (Text EmptyString) = Ok 0)
  /\ ~ (__new__ access_flags (Text "  ") = Ok 0).
Proof. vm_compute. repeat split; discriminate. Qed.

(** C3 (as amended). Against the descriptor None 0, Read 1, Write 2,
    Execute 4, the text Read, Write encodes to 3; 3 decodes to Write, Read
    and 5 decodes to Execute, Read: the labels come out by descending
    value. *)
Theorem access_flags_scenario :
  __new__ access_flags (Text "Read, Write") = Ok 3
  /\ __str__ access_flags 3 = "Write, Read"%string
  /\ __str__ access_flags 5 = "Execute, Read"%string.
Proof. vm_compute. repeat split. Qed.

(** C3 as stated fails: 3 does not decode to Read, Write, and 5 does not
    decode to Read, 4. *)
Lemma access_flags_scenario_counterexample :
  ~ (__new__ access_flags (Text "Read, Write") = Ok 3
     /\ __str__ access_flags 3 = "Read, Write"%string
     /\ __str__ access_flags 5 = "Read, 4"%string).
Proof. vm_compute. intros (_ & H & _). discriminate H. Qed.

(** C8 (as amended). An enum value initialised by [PSEnumBase.__init__]
    carries metadata whose type names are the given name followed by
    System.Enum, System.ValueType and System.Object, hence not empty,
    whatever metadata it carried before; its integer value is untouched. *)
Theorem enum_type_names (self : PSObject.t Z) (type_name : string)
  (base_type : ps_class) :
  (exists m,
     PSObject.psobject (PSEnumBase.__init__ self type_name base_type) = Some m
     /\ PSObjectMeta.type_names m
        = [type_name; "System.Enum"; "System.ValueType"; "System.Object"]%string
     /\ PSObjectMeta.enum_type m = Some base_type)
  /\ type_names_nonempty (PSEnumBase.__init__ self type_name base_type)
  /\ PSObject.base (PSEnumBase.__init__ self type_name base_type)
     = PSObject.base self.
Proof.
  split; [by eexists|]. split; [|done].
  intros m [= <-]. done.
Qed.

(** C8 as stated fails: the metadata [PSObject.__init__] attaches to a
    typed value has no type name. *)
Lemma type_names_counterexample :
  ~ type_names_nonempty
      (PSObject.__init__ {| PSObject.base := "text"%string;
                            PSObject.psobject := None |}).
Proof. intros Hinv. by apply (Hinv PSObjectMeta.__init__). Qed.

(** C9. Assigning metadata to a GUID value through [__setattr__] succeeds
    without reaching the guard of the UUID type, the metadata can then be
    read back, and the identifier's value is unchanged; assigning any other
    attribute goes to the UUID type's [__setattr__]. *)
Theorem guid_setattr_psobject (self : PSGuid.t) (m : PSObjectMeta.t) :
  (exists self',
     PSGuid.__setattr__ self "psobject" (PSGuid.Meta m) = Ok self'
     /\ PSGuid.get_psobject self' = Some (PSGuid.Meta m)
     /\ PSGuid.int self' = PSGuid.int self)
  /\ (forall name value,
        name <> "psobject"%string ->
        PSGuid.__setattr__ self name value = UUID.__setattr__ self name value).
Proof.
  split.
  - eexists. split; [reflexivity|]. split; [|done].
    unfold PSGuid.get_psobject. simpl. apply lookup_insert_eq.
  - intros name value Hname. unfold PSGuid.__setattr__.
    by rewrite bool_decide_eq_false_2.
Qed.

Lemma guid_setattr_psobject_witness :
  PSGuid.__setattr__ {| PSGuid.int := 7; PSGuid.__dict__ := ∅ |} "int"
    (PSGuid.Other 8)
  = Raise (TypeError "UUID objects are immutable").
Proof.
  destruct (guid_setattr_psobject {| PSGuid.int := 7; PSGuid.__dict__ := ∅ |}
              PSObjectMeta.__init__) as [_ Hother].
  by rewrite Hother.
Defined.
Import WinRMEncryption Envelope.

(** * More on the framer: the two mechanisms *)

Lemma struct_pack_in_range n :
  - 2 ^ 31 <= n < 2 ^ 31 -> exists packed, struct_pack_i n = Ok packed.
Proof.
  intros Hn. unfold struct_pack_i.
  rewrite (proj2 (Z.leb_le _ _)), (proj2 (Z.ltb_lt _ _)) by lia.
  by eexists.
Qed.

(** X1. What [_wrap_spnego] emits for a header shorter than 2^31 bytes is
    four bytes more than header and ciphertext, and [_unwrap_spnego] hands
    the context exactly that header and that ciphertext. *)
Theorem spnego_frame_parsed auth hostname c data header wrapped :
  auth !! hostname = Some (GSS c) ->
  gss_wrap c data = Ok (header, wrapped) ->
  Z.of_nat (length header) < 2 ^ 31 ->
  exists blob,
    _wrap_spnego auth data hostname = Ok blob
    /\ length blob = (4 + length header + length wrapped)%nat
    /\ _unwrap_spnego auth blob hostname = gss_unwrap c header wrapped.
Proof.
  intros Hctx Hwrap Hlen.
  destruct (struct_pack_in_range (Z.of_nat (length header))) as [packed Hpack]; [lia|].
  assert (Hp := struct_pack_length _ _ Hpack).
  exists (packed ++ header ++ wrapped).
  unfold _wrap_spnego, _unwrap_spnego, contexts_getitem. rewrite Hctx, !bind_Ok.
  rewrite Hwrap, bind_Ok, Hpack, bind_Ok.
  split; [done|]. split; [rewrite !length_app; lia|].
  replace 4 with (Z.of_nat (length packed)) by lia.
  rewrite slice_to_app, (struct_unpack_pack _ _ Hpack), bind_Ok.
  rewrite slice_app_mid.
  replace (Z.of_nat (length packed) + Z.of_nat (length header))
    with (Z.of_nat (length (packed ++ header))) by (rewrite length_app; lia).
  by rewrite app_assoc, slice_from_app.
Qed.

Lemma spnego_frame_parsed_witness :
  exists blob,
    _wrap_spnego signing_auth (to_bytes "hello") "server" = Ok blob
    /\ length blob = (4 + 9 + 5)%nat
    /\ _unwrap_spnego signing_auth blob "server" = Ok (to_bytes "hello").
Proof.
  exact (spnego_frame_parsed signing_auth "server"
           {| gss_wrap := fun data => Ok (to_bytes "signature", data);
              gss_unwrap := fun header data => Ok data |}
           (to_bytes "hello") (to_bytes "signature") (to_bytes "hello")
           eq_refl eq_refl eq_refl).
Defined.

(** the hash length [_credssp_trailer] reads from a suite name *)
Lemma hash_length_values token :
  In (default 0 (hash_lengths !! token)) [16; 20; 32; 48; 0].
Proof.
  rewrite hash_lengths_lookup.
  repeat (case_bool_decide; [simpl; tauto|]). simpl. tauto.
Qed.

(** the trailer length lies between 0 and 64, whatever the message length
    and the suite name *)
Lemma credssp_trailer_range msg_len suite :
  0 <= _credssp_trailer msg_len suite <= 64.
Proof.
  unfold _credssp_trailer. destruct (re_match _ _); [lia|].
  set (h := default 0 (hash_lengths !! _)).
  assert (Hh : In h [16; 20; 32; 48; 0]) by apply hash_length_values.
  assert (0 <= h <= 48) by (simpl in Hh; lia).
  pose proof (Z.mod_pos_bound (msg_len + h) 8 ltac:(lia)).
  pose proof (Z.mod_pos_bound (msg_len + h) 16 ltac:(lia)).
  destruct (str_contains "RC4" suite); [lia|].
  destruct (_ || _); lia.
Qed.

(** X2. Outside the GCM and RC4 suites the trailer pads the message to a
    whole number of cipher blocks (8 bytes for a DES name, 16 otherwise)
    and the padding is never empty: a message that already fills its
    blocks gets a whole block more. *)
Theorem credssp_trailer_block_aligned msg_len suite :
  re_match GCM_PATTERN suite = false ->
  str_contains "RC4" suite = false ->
  let block := if str_contains "DES" suite then 8 else 16 in
  let hash_length :=
    default 0 (hash_lengths !! List.last (str_split "-" suite) EmptyString) in
  (msg_len + _credssp_trailer msg_len suite) mod block = 0
  /\ hash_length < _credssp_trailer msg_len suite <= hash_length + block.
Proof.
  intros Hre Hrc4. unfold _credssp_trailer. rewrite Hre, Hrc4.
  set (h := default 0 (hash_lengths !! _)). cbv zeta.
  assert (Hdes : (str_contains "DES" suite || str_contains "3DES" suite)
                 = str_contains "DES" suite).
  { destruct (str_contains "DES" suite) eqn:Hd; [done|].
    destruct (str_contains "3DES" suite) eqn:H3; [|done].
    exfalso. unfold str_contains in *.
    change (list_ascii_of_string "3DES")
      with ("3"%char :: list_ascii_of_string "DES") in H3.
    revert Hd H3. generalize (list_ascii_of_string suite) as s.
    induction s as [|x s IH]; intros Hd H3; [done|].
    cbn [contains] in Hd, H3.
    apply orb_false_iff in Hd as [Hd0 Hd].
    apply orb_true_iff in H3 as [H3|H3]; [|by apply IH].
    cbn [startswith] in H3. apply andb_true_iff in H3 as [_ H3].
    destruct s as [|y s]; [done|].
    cbn [contains] in Hd. apply orb_false_iff in Hd as [Hd1 _].
    congruence. }
  rewrite Hdes.
  destruct (str_contains "DES" suite).
  - pose proof (Z.mod_pos_bound (msg_len + h) 8 ltac:(lia)).
    split; [|lia].
    replace (msg_len + (msg_len + h + (8 - (msg_len + h) mod 8) - msg_len))
      with ((msg_len + h) - (msg_len + h) mod 8 + 1 * 8) by lia.
    rewrite Z.mod_add by lia.
    rewrite Zminus_mod_idemp_r, Z.sub_diag. done.
  - pose proof (Z.mod_pos_bound (msg_len + h) 16 ltac:(lia)).
    split; [|lia].
    replace (msg_len + (msg_len + h + (16 - (msg_len + h) mod 16) - msg_len))
      with ((msg_len + h) - (msg_len + h) mod 16 + 1 * 16) by lia.
    rewrite Z.mod_add by lia.
    rewrite Zminus_mod_idemp_r, Z.sub_diag. done.
Qed.

Lemma credssp_trailer_block_aligned_witness :
  (32 + _credssp_trailer 32 "ECDHE-RSA-AES256-SHA384") mod 16 = 0
  /\ 48 < _credssp_trailer 32 "ECDHE-RSA-AES256-SHA384" <= 48 + 16.
Proof.
  apply (credssp_trailer_block_aligned 32 "ECDHE-RSA-AES256-SHA384");
    vm_compute; reflexivity.
Defined.

(** X3. With a TLS context registered and its wrap succeeding,
    [_wrap_credssp] never fails: it emits four bytes that read back as the
    trailer length, then the ciphertext. [_unwrap_credssp] never looks at
    those four bytes: whatever stands there, the context gets what follows
    them. *)
Theorem credssp_frame_prefix auth hostname c data wrapped :
  auth !! hostname = Some (TLS c) ->
  tls_wrap c data = Ok wrapped ->
  (exists packed,
     _wrap_credssp auth data hostname = Ok (packed ++ wrapped)
     /\ struct_unpack_i packed
        = Ok (_credssp_trailer (Z.of_nat (length data)) (get_cipher_name c)))
  /\ (forall prefix,
        length prefix = 4%nat ->
        _unwrap_credssp auth (prefix ++ wrapped) hostname = tls_unwrap c wrapped).
Proof.
  intros Hctx Hwrap. split.
  - destruct (struct_pack_in_range
                (_credssp_trailer (Z.of_nat (length data)) (get_cipher_name c)))
      as [packed Hpack].
    { pose proof (credssp_trailer_range (Z.of_nat (length data)) (get_cipher_name c)).
      lia. }
    exists packed. unfold _wrap_credssp, contexts_getitem.
    rewrite Hctx, bind_Ok, Hwrap, bind_Ok, Hpack, bind_Ok.
    split; [done|]. by apply struct_unpack_pack.
  - intros prefix Hlen. unfold _unwrap_credssp, contexts_getitem.
    rewrite Hctx, bind_Ok.
    replace 4 with (Z.of_nat (length prefix)) by lia.
    by rewrite slice_from_app.
Qed.

Lemma credssp_frame_prefix_witness :
  _unwrap_credssp echo_auth (to_bytes "????" ++ to_bytes "hello") "server"
  = Ok (to_bytes "hello").
Proof.
  destruct (credssp_frame_prefix echo_auth "server"
              {| tls_wrap := Ok; tls_unwrap := Ok;
                 get_cipher_name := "ECDHE-RSA-AES256-GCM-SHA384" |}
              (to_bytes "hello") (to_bytes "hello") eq_refl eq_refl)
    as [_ Hprefix].
  by apply (Hprefix (to_bytes "????")).
Defined.

(** * More on the framer: hosts, chunks, headers, malformed envelopes *)

(** X4. For a host without a registered context [wrap_message] raises the
    [KeyError] of the lookup, whatever the protocol and the payload, and so
    does [unwrap_message] on an envelope of well-formed parts: the header
    is read first, then the context is looked up. *)
Theorem unknown_host_key_error auth protocol hostname :
  auth !! hostname = None ->
  (forall message,
      wrap_message (__init__ auth protocol) message hostname
      = Raise (KeyError hostname))
  /\ (forall cbs,
        known_protocol protocol -> cbs <> [] -> blobs_safe cbs ->
        unwrap_message (__init__ auth protocol)
          (frames protocol cbs ++ END_BOUNDARY) hostname
        = Raise (KeyError hostname)).
Proof.
  intros Hctx.
  assert (Hwrap : forall data, _wrap (__init__ auth protocol) data hostname
                               = Raise (KeyError hostname)).
  { intros data. unfold __init__.
    destruct (bool_decide _); simpl;
      unfold _wrap_spnego, _wrap_credssp, contexts_getitem; by rewrite Hctx. }
  assert (Hunwrap : forall data, _unwrap (__init__ auth protocol) data hostname
                                 = Raise (KeyError hostname)).
  { intros data. unfold __init__.
    destruct (bool_decide _); simpl;
      unfold _unwrap_spnego, _unwrap_credssp, contexts_getitem; by rewrite Hctx. }
  split.
  - intros message. rewrite wrap_message_chunks.
    pose proof (message_chunks_nonempty (__init__ auth protocol) message) as Hne.
    destruct (message_chunks _ message) as [|chunk chunks]; [done|].
    cbn [wrap_chunks]. unfold _wrap_message. by rewrite Hwrap.
  - intros cbs Hp Hne Hsafe. unfold unwrap_message.
    rewrite split_envelope by done.
    destruct cbs as [|cb [|cb' cbs]]; [done| |].
    + cbn [payload_parts unwrap_parts].
      rewrite header_expected_length, bind_Ok by (done || lia).
      by rewrite Hunwrap.
    + change (payload_parts protocol (cb :: cb' :: cbs))
        with (part_header protocol (str_int (Z.of_nat (length cb.1)))
              :: (OCTET_STREAM ++ cb.2) :: payload_parts protocol (cb' :: cbs)).
      cbn [unwrap_parts].
      rewrite header_expected_length, bind_Ok by (done || lia).
      by rewrite Hunwrap.
Qed.

Lemma unknown_host_key_error_witness :
  wrap_message (__init__ echo_auth CREDSSP) (to_bytes "hello") "elsewhere"
  = Raise (KeyError "elsewhere")
  /\ unwrap_message (__init__ echo_auth CREDSSP) hello_envelope "elsewhere"
     = Raise (KeyError "elsewhere").
Proof.
  destruct (unknown_host_key_error echo_auth CREDSSP "elsewhere" eq_refl)
    as [Hwrap Hunwrap].
  split; [apply Hwrap|].
  apply (Hunwrap [(to_bytes "hello",
                   [byte_of_Z 16; byte_of_Z 0; byte_of_Z 0; byte_of_Z 0]
                   ++ to_bytes "hello")]).
  - by left.
  - done.
  - vm_compute. by split.
Defined.

(** X5. Under the CredSSP mechanism the chunks of a message join to the
    message, there are as many as 16384-byte blocks are needed to hold it
    (one for an empty message), and the chunk with index [i] has 16384
    bytes, or what is left of the message after [16384 * i] bytes when that
    is less. *)
Theorem message_chunks_sizes auth message :
  let chunks := message_chunks (__init__ auth CREDSSP) message in
  let len := Z.of_nat (length message) in
  concat chunks = message
  /\ Z.of_nat (length chunks) = Z.max 1 ((len + 16383) / 16384)
  /\ forall (i : nat) chunk,
       chunks !! i = Some chunk ->
       Z.of_nat (length chunk) = Z.min 16384 (len - 16384 * Z.of_nat i).
Proof.
  cbv zeta. split; [apply concat_message_chunks|].
  unfold message_chunks. rewrite protocol_init.
  rewrite bool_decide_eq_true_2 by done. cbn [andb].
  unfold SIXTEEN_KB.
  destruct (Z.of_nat (length message) >? 16384) eqn:Hlen.
  - apply Z.gtb_lt in Hlen. unfold range.
    set (len := Z.of_nat (length message)) in *.
    replace (len - 0 + 16384 - 1) with (len + 16383) by lia.
    assert (Hq : 2 <= (len + 16383) / 16384) by (apply Z.div_le_lower_bound; lia).
    split.
    + rewrite !length_map, length_seq. lia.
    + intros i chunk Hi.
      change (map ?f (map ?g ?l)) with (f <$> (g <$> l)) in Hi.
      rewrite !list_lookup_fmap in Hi.
      destruct (seq 0 _ !! i) as [k|] eqn:Hk; [|done].
      apply lookup_seq in Hk as [-> Hk]. simpl in Hi. injection Hi as <-.
      pose proof (Z.div_mod (len + 16383) 16384 ltac:(lia)).
      pose proof (Z.mod_pos_bound (len + 16383) 16384 ltac:(lia)).
      rewrite slice_nonneg by lia.
      rewrite length_firstn, length_skipn. fold len. lia.
  - rewrite Z.gtb_ltb in Hlen. apply Z.ltb_ge in Hlen.
    split.
    + cbn [length]. assert ((Z.of_nat (length message) + 16383) / 16384 <= 1).
      { apply Z.lt_succ_r, Z.div_lt_upper_bound; lia. }
      lia.
    + intros [|i] chunk Hi; [|done]. injection Hi as <-. lia.
Qed.

(** X6. The text [_wrap_message] writes before the wrapped data of a chunk
    of [n] bytes splits, at the boundary lines, into the header and the
    octet-stream marker, and [unwrap_message]'s reading of the header gives
    [n] back. *)
Theorem length_field_read_back protocol n :
  known_protocol protocol -> 0 <= n ->
  exists header,
    filter_nonempty
      (split PART_BOUNDARY (to_bytes (part_head protocol (str_int n))))
    = [header; OCTET_STREAM]
    /\ expected_length_of (strip isspace_byte header) = Ok n.
Proof.
  intros Hp Hn. exists (part_header protocol (str_int n)).
  split; [|by apply header_expected_length].
  destruct boundary_facts as (_ & _ & _ & Hoct & _).
  rewrite part_head_bytes. unfold split.
  rewrite split_from_sep by done.
  rewrite split_from_no_match by (by apply header_no_match).
  rewrite app_nil_r, split_from_sep, rev_involutive by done.
  rewrite split_from_end by (by apply all_mismatch_no_match).
  pose proof (part_header_nonempty protocol (str_int n) Hp) as Hne.
  unfold filter_nonempty. cbn [List.filter rev app].
  by destruct (part_header protocol (str_int n)).
Qed.

Lemma length_field_read_back_witness :
  exists header,
    filter_nonempty
      (split PART_BOUNDARY (to_bytes (part_head SPNEGO (str_int 16384))))
    = [header; OCTET_STREAM]
    /\ expected_length_of (strip isspace_byte header) = Ok 16384.
Proof. apply length_field_read_back; [by right|lia]. Defined.

Lemma split_absent {A : Type} `{EqDecision A} (sep s : list A) :
  sep <> [] -> contains sep s = false -> split sep s = [s].
Proof.
  intros Hsep Hc. unfold split.
  by rewrite split_from_end by (by apply contains_no_match_end).
Qed.

(** X7. An envelope whose header has no [Length=] field is refused with an
    [IndexError], before any context is looked up and whatever the payload
    holds. *)
Theorem missing_length_field self header payload hostname :
  header <> [] -> payload <> [] ->
  contains PART_BOUNDARY header = false ->
  contains PART_BOUNDARY payload = false ->
  contains LENGTH_FIELD (strip isspace_byte header) = false ->
  unwrap_message self (PART_BOUNDARY ++ header ++ PART_BOUNDARY ++ payload)
    hostname
  = Raise IndexError.
Proof.
  intros Hh Hp Hch Hcp Hlen. unfold unwrap_message, split.
  destruct boundary_facts as (HPB & _).
  rewrite split_from_sep by done.
  rewrite split_from_no_match.
  2:{ rewrite HPB, <- app_assoc. by apply blob_no_match. }
  rewrite app_nil_r, split_from_sep, rev_involutive by done.
  rewrite split_from_end by (by apply contains_no_match_end).
  unfold filter_nonempty. cbn [List.filter rev app].
  destruct header as [|h0 header]; [done|].
  destruct payload as [|p0 payload]; [done|].
  cbn [unwrap_parts]. unfold expected_length_of.
  by rewrite split_absent.
Qed.

Lemma missing_length_field_witness :
  unwrap_message (__init__ echo_auth CREDSSP)
    (PART_BOUNDARY ++ to_bytes "Content-Type: text/plain"
     ++ PART_BOUNDARY ++ to_bytes "data") "server"
  = Raise IndexError.
Proof. apply missing_length_field; by vm_compute. Defined.

(** X8. A message made of boundary lines alone (the empty message among
    them) unwraps to the empty byte string, without any context. *)
Theorem unwrap_boundaries_only self hostname (n : nat) :
  unwrap_message self (concat (repeat PART_BOUNDARY n)) hostname = Ok [].
Proof.
  unfold unwrap_message, split.
  assert (Hparts : forall cur, filter_nonempty
            (split_from PART_BOUNDARY O cur (concat (repeat PART_BOUNDARY n)))
            = filter_nonempty [rev cur]).
  { induction n as [|n IH]; intros cur; [done|].
    cbn [repeat concat]. rewrite split_from_sep by done.
    unfold filter_nonempty in *. cbn [List.filter]. rewrite IH.
    cbn [rev List.filter]. by destruct (rev cur). }
  by rewrite Hparts.
Qed.

Lemma wrap_chunks_inv self hostname chunks : forall encrypted_msg out,
  wrap_chunks self chunks hostname encrypted_msg = Ok out ->
  exists blobs,
    Forall2 (fun chunk blob => _wrap self chunk hostname = Ok blob) chunks blobs
    /\ out = encrypted_msg ++ frames (protocol self) (zip chunks blobs).
Proof.
  induction chunks as [|chunk chunks IH]; intros acc out Hout.
  - injection Hout as <-. exists []. split; [constructor|]. by rewrite app_nil_r.
  - cbn [wrap_chunks] in Hout. rewrite _wrap_message_frame in Hout.
    destruct (_wrap self chunk hostname) as [blob|] eqn:Hblob; [|done].
    rewrite !bind_Ok in Hout.
    destruct (IH _ _ Hout) as (blobs & Hall & ->).
    exists (blob :: blobs). split; [by constructor|].
    unfold frames. cbn [zip zip_with flat_map fst snd]. by rewrite <- app_assoc.
Qed.

(** X9. Whenever [wrap_message] returns, the envelope is, chunk by chunk,
    boundary line, header with the chunk's length, boundary line, marker
    and the mechanism's wrapping of that chunk, closed by the end boundary;
    and the content type is the multi-part one exactly when the mechanism
    is CredSSP and the message is longer than 16384 bytes. *)
Theorem wrap_message_layout self message hostname content_type framed :
  wrap_message self message hostname = Ok (content_type, framed) ->
  exists blobs,
    Forall2 (fun chunk blob => _wrap self chunk hostname = Ok blob)
            (message_chunks self message) blobs
    /\ framed
       = frames (protocol self) (zip (message_chunks self message) blobs)
         ++ END_BOUNDARY
    /\ content_type
       = (if bool_decide (protocol self = CREDSSP)
             && (Z.of_nat (length message) >? 16384)
          then "multipart/x-multi-encrypted" else "multipart/encrypted")%string.
Proof.
  rewrite wrap_message_chunks. intros Hw.
  apply bind_Ok_inv in Hw as (out & Hout & [= <- <-]).
  apply wrap_chunks_inv in Hout as (blobs & Hall & ->).
  exists blobs. by rewrite app_nil_l.
Qed.

Lemma wrap_message_layout_witness :
  exists blobs,
    Forall2 (fun chunk blob =>
               _wrap (__init__ signing_auth SPNEGO) chunk "server" = Ok blob)
            (message_chunks (__init__ signing_auth SPNEGO) (to_bytes "hello"))
            blobs
    /\ frames SPNEGO
         [(to_bytes "hello",
           [byte_of_Z 9; byte_of_Z 0; byte_of_Z 0; byte_of_Z 0]
           ++ to_bytes "signature" ++ to_bytes "hello")]
       ++ END_BOUNDARY
       = frames (protocol (__init__ signing_auth SPNEGO))
           (zip (message_chunks (__init__ signing_auth SPNEGO) (to_bytes "hello"))
                blobs)
         ++ END_BOUNDARY
    /\ "multipart/encrypted"%string
       = (if bool_decide (protocol (__init__ signing_auth SPNEGO) = CREDSSP)
             && (Z.of_nat (length (to_bytes "hello")) >? 16384)
          then "multipart/x-multi-encrypted" else "multipart/encrypted")%string.
Proof.
  apply (wrap_message_layout (__init__ signing_auth SPNEGO)
           (to_bytes "hello") "server").
  vm_compute. reflexivity.
Defined.

(** * More on the enum codec and the typed values *)

Import PSEnumBase EnumSpec.

Section DictMore.
Context {K V : Type} `{EqDecision K}.
Implicit Types d : list (K * V).

Lemma dict_get_In d k v : dict_get d k = Some v -> In (k, v) d.
Proof.
  induction d as [|[k0 v0] d IH]; simpl; [done|].
  destruct (decide (k = k0)) as [->|Hk].
  - intros [= ->]. by left.
  - intros Hd. right. by apply IH.
Qed.

Lemma dict_get_unique d k v :
  NoDup (map fst d) -> In (k, v) d -> dict_get d k = Some v.
Proof.
  induction d as [|[k0 v0] d IH]; simpl; [done|].
  intros [Hk0 Hd]%NoDup_cons [[= -> ->]|Hin].
  - by rewrite decide_True.
  - destruct (decide (k = k0)) as [->|Hk]; [|by apply IH].
    exfalso. apply Hk0, list_elem_of_In, in_map_iff. by exists (k0, v).
Qed.

Lemma value_unique (d : list (K * V)) k1 k2 v :
  NoDup (map snd d) -> In (k1, v) d -> In (k2, v) d -> k1 = k2.
Proof.
  induction d as [|[k0 v0] d IH]; simpl; [done|].
  intros [Hv0 Hd]%NoDup_cons [[= -> ->]|H1] [[= ->]|H2]; try done.
  - exfalso. apply Hv0, list_elem_of_In, in_map_iff. by exists (k2, v).
  - subst. exfalso. apply Hv0, list_elem_of_In, in_map_iff. by exists (k1, v).
  - by apply IH.
Qed.

End DictMore.

Lemma label_of_In (c : cls) v label :
  label_of c v = Some label -> In (label, v) (ENUM_MAP c).
Proof.
  unfold label_of. destruct (List.find _ _) as [[l0 v0]|] eqn:Hf; [|done].
  intros [= <-]. apply find_some in Hf as [Hin Hv]. apply in_rev in Hin.
  apply Z.eqb_eq in Hv. simpl in Hv. by subst.
Qed.

(** X10. In an enum that is not a flag set and whose values are all
    different, a label that encodes decodes to itself. *)
Theorem nonflag_decode_encode (c : cls) label v :
  IS_FLAGS c = false -> NoDup (map snd (ENUM_MAP c)) ->
  __new__ c (Text label) = Ok v -> __str__ c v = label.
Proof.
  intros Hflags Hvals. unfold __new__, __str__. rewrite Hflags. cbn [negb].
  destruct (dict_get (ENUM_MAP c) label) as [v'|] eqn:Hget; [|done].
  intros [= ->]. apply dict_get_In in Hget.
  rewrite inverted_get.
  destruct (label_of c v) as [l0|] eqn:Hl.
  - apply label_of_In in Hl. simpl. by apply (value_unique (ENUM_MAP c) l0 label v).
  - exfalso. assert (Hs : is_Some (label_of c v)) by (apply label_of_Some; eauto).
    rewrite Hl in Hs. by destruct Hs.
Qed.

(** X11. In an enum that is not a flag set, a defined value decodes to a
    label that encodes back to the value; an integer that is no defined
    value decodes to its decimal text. *)
Theorem nonflag_encode_decode (c : cls) v :
  IS_FLAGS c = false -> NoDup (map fst (ENUM_MAP c)) ->
  ((exists label, In (label, v) (ENUM_MAP c)) ->
   __new__ c (Text (__str__ c v)) = Ok v)
  /\ ((forall label, ~ In (label, v) (ENUM_MAP c)) -> __str__ c v = str_int v).
Proof.
  intros Hflags Hkeys. unfold __new__, __str__. rewrite Hflags. cbn [negb].
  rewrite inverted_get. split.
  - intros Hdef. apply label_of_Some in Hdef as [l0 Hl]. rewrite Hl. simpl.
    apply label_of_In in Hl. by rewrite (dict_get_unique _ _ _ Hkeys Hl).
  - intros Hundef. destruct (label_of c v) as [l0|] eqn:Hl; [|done].
    apply label_of_In in Hl. by destruct (Hundef l0).
Qed.

Lemma nonflag_decode_encode_witness : __str__ apartment_state 1 = "MTA"%string.
Proof.
  apply (nonflag_decode_encode apartment_state "MTA" 1); [done| |done].
  apply NoDup_ListNoDup. repeat constructor; simpl; intuition discriminate.
Defined.

Lemma nonflag_encode_decode_witness :
  __new__ apartment_state (Text (__str__ apartment_state 2)) = Ok 2
  /\ __str__ apartment_state 7 = str_int 7.
Proof.
  assert (Hkeys : NoDup (map fst (ENUM_MAP apartment_state))).
  { apply NoDup_ListNoDup. repeat constructor; simpl; intuition discriminate. }
  split.
  - apply (nonflag_encode_decode apartment_state 2 eq_refl Hkeys).
    exists "Unknown"%string. simpl. auto.
  - apply (nonflag_encode_decode apartment_state 7 eq_refl Hkeys).
    intros label [H|[H|[H|[]]]]; discriminate H.
Defined.

(** *** The loop of [__str__], bit by bit *)

Lemma fold_lor_from vals : forall acc,
  fold_left Z.lor vals acc = Z.lor acc (fold_left Z.lor vals 0).
Proof.
  induction vals as [|v vals IH]; intros acc; cbn [fold_left].
  - by rewrite Z.lor_0_r.
  - rewrite (IH (Z.lor acc v)), (IH (Z.lor 0 v)), Z.lor_0_l.
    by rewrite Z.lor_assoc.
Qed.

Lemma bit_of_eq (a b : Z) (i : Z) : a = b -> Z.testbit a i = Z.testbit b i.
Proof. by intros ->. Qed.

Lemma lor_ldiff_contained rem v :
  Z.land rem v = v -> Z.lor v (Z.ldiff rem v) = rem.
Proof.
  intros Hv. apply Z.bits_inj'. intros i Hi.
  apply (bit_of_eq _ _ i) in Hv. rewrite Z.land_spec in Hv.
  rewrite Z.lor_spec, Z.ldiff_spec.
  destruct (Z.testbit rem i), (Z.testbit v i); done.
Qed.

Lemma land_disjoint_part v rem others residual :
  Z.ldiff rem v = Z.lor others residual -> Z.land v residual = 0.
Proof.
  intros Hr. apply Z.bits_inj'. intros i Hi.
  apply (bit_of_eq _ _ i) in Hr. rewrite Z.ldiff_spec, Z.lor_spec in Hr.
  rewrite Z.land_spec, Z.bits_0.
  destruct (Z.testbit rem i), (Z.testbit v i), (Z.testbit others i),
    (Z.testbit residual i); done.
Qed.

Lemma land_part_contained rem others residual v :
  rem = Z.lor others residual -> Z.land residual v = v -> Z.land rem v = v.
Proof.
  intros Hr Hv. apply Z.bits_inj'. intros i Hi.
  apply (bit_of_eq _ _ i) in Hr, Hv. rewrite Z.lor_spec in Hr.
  rewrite Z.land_spec in Hv. rewrite Z.land_spec.
  destruct (Z.testbit rem i), (Z.testbit v i), (Z.testbit others i),
    (Z.testbit residual i); done.
Qed.

(** what the loop of [__str__] leaves: the values it took and the residue
    make up the integer, share no bit, and no candidate fits the residue *)
Lemma str_step_fold enum_map candidates : forall rem flags_set,
  exists vals residual,
    fold_left (str_step enum_map) candidates (rem, flags_set)
    = (residual,
       flags_set ++ map (fun v => default EmptyString (dict_get enum_map v)) vals)
    /\ Forall (fun v => In v candidates) vals
    /\ Z.lor (fold_left Z.lor vals 0) residual = rem
    /\ Z.land (fold_left Z.lor vals 0) residual = 0
    /\ Forall (fun v => v <> 0 -> Z.land residual v <> v) candidates.
Proof.
  induction candidates as [|v candidates IH]; intros rem flags_set.
  - exists [], rem. cbn [fold_left map]. rewrite app_nil_r.
    split; [done|]. split; [constructor|]. split; [by rewrite Z.lor_0_l|].
    split; [done|constructor].
  - cbn [fold_left str_step]. destruct (Z.land rem v =? v) eqn:Hv.
    + apply Z.eqb_eq in Hv. rewrite <- Z.ldiff_land.
      destruct (IH (Z.ldiff rem v)
                  (flags_set ++ [default EmptyString (dict_get enum_map v)]))
        as (vals & residual & Hfold & Hin & Hor & Hand & Hfit).
      assert (Hdis : Z.land v residual = 0)
        by (by apply (land_disjoint_part v rem (fold_left Z.lor vals 0))).
      exists (v :: vals), residual. rewrite Hfold. cbn [map fold_left].
      rewrite <- app_assoc, Z.lor_0_l, (fold_lor_from vals v).
      split; [done|]. split.
      { constructor; [by left|]. eapply Forall_impl; [exact Hin|].
        intros w Hw. by right. }
      split; [by rewrite <- Z.lor_assoc, Hor, lor_ldiff_contained|].
      split; [by rewrite Z.land_lor_distr_l, Hdis, Hand|].
      constructor; [|done]. intros Hnz Hc. rewrite Z.land_comm, Hdis in Hc.
      by apply Hnz.
    + apply Z.eqb_neq in Hv.
      destruct (IH rem flags_set) as (vals & residual & Hfold & Hin & Hor & Hand & Hfit).
      exists vals, residual. rewrite Hfold.
      split; [done|]. split.
      { eapply Forall_impl; [exact Hin|]. intros w Hw. by right. }
      split; [done|]. split; [done|].
      constructor; [|done]. intros _ Hc. apply Hv.
      by apply (land_part_contained rem (fold_left Z.lor vals 0) residual).
Qed.

(** the candidates [__str__] sorts are the non-zero defined values *)
Lemma candidate_values (c : cls) v :
  In v (sorted_reverse
          (List.filter (fun v => negb (v =? 0))
             (dict_keys (dict_of_pairs
                (map (fun kv => (kv.2, kv.1)) (ENUM_MAP c))))))
  <-> v <> 0 /\ exists label, In (label, v) (ENUM_MAP c).
Proof.
  unfold sorted_reverse. rewrite <- list_elem_of_In, merge_sort_Permutation.
  rewrite list_elem_of_In, filter_In, dict_keys_get, inverted_get, label_of_Some.
  rewrite negb_true_iff, Z.eqb_neq. tauto.
Qed.



Lemma str_step_nothing_fits enum_map candidates rem flags_set :
  Forall (fun v => Z.land rem v <> v) candidates ->
  fold_left (str_step enum_map) candidates (rem, flags_set) = (rem, flags_set).
Proof.
  induction 1 as [|v candidates Hv Hall IH]; [done|].
  cbn [fold_left str_step]. by rewrite (proj2 (Z.eqb_neq _ _) Hv).
Qed.

(** X14. A flag value that is no defined value and into which no non-zero
    defined value fits decodes to its decimal text; so does 0 when no label
    has the value 0. *)
Theorem flags_decode_nothing_fits (c : cls) z :
  IS_FLAGS c = true ->
  (forall label, ~ In (label, z) (ENUM_MAP c)) ->
  (forall label v, In (label, v) (ENUM_MAP c) -> v <> 0 -> Z.land z v <> v) ->
  __str__ c z = str_int z.
Proof.
  intros Hflags Hundef Hfit. unfold __str__. rewrite Hflags. cbn [negb].
  rewrite inverted_get.
  destruct (label_of c z) as [l0|] eqn:Hl.
  { apply label_of_In in Hl. by destruct (Hundef l0). }
  rewrite str_step_nothing_fits.
  - destruct (z =? 0); done.
  - apply List.Forall_forall. intros v [Hnz [label Hlabel]]%candidate_values.
    by apply (Hfit label).
Qed.

Lemma flags_decode_nothing_fits_witness :
  __str__ {| ENUM_MAP := [("Read", 1); ("Write", 2)]; IS_FLAGS := true |} 0
  = "0"%string
  /\ __str__ access_flags 8 = "8"%string.
Proof.
  split.
  - apply (flags_decode_nothing_fits
             {| ENUM_MAP := [("Read", 1); ("Write", 2)]; IS_FLAGS := true |} 0
             eq_refl).
    + intros label [H|[H|[]]]; discriminate H.
    + intros label v _ Hnz Hv. rewrite Z.land_0_l in Hv. by apply Hnz.
  - apply (flags_decode_nothing_fits access_flags 8 eq_refl).
    + intros label [H|[H|[H|[H|[]]]]]; discriminate H.
    + intros label v [H|[H|[H|[H|[]]]]] Hnz; injection H as _ <-; done.
Defined.

(** *** Texts of several labels *)

Lemma list_ascii_of_string_app (a b : string) :
  list_ascii_of_string (a +:+ b)
  = list_ascii_of_string a ++ list_ascii_of_string b.
Proof. induction a as [|x a IH]; simpl; [done|]. by rewrite IH. Qed.

Lemma split_char_app {A : Type} `{EqDecision A} (x : A) (a b : list A) :
  forall cur,
  split_from [x] O cur (a ++ x :: b)
  = split_from [x] O cur a ++ split_from [x] O [] b.
Proof.
  induction a as [|y a IH]; intros cur.
  - cbn [app split_from startswith length Nat.pred].
    by rewrite bool_decide_eq_true_2.
  - cbn [app split_from startswith length Nat.pred]. rewrite andb_true_r.
    destruct (bool_decide (x = y)); [by rewrite IH|apply IH].
Qed.

Lemma str_split_comma_app (a b : string) :
  str_split "," (a +:+ "," +:+ b) = str_split "," a ++ str_split "," b.
Proof.
  unfold str_split, split. rewrite !list_ascii_of_string_app.
  change (list_ascii_of_string ",") with [","%char].
  cbn [app]. by rewrite split_char_app, map_app.
Qed.

Lemma new_flags_app (c : cls) labels1 labels2 : forall enum_value,
  new_flags c (labels1 ++ labels2) enum_value
  = (v ← new_flags c labels1 enum_value; new_flags c labels2 v).
Proof.
  induction labels1 as [|label labels1 IH]; intros enum_value; [done|].
  cbn [app new_flags]. destruct (dict_get _ _); [apply IH|done].
Qed.

Lemma new_flags_from (c : cls) labels : forall enum_value v,
  new_flags c labels enum_value = Ok v ->
  exists w, forall start, new_flags c labels start = Ok (Z.lor start w).
Proof.
  induction labels as [|label labels IH]; intros enum_value v Hv.
  - exists 0. intros start. cbn [new_flags]. by rewrite Z.lor_0_r.
  - cbn [new_flags] in *.
    destruct (dict_get (ENUM_MAP c) (str_strip label)) as [x|]; [|done].
    destruct (IH _ _ Hv) as [w Hw]. exists (Z.lor x w). intros start.
    by rewrite Hw, Z.lor_assoc.
Qed.

(** X15. For a flag enum, two texts that encode, joined by a comma, encode
    to the OR of their values, in either order; and when the first text is
    refused, so is the joined text, with the same error. *)
Theorem flags_encode_joined (c : cls) (a b : string) :
  IS_FLAGS c = true ->
  (forall x y,
      __new__ c (Text a) = Ok x -> __new__ c (Text b) = Ok y ->
      __new__ c (Text (a +:+ "," +:+ b)) = Ok (Z.lor x y)
      /\ __new__ c (Text (b +:+ "," +:+ a)) = Ok (Z.lor x y))
  /\ (forall e,
        __new__ c (Text a) = Raise e ->
        __new__ c (Text (a +:+ "," +:+ b)) = Raise e).
Proof.
  intros Hflags. unfold __new__. rewrite Hflags. split.
  - intros x y Hx Hy.
    destruct (new_flags_from _ _ _ _ Hx) as [wx Hwx].
    destruct (new_flags_from _ _ _ _ Hy) as [wy Hwy].
    assert (x = wx) as ->.
    { rewrite Hwx in Hx. injection Hx as <-. by rewrite Z.lor_0_l. }
    assert (y = wy) as ->.
    { rewrite Hwy in Hy. injection Hy as <-. by rewrite Z.lor_0_l. }
    rewrite !str_split_comma_app, !new_flags_app, Hwx, Hwy, !bind_Ok, Hwx, Hwy.
    rewrite !Z.lor_0_l. split; [done|]. by rewrite Z.lor_comm.
  - intros e He. by rewrite str_split_comma_app, new_flags_app, He.
Qed.

Lemma flags_encode_joined_witness :
  __new__ access_flags (Text "Write, Read,Execute") = Ok 7
  /\ __new__ access_flags (Text "Execute,Write, Read") = Ok 7
  /\ __new__ access_flags (Text "Delete,Read")
     = Raise (invalid_flag access_flags "Delete").
Proof.
  destruct (flags_encode_joined access_flags "Write, Read" "Execute" eq_refl)
    as [Hjoin _].
  destruct (Hjoin 3 4 eq_refl eq_refl) as [H1 H2].
  destruct (flags_encode_joined access_flags "Delete" "Read" eq_refl)
    as [_ Hfail].
  split; [exact H1|]. split; [exact H2|].
  by apply Hfail.
Defined.

(** X16. Assigning [psobject] to a GUID value a second time replaces the
    first metadata: the outcome is that of assigning the second alone; and
    no other entry of the instance dictionary changes. *)
Theorem guid_setattr_replaces (self : PSGuid.t) (first second : PSGuid.attr) :
  (self1 ← PSGuid.__setattr__ self "psobject" first;
   PSGuid.__setattr__ self1 "psobject" second)
  = PSGuid.__setattr__ self "psobject" second
  /\ (forall self' name,
        PSGuid.__setattr__ self "psobject" second = Ok self' ->
        name <> "psobject"%string ->
        PSGuid.__dict__ self' !! name = PSGuid.__dict__ self !! name).
Proof.
  split.
  - unfold PSGuid.__setattr__. rewrite bool_decide_eq_true_2 by done.
    rewrite bind_Ok. cbn [PSGuid.int PSGuid.__dict__].
    by rewrite insert_insert_eq.
  - unfold PSGuid.__setattr__. rewrite bool_decide_eq_true_2 by done.
    intros self' name [= <-] Hname. cbn [PSGuid.__dict__].
    by rewrite lookup_insert_ne.
Qed.

Lemma guid_setattr_replaces_witness :
  PSGuid.__dict__
    {| PSGuid.int := 7;
       PSGuid.__dict__ := <["psobject" := PSGuid.Other 2]> {[ "tag" := PSGuid.Other 1 ]} |}
    !! "tag"
  = Some (PSGuid.Other 1).
Proof.
  destruct (guid_setattr_replaces
              {| PSGuid.int := 7; PSGuid.__dict__ := {[ "tag" := PSGuid.Other 1 ]} |}
              (PSGuid.Other 3) (PSGuid.Other 2)) as [_ Hother].
  exact (Hother _ "tag" eq_refl ltac:(discriminate)).
Defined.

(** *** Decoding, then encoding *)

Lemma string_append_assoc (a b c : string) :
  (a +:+ b) +:+ c = a +:+ (b +:+ c).
Proof.
  induction a as [|x a IH]; [done|].
  change (String x ((a +:+ b) +:+ c) = String x (a +:+ (b +:+ c))).
  by rewrite IH.
Qed.

Lemma str_split_no_comma (s : string) :
  str_contains "," s = false -> str_split "," s = [s].
Proof.
  intros Hs. unfold str_split, str_contains in *.
  rewrite split_absent by done. cbn [map].
  by rewrite string_of_list_ascii_of_string.
Qed.

Lemma str_contains_comma_app (a b : string) :
  str_contains "," a = false -> str_contains "," b = false ->
  str_contains "," (a +:+ b) = false.
Proof.
  unfold str_contains. rewrite list_ascii_of_string_app.
  change (list_ascii_of_string ",") with [","%char].
  generalize (list_ascii_of_string a) as la.
  generalize (list_ascii_of_string b) as lb. intros lb la Ha Hb.
  induction la as [|x la IH]; [done|].
  cbn [app contains startswith] in *. rewrite andb_true_r in *.
  apply orb_false_iff in Ha as [Hx Ha]. rewrite Hx. by apply IH.
Qed.

(** the text [__str__] joins splits back into its labels *)
Lemma str_split_joined (labels : list string) : forall prefix,
  labels <> [] ->
  str_contains "," prefix = false ->
  Forall (fun label => str_contains "," label = false) labels ->
  str_split "," (prefix +:+ str_join ", " labels)
  = match labels with
    | [] => []
    | label :: labels' =>
        (prefix +:+ label) :: map (fun l => " " +:+ l)%string labels'
    end.
Proof.
  induction labels as [|label labels IH]; intros prefix Hne Hp Hall; [done|].
  apply Forall_cons in Hall as [Hl Hall].
  destruct labels as [|label' labels].
  - cbn [str_join String.concat map].
    by rewrite str_split_no_comma by (by apply str_contains_comma_app).
  - change (str_join ", " (label :: label' :: labels))
      with (label +:+ ", " +:+ str_join ", " (label' :: labels)).
    change (", " +:+ str_join ", " (label' :: labels))%string
      with ("," +:+ (" " +:+ str_join ", " (label' :: labels)))%string.
    rewrite <- string_append_assoc, str_split_comma_app.
    rewrite str_split_no_comma by (by apply str_contains_comma_app).
    rewrite (IH " "%string) by done. done.
Qed.

Lemma str_strip_space (s : string) : str_strip (" " +:+ s) = str_strip s.
Proof. done. Qed.

Lemma tokens_joined (labels : list string) :
  labels <> [] ->
  Forall (fun label => str_strip label = label
                       /\ str_contains "," label = false) labels ->
  map str_strip (str_split "," (str_join ", " labels)) = labels.
Proof.
  intros Hne Hall.
  change (str_join ", " labels) with (EmptyString +:+ str_join ", " labels).
  rewrite str_split_joined; [|done|done|].
  2:{ eapply Forall_impl; [exact Hall|]. by intros l [_ ?]. }
  destruct labels as [|label labels]; [done|].
  apply Forall_cons in Hall as [[Hl _] Hall]. cbn [map].
  change (EmptyString +:+ label) with label. rewrite Hl. f_equal.
  induction Hall as [|l ls [Hs _] Hls IH]; [done|].
  cbn [map]. by rewrite str_strip_space, Hs, IH.
Qed.

(** the values a flags text encodes to *)
Lemma new_flags_values (c : cls) labels : forall enum_value z,
  new_flags c labels enum_value = Ok z ->
  exists vals,
    length vals = length labels
    /\ Forall (fun v => exists label, In (label, v) (ENUM_MAP c)) vals
    /\ z = Z.lor enum_value (fold_left Z.lor vals 0).
Proof.
  induction labels as [|label labels IH]; intros enum_value z Hz.
  - injection Hz as <-. exists []. by rewrite Z.lor_0_r.
  - cbn [new_flags] in Hz.
    destruct (dict_get (ENUM_MAP c) (str_strip label)) as [v|] eqn:Hv; [|done].
    destruct (IH _ _ Hz) as (vals & Hlen & Hall & ->).
    exists (v :: vals). split; [cbn [length]; by rewrite Hlen|]. split.
    + constructor; [|done]. eexists. by apply dict_get_In.
    + cbn [fold_left]. by rewrite Z.lor_0_l, (fold_lor_from vals v), Z.lor_assoc.
Qed.

Lemma land_fold_lor_member vals v :
  In v vals -> Z.land (fold_left Z.lor vals 0) v = v.
Proof.
  induction vals as [|w vals IH]; [done|].
  cbn [fold_left]. rewrite Z.lor_0_l, (fold_lor_from vals w).
  rewrite Z.land_lor_distr_l. intros [->|Hin].
  - rewrite Z.land_diag. apply Z.bits_inj'. intros i Hi.
    rewrite Z.lor_spec, Z.land_spec. by destruct (Z.testbit v i), (Z.testbit _ i).
  - rewrite (IH Hin). apply Z.bits_inj'. intros i Hi.
    rewrite Z.lor_spec, Z.land_spec. by destruct (Z.testbit v i), (Z.testbit w i).
Qed.

Lemma land_fold_lor_disjoint vals v :
  Forall (fun w => Z.land w v = 0) vals -> Z.land (fold_left Z.lor vals 0) v = 0.
Proof.
  induction 1 as [|w vals Hw Hall IH]; [done|].
  cbn [fold_left]. rewrite Z.lor_0_l, (fold_lor_from vals w).
  by rewrite Z.land_lor_distr_l, Hw, IH.
Qed.

Lemma land_split_part z others residual v :
  Z.lor others residual = z -> Z.land z v = v -> Z.land others v = 0 ->
  Z.land residual v = v.
Proof.
  intros Hz Hv Ho. apply Z.bits_inj'. intros i Hi.
  apply (bit_of_eq _ _ i) in Hz, Hv, Ho.
  rewrite Z.lor_spec in Hz. rewrite Z.land_spec in Hv.
  rewrite Z.land_spec, Z.bits_0 in Ho. rewrite Z.land_spec.
  destruct (Z.testbit z i), (Z.testbit v i), (Z.testbit others i),
    (Z.testbit residual i); done.
Qed.

Lemma land_fold_lor_covered taken vals :
  Forall (fun v => v = 0 \/ In v taken) vals ->
  Z.land (fold_left Z.lor taken 0) (fold_left Z.lor vals 0)
  = fold_left Z.lor vals 0.
Proof.
  induction 1 as [|v vals Hv Hall IH]; [by rewrite Z.land_0_r|].
  cbn [fold_left]. rewrite Z.lor_0_l, (fold_lor_from vals v).
  rewrite Z.land_lor_distr_r, IH. f_equal.
  destruct Hv as [->|Hin]; [by rewrite Z.land_0_r|].
  by apply land_fold_lor_member.
Qed.

Lemma residual_zero z others residual :
  Z.lor others residual = z -> Z.land others residual = 0 ->
  Z.land others z = z -> residual = 0.
Proof.
  intros Hz Hd Hc. apply Z.bits_inj'. intros i Hi.
  apply (bit_of_eq _ _ i) in Hz, Hd, Hc.
  rewrite Z.lor_spec in Hz. rewrite Z.land_spec, Z.bits_0 in Hd.
  rewrite Z.land_spec in Hc. rewrite Z.bits_0.
  destruct (Z.testbit z i), (Z.testbit others i), (Z.testbit residual i); done.
Qed.

(** X17. In a flag enum whose labels are unique and written without
    commas or surrounding blanks, and whose different values share no bit,
    every integer that some text encodes to decodes to a text that encodes
    to the same integer. *)
Theorem flags_decode_then_encode (c : cls) (text : string) (z : Z) :
  IS_FLAGS c = true ->
  NoDup (map fst (ENUM_MAP c)) ->
  Forall (fun kv => str_strip kv.1 = kv.1 /\ str_contains "," kv.1 = false)
         (ENUM_MAP c) ->
  (forall l1 v1 l2 v2,
      In (l1, v1) (ENUM_MAP c) -> In (l2, v2) (ENUM_MAP c) ->
      v1 <> v2 -> Z.land v1 v2 = 0) ->
  __new__ c (Text text) = Ok z ->
  __new__ c (Text (__str__ c z)) = Ok z.
Proof.
  intros Hflags Hkeys Hclean Hdisjoint Hz.
  assert (Hlabel : forall label v, In (label, v) (ENUM_MAP c) ->
            str_strip label = label /\ str_contains "," label = false).
  { intros label v Hin.
    apply (proj1 (List.Forall_forall _ _) Hclean (label, v) Hin). }
  assert (Hone : forall label v, In (label, v) (ENUM_MAP c) ->
            __new__ c (Text label) = Ok v).
  { intros label v Hin. destruct (Hlabel _ _ Hin) as [Hs Hc].
    unfold __new__. rewrite Hflags, str_split_no_comma by done.
    cbn [new_flags]. rewrite Hs, (dict_get_unique _ _ _ Hkeys Hin).
    by rewrite Z.lor_0_l. }
  unfold __new__ in Hz. rewrite Hflags in Hz.
  apply new_flags_values in Hz as (given & Hlen & Hgiven & Hzor).
  rewrite Z.lor_0_l in Hzor.
  unfold __str__. rewrite Hflags. cbn [negb]. rewrite inverted_get.
  destruct (label_of c z) as [l0|] eqn:Hl0.
  { apply label_of_In in Hl0. by apply Hone. }
  assert (Hundef : forall label, ~ In (label, z) (ENUM_MAP c)).
  { intros label Hin.
    assert (Hs : is_Some (label_of c z)) by (apply label_of_Some; eauto).
    rewrite Hl0 in Hs. by destruct Hs. }
  set (enum_map := dict_of_pairs _).
  set (candidates := sorted_reverse _).
  destruct (str_step_fold enum_map candidates z [])
    as (taken & residual & Hfold & Hin & Hor & Hand & Hfit).
  rewrite Hfold. cbn [app].
  assert (Htaken : Forall (fun v => v = 0 \/ In v taken) given).
  { apply List.Forall_forall. intros v Hv.
    destruct (decide (v = 0)) as [->|Hnz]; [by left|]. right.
    destruct (In_dec Z.eq_dec v taken) as [Ht|Ht]; [done|]. exfalso.
    destruct (proj1 (List.Forall_forall _ _) Hgiven v Hv) as [label Hlabelv].
    assert (Hcand : In v candidates) by (apply candidate_values; eauto).
    apply (proj1 (List.Forall_forall _ _) Hfit v Hcand Hnz).
    apply (land_split_part z (fold_left Z.lor taken 0)); [done| |].
    - rewrite Hzor. by apply land_fold_lor_member.
    - apply land_fold_lor_disjoint, List.Forall_forall. intros w Hw.
      apply (proj1 (List.Forall_forall _ _) Hin) in Hw as Hwc.
      apply candidate_values in Hwc as [_ [lw Hlw]].
      apply (Hdisjoint lw w label v); [done..|]. by intros ->. }
  assert (Hres : residual = 0).
  { apply (residual_zero z (fold_left Z.lor taken 0)); [done..|].
    rewrite Hzor. by apply land_fold_lor_covered. }
  subst residual. rewrite Z.lor_0_r in Hor. cbn [Z.eqb negb].
  assert (Hne : taken <> []).
  { intros ->. cbn [fold_left] in Hor.
    destruct given as [|v given].
    - pose proof (split_from_nonempty (list_ascii_of_string ",")
                    (list_ascii_of_string text) O []) as Hsp.
      unfold str_split, split in Hlen. rewrite length_map in Hlen.
      destruct (split_from _ _ _ _); [done|]. done.
    - apply Forall_cons in Hgiven as [[label Hlabelv] _].
      cbn [fold_left] in Hzor. rewrite Z.lor_0_l, (fold_lor_from given v) in Hzor.
      rewrite <- Hor in Hzor. symmetry in Hzor.
      apply Z.lor_eq_0_iff in Hzor as [Hv0 _].
      apply (Hundef label). by rewrite <- Hor, <- Hv0. }
  set (labels := map (fun v => default EmptyString (dict_get enum_map v)) taken).
  assert (Hlabels : Forall2 (fun label v => In (label, v) (ENUM_MAP c)) labels taken).
  { subst labels. clear Hfold Hor Hand Htaken Hne.
    induction Hin as [|v taken Hv Htk IH]; [constructor|].
    cbn [map]. constructor; [|done].
    apply candidate_values in Hv as [Hnz [label Hlabelv]].
    unfold enum_map. rewrite inverted_get.
    assert (Hs : is_Some (label_of c v)) by (apply label_of_Some; eauto).
    destruct Hs as [l1 Hl1]. rewrite Hl1. simpl. by apply label_of_In. }
  assert (Hlne : labels <> []).
  { subst labels. by destruct taken. }
  clearbody labels. clear Hfold Hin Hand Htaken Hne Hfit.
  replace (match labels with [] => [str_int z] | _ :: _ => labels end)
    with labels by (by destruct labels).
  unfold __new__. rewrite Hflags.
  assert (Hcl : Forall (fun label => str_strip label = label
                          /\ str_contains "," label = false) labels).
  { clear Hlne Hor. induction Hlabels as [|l v ls vs Hlv _ IH]; constructor.
    - by apply (Hlabel l v).
    - done. }
  assert (Htok := tokens_joined labels Hlne Hcl).
  rewrite new_flags_labels.
  - rewrite Htok. f_equal. rewrite <- Hor.
    clear Hlne Hcl Htok Hor. generalize 0 as start.
    induction Hlabels as [|l v ls vs Hlv _ IH]; intros start; [done|].
    cbn [map fold_left].
    replace (value_of c l) with v
      by (unfold value_of; by rewrite (dict_get_unique _ _ _ Hkeys Hlv)).
    apply IH.
  - rewrite Htok. clear Hlne Hcl Htok Hor.
    induction Hlabels as [|l v ls vs Hlv _ IH]; constructor.
    + apply is_label_get. rewrite (dict_get_unique _ _ _ Hkeys Hlv). by eexists.
    + done.
Qed.

Lemma flags_decode_then_encode_witness :
  __new__ access_flags (Text (__str__ access_flags 5)) = Ok 5.
Proof.
  apply (flags_decode_then_encode access_flags "Read,Execute" 5 eq_refl).
  - apply NoDup_ListNoDup. repeat constructor; simpl; intuition discriminate.
  - repeat constructor.
  - intros l1 v1 l2 v2 [H1|[H1|[H1|[H1|[]]]]] [H2|[H2|[H2|[H2|[]]]]] Hne;
      injection H1 as _ <-; injection H2 as _ <-; done.
  - reflexivity.
Defined.

(** * More on the framer: short, oversized and unterminated data *)

Import WinRMEncryption Envelope.

Lemma struct_unpack_wrong_length b :
  length b <> 4%nat -> struct_unpack_i b = Raise StructError.
Proof. by destruct b as [|b0 [|b1 [|b2 [|b3 [|b4 b]]]]]. Qed.

Lemma slice_to_short {A : Type} (s : list A) hi :
  Z.of_nat (length s) <= hi -> slice_to s hi = s.
Proof.
  intros Hlen. unfold slice_to, clamp_index.
  rewrite (proj2 (Z.ltb_ge _ _)) by lia. rewrite Z.min_r by lia.
  rewrite Nat2Z.id. apply firstn_all.
Qed.

Lemma slice_from_short {A : Type} (s : list A) lo :
  Z.of_nat (length s) <= lo -> slice_from s lo = [].
Proof.
  intros Hlen. unfold slice_from, clamp_index.
  rewrite (proj2 (Z.ltb_ge _ _)) by lia. rewrite Z.min_r by lia.
  rewrite Nat2Z.id. apply skipn_all.
Qed.

(** X18. Wrapped data of fewer than four bytes is refused by the SPNEGO
    unwrap with a [struct.error], before the context is used; the CredSSP
    unwrap does not object and hands the context the empty byte string. *)
Theorem short_wrapped_data auth hostname data :
  (length data < 4)%nat ->
  (forall c, auth !! hostname = Some (GSS c) ->
             _unwrap_spnego auth data hostname = Raise StructError)
  /\ (forall c, auth !! hostname = Some (TLS c) ->
                _unwrap_credssp auth data hostname = tls_unwrap c []).
Proof.
  intros Hlen. split; intros c Hctx.
  - unfold _unwrap_spnego, contexts_getitem. rewrite Hctx, bind_Ok.
    rewrite slice_to_short by lia.
    by rewrite struct_unpack_wrong_length by lia.
  - unfold _unwrap_credssp, contexts_getitem. rewrite Hctx, bind_Ok.
    by rewrite slice_from_short by lia.
Qed.

Lemma short_wrapped_data_witness :
  _unwrap_spnego signing_auth (to_bytes "abc") "server" = Raise StructError.
Proof.
  destruct (short_wrapped_data signing_auth "server" (to_bytes "abc"))
    as [Hspnego _]; [simpl; lia|].
  by eapply Hspnego.
Defined.

(** X19. The SPNEGO unwrap does not check the header length it reads
    against the data: when the length is that of the rest or more, the
    whole rest is taken as the header and the ciphertext is empty. *)
Theorem spnego_header_length_clamped auth hostname c n packed rest :
  auth !! hostname = Some (GSS c) ->
  struct_pack_i n = Ok packed ->
  Z.of_nat (length rest) <= n ->
  _unwrap_spnego auth (packed ++ rest) hostname = gss_unwrap c rest [].
Proof.
  intros Hctx Hpack Hn. assert (Hp := struct_pack_length _ _ Hpack).
  unfold _unwrap_spnego, contexts_getitem. rewrite Hctx, bind_Ok.
  replace 4 with (Z.of_nat (length packed)) at 1 by lia.
  rewrite slice_to_app, (struct_unpack_pack _ _ Hpack), bind_Ok.
  rewrite slice_from_short by (rewrite length_app; lia).
  f_equal. unfold slice, clamp_index. rewrite length_app.
  rewrite !(proj2 (Z.ltb_ge _ _)) by lia.
  rewrite (Z.min_l 4), (Z.min_r (4 + n)) by lia.
  replace (Z.to_nat 4) with (length packed) by lia.
  rewrite skipn_app, Nat.sub_diag, skipn_all, skipn_O. cbn [app].
  apply firstn_all2. lia.
Qed.

Lemma spnego_header_length_clamped_witness :
  _unwrap_spnego signing_auth
    ([byte_of_Z 100; byte_of_Z 0; byte_of_Z 0; byte_of_Z 0] ++ to_bytes "hello")
    "server"
  = Ok [].
Proof.
  exact (spnego_header_length_clamped signing_auth "server"
           {| gss_wrap := fun data => Ok (to_bytes "signature", data);
              gss_unwrap := fun header data => Ok data |}
           100 _ (to_bytes "hello") eq_refl eq_refl ltac:(vm_compute; discriminate)).
Defined.

Lemma split_frames_open protocol cbs : forall cur,
  known_protocol protocol -> cbs <> [] -> blobs_safe cbs ->
  split_from PART_BOUNDARY O cur (frames protocol cbs)
  = rev cur :: open_parts protocol cbs.
Proof.
  destruct boundary_facts as (HPB & HEB & _ & Hoct & Hend & _).
  induction cbs as [|cb cbs IH]; intros cur Hp Hne Hsafe; [done|].
  rewrite frames_cons.
  rewrite split_from_sep by done.
  rewrite split_from_no_match by (apply header_no_match; [done|lia]).
  rewrite app_nil_r, split_from_sep by done. rewrite rev_involutive.
  destruct cbs as [|cb' cbs].
  - destruct Hsafe as [Hb _]. cbn [open_parts]. do 2 f_equal.
    change (frames protocol []) with (@nil byte). rewrite app_nil_r.
    rewrite split_from_end; [done|].
    apply no_match_in_app; [by apply all_mismatch_no_match|].
    by apply contains_no_match_end.
  - destruct Hsafe as [(Hb & _ & _) Hsafe].
    change (open_parts protocol (cb :: cb' :: cbs))
      with (part_header protocol (str_int (Z.of_nat (length cb.1)))
            :: (OCTET_STREAM ++ cb.2) :: open_parts protocol (cb' :: cbs)).
    f_equal. f_equal.
    rewrite (app_assoc OCTET_STREAM).
    rewrite split_from_no_match.
    + rewrite app_nil_r, IH by done. by rewrite rev_involutive.
    + apply no_match_in_app; [by apply all_mismatch_no_match|].
      rewrite frames_cons, HPB, <- !app_assoc. by apply blob_no_match.
Qed.

Lemma open_parts_nonempty protocol cbs :
  known_protocol protocol ->
  filter_nonempty (open_parts protocol cbs) = open_parts protocol cbs.
Proof.
  intros Hp. induction cbs as [|cb cbs IH]; [done|].
  assert (Hh := part_header_nonempty protocol (str_int (Z.of_nat (length cb.1))) Hp).
  destruct cbs as [|cb' cbs].
  - cbn [open_parts]. unfold filter_nonempty. cbn [List.filter].
    destruct (part_header _ _); [done|]. done.
  - change (open_parts protocol (cb :: cb' :: cbs))
      with (part_header protocol (str_int (Z.of_nat (length cb.1)))
            :: (OCTET_STREAM ++ cb.2) :: open_parts protocol (cb' :: cbs)).
    unfold filter_nonempty in *. cbn [List.filter].
    destruct (part_header _ _); [done|]. by rewrite IH.
Qed.

(** X20. The end boundary is not required: an envelope of well-formed
    parts that stops after the last wrapped data unwraps to the chunks all
    the same, when no wrapped data contains the boundary line or the
    marker or ends in the end boundary and the mechanism unwraps each to
    its chunk. *)
Theorem unwrap_without_end_boundary self hostname cbs :
  known_protocol (protocol self) -> cbs <> [] ->
  Forall (fun cb => contains PART_BOUNDARY cb.2 = false
                    /\ contains OCTET_STREAM cb.2 = false
                    /\ endswith END_BOUNDARY cb.2 = false
                    /\ _unwrap self cb.2 hostname = Ok cb.1) cbs ->
  unwrap_message self (frames (protocol self) cbs) hostname
  = Ok (concat (map fst cbs)).
Proof.
  intros Hp Hne Hall.
  assert (Hsafe : blobs_safe cbs).
  { clear Hne. induction Hall as [|cb cbs (Hb & Ho & He & _) Hrest IH]; [done|].
    destruct cbs as [|cb' cbs]; [done|]. by split. }
  unfold unwrap_message, split.
  rewrite split_frames_open by done.
  change (filter_nonempty (rev [] :: open_parts (protocol self) cbs))
    with (filter_nonempty (open_parts (protocol self) cbs)).
  rewrite open_parts_nonempty by done.
  assert (Hgen : forall message,
    unwrap_parts self (open_parts (protocol self) cbs) hostname message
    = Ok (message ++ concat (map fst cbs))).
  { clear Hne Hsafe.
    induction Hall as [|cb cbs (Hb & Ho & He & Hu) Hrest IH]; intros message.
    - simpl. by rewrite app_nil_r.
    - assert (Hstep : forall rest,
        unwrap_parts self
          (part_header (protocol self) (str_int (Z.of_nat (length cb.1)))
           :: (OCTET_STREAM ++ cb.2) :: rest) hostname message
        = unwrap_parts self rest hostname (message ++ cb.1)).
      { intros rest. cbn [unwrap_parts].
        rewrite header_expected_length, bind_Ok by (done || lia).
        rewrite wrapped_data_of_inner, Hu, bind_Ok by done.
        by rewrite Z.eqb_refl. }
      destruct cbs as [|cb' cbs].
      + cbn [open_parts]. rewrite Hstep. simpl. by rewrite app_nil_r.
      + change (open_parts (protocol self) (cb :: cb' :: cbs))
          with (part_header (protocol self) (str_int (Z.of_nat (length cb.1)))
                :: (OCTET_STREAM ++ cb.2)
                :: open_parts (protocol self) (cb' :: cbs)).
        rewrite Hstep, IH. cbn [map concat]. by rewrite <- app_assoc. }
  by rewrite Hgen.
Qed.

Lemma unwrap_without_end_boundary_witness :
  unwrap_message (__init__ echo_auth CREDSSP)
    (frames CREDSSP
       [(to_bytes "hello",
         [byte_of_Z 16; byte_of_Z 0; byte_of_Z 0; byte_of_Z 0]
         ++ to_bytes "hello")]) "server"
  = Ok (to_bytes "hello").
Proof.
  apply (unwrap_without_end_boundary (__init__ echo_auth CREDSSP) "server"
           [(to_bytes "hello",
             [byte_of_Z 16; byte_of_Z 0; byte_of_Z 0; byte_of_Z 0]
             ++ to_bytes "hello")]).
  - by left.
  - done.
  - repeat constructor.
Defined.
